(** * TrackShift: a shallow embedding of the transfer core

    The Go packages [pkg/models], [internal/session], [internal/chunker],
    [internal/crypto], [pkg/protocol], [internal/erasure] and the receiver
    driver [cmd/receiver] are embedded as Rocq functions.

    Conventions.
    - Go's [int] and [int64] are [Z] with the 64-bit wrap-around written
      out ([wrap64]); [uint32] and [uint64] are [Z] reduced modulo a power
      of two; [[]byte] is [list byte]; a Go [string] is a Rocq [string].
    - A Go map is a [gmap]; a nil map is [None], because writing to it
      panics while reading from it does not.
    - [*TransferSession] is an index into a heap of session objects, so
      that the session manager and a connection handler share one object.
    - Calls that read the environment (the clock, the UUID generator, the
      outcome of a file-system call) take what the environment answered
      as an explicit argument. *)

From Stdlib Require Import ZArith List Lia Bool.
From Stdlib Require Import Strings.String Strings.Ascii Strings.Byte.
From Stdlib Require Import Numbers.DecimalString.
From stdpp Require Import base option list gmap strings sorting.

Local Open Scope string_scope.
Local Open Scope list_scope.
Local Open Scope Z_scope.

(** ** Machine integers and bytes *)

Definition wrap64 (z : Z) : Z := (z + 2 ^ 63) mod 2 ^ 64 - 2 ^ 63.
Definition w32 (z : Z) : Z := z mod 2 ^ 32.
Definition w64 (z : Z) : Z := z mod 2 ^ 64.

Definition byte_to_Z (b : byte) : Z := Z.of_N (Byte.to_N b).
Definition byte_of_Z (z : Z) : byte :=
  match Byte.of_N (Z.to_N (z mod 256)) with
  | Some b => b
  | None => x00
  end.

#[global] Instance byte_eq_dec : EqDecision byte.
Proof.
  intros a b. destruct (Byte.eqb a b) eqn:E.
  - left. by apply Byte.byte_dec_bl.
  - right. intros ->. by rewrite Byte.byte_dec_lb in E.
Defined.

Definition len {A} (l : list A) : Z := Z.of_nat (List.length l).

(** [fmt.Sprintf("%d", n)]. *)
Definition Sprintf_d (n : Z) : string := NilZero.string_of_int (Z.to_int n).

(** ** pkg/models *)

Definition Time := Z.
Definition ChunkStatus := string.
Definition SessionStatus := string.

Definition ChunkStatusPending : ChunkStatus := "pending".
Definition ChunkStatusInProgress : ChunkStatus := "in_progress".
Definition ChunkStatusCompleted : ChunkStatus := "completed".
Definition ChunkStatusFailed : ChunkStatus := "failed".

Definition SessionStatusCreated : SessionStatus := "created".
Definition SessionStatusTransferring : SessionStatus := "transferring".
Definition SessionStatusPaused : SessionStatus := "paused".
Definition SessionStatusCompleted : SessionStatus := "completed".
Definition SessionStatusFailed : SessionStatus := "failed".

Record FileMetadata := {
  fm_Name : string;
  fm_Size : Z;
  fm_Hash : string;
  fm_MimeType : string
}.

Record ChunkMetadata := {
  cm_ID : string;
  cm_Size : Z;
  cm_Offset : Z;
  cm_SHA256 : string;
  cm_IsParity : bool;
  cm_Status : ChunkStatus;
  cm_UpdatedAt : Time;
  cm_CreatedAt : Time;
  cm_SessionID : string;
  cm_Priority : Z;
  cm_RetryCount : Z;
  cm_Error : string
}.

Record TransferSession := {
  ts_ID : string;
  ts_File : FileMetadata;
  ts_Status : SessionStatus;
  ts_Chunks : option (gmap string ChunkMetadata);
  ts_CreatedAt : Time;
  ts_UpdatedAt : Time;
  ts_CompletedAt : option Time;
  ts_TotalChunks : Z;
  ts_Completed : Z;
  ts_Failed : Z;
  ts_BytesSent : Z;
  ts_BytesReceived : Z
}.

(** The errors the embedded functions return, one constructor per message. *)
Inductive error :=
| ErrFileNameEmpty
| ErrFileSizeNotPositive
| ErrFileHashEmpty
| ErrChunkIDEmpty
| ErrChunkSizeNotPositive
| ErrChunkOffsetNegative
| ErrChunkSHA256Empty
| ErrInvalidChunkStatus
| ErrSessionIDEmpty
| ErrInvalidSessionStatus
| ErrTotalChunksNegative
| ErrCountsNegative
| ErrBaseDirEmpty
| ErrCreatingSessionsDir
| ErrReadSessionsDir
| ErrSessionNotFound (id : string)
| ErrOpenTempSessionFile
| ErrEncodeSession
| ErrCloseTempSessionFile
| ErrAtomicRename
| ErrOpenSessionFile
| ErrDecodeSession
| ErrOpenCheckpointFile
| ErrEncodeCheckpoint
| ErrCloseCheckpointFile
| ErrRenameCheckpoint
| ErrOpenFile
| ErrRead
| ErrWriteChunkFile
| ErrOpenOutputFile
| ErrReadChunkFile (name : string)
| ErrWriteOutput
| ErrPayloadTooLarge
| ErrPacketTooSmall
| ErrInvalidMagic
| ErrPacketMissingChecksum
| ErrChecksumVerificationFailed
| ErrCoderNotInitialized
| ErrShardCount (expected got : Z)
| ErrShardInconsistentLength (i : Z)
| ErrNotEnoughShards (have need : Z)
| ErrCodec
| ErrZstdDecode.

Inductive result (A : Type) :=
| Ok (a : A)
| Err (e : error).
Arguments Ok {A} a.
Arguments Err {A} e.

(** A call either returns or panics. *)
Inductive outcome (A : Type) :=
| Returns (a : A)
| Panics.
Arguments Returns {A} a.
Arguments Panics {A}.

Definition FileMetadata_Validate (f : FileMetadata) : option error :=
  if decide (fm_Name f = "") then Some ErrFileNameEmpty
  else if decide (fm_Size f <= 0) then Some ErrFileSizeNotPositive
  else if decide (fm_Hash f = "") then Some ErrFileHashEmpty
  else None.

Definition valid_chunk_status (s : ChunkStatus) : bool :=
  bool_decide (s = ChunkStatusPending) || bool_decide (s = ChunkStatusInProgress)
  || bool_decide (s = ChunkStatusCompleted) || bool_decide (s = ChunkStatusFailed).

Definition ChunkMetadata_Validate (c : ChunkMetadata) : option error :=
  if decide (cm_ID c = "") then Some ErrChunkIDEmpty
  else if decide (cm_Size c <= 0) then Some ErrChunkSizeNotPositive
  else if decide (cm_Offset c < 0) then Some ErrChunkOffsetNegative
  else if decide (cm_SHA256 c = "") then Some ErrChunkSHA256Empty
  else if valid_chunk_status (cm_Status c) then None
  else Some ErrInvalidChunkStatus.

Definition valid_session_status (s : SessionStatus) : bool :=
  bool_decide (s = SessionStatusCreated) || bool_decide (s = SessionStatusTransferring)
  || bool_decide (s = SessionStatusPaused) || bool_decide (s = SessionStatusCompleted)
  || bool_decide (s = SessionStatusFailed).

Definition TransferSession_Validate (s : TransferSession) : option error :=
  if decide (ts_ID s = "") then Some ErrSessionIDEmpty
  else match FileMetadata_Validate (ts_File s) with
  | Some e => Some e
  | None =>
    if negb (valid_session_status (ts_Status s)) then Some ErrInvalidSessionStatus
    else if decide (ts_TotalChunks s < 0) then Some ErrTotalChunksNegative
    else if decide (ts_Completed s < 0 \/ ts_Failed s < 0) then Some ErrCountsNegative
    else None
  end.

(** The zero values of the structs. *)
Definition zero_FileMetadata : FileMetadata :=
  {| fm_Name := ""; fm_Size := 0; fm_Hash := ""; fm_MimeType := "" |}.

Definition zero_ChunkMetadata : ChunkMetadata :=
  {| cm_ID := ""; cm_Size := 0; cm_Offset := 0; cm_SHA256 := "";
     cm_IsParity := false; cm_Status := ""; cm_UpdatedAt := 0;
     cm_CreatedAt := 0; cm_SessionID := ""; cm_Priority := 0;
     cm_RetryCount := 0; cm_Error := "" |}.

Definition zero_TransferSession : TransferSession :=
  {| ts_ID := ""; ts_File := zero_FileMetadata; ts_Status := "";
     ts_Chunks := None; ts_CreatedAt := 0; ts_UpdatedAt := 0;
     ts_CompletedAt := None; ts_TotalChunks := 0; ts_Completed := 0;
     ts_Failed := 0; ts_BytesSent := 0; ts_BytesReceived := 0 |}.

(** Field updates, written as the assignments of the source. *)
Definition chunk_set_Status (c : ChunkMetadata) (st : ChunkStatus) (now : Time) : ChunkMetadata :=
  {| cm_ID := cm_ID c; cm_Size := cm_Size c; cm_Offset := cm_Offset c;
     cm_SHA256 := cm_SHA256 c; cm_IsParity := cm_IsParity c;
     cm_Status := st; cm_UpdatedAt := now; cm_CreatedAt := cm_CreatedAt c;
     cm_SessionID := cm_SessionID c; cm_Priority := cm_Priority c;
     cm_RetryCount := cm_RetryCount c; cm_Error := cm_Error c |}.

Definition chunk_set_SessionID (c : ChunkMetadata) (sid : string) : ChunkMetadata :=
  {| cm_ID := cm_ID c; cm_Size := cm_Size c; cm_Offset := cm_Offset c;
     cm_SHA256 := cm_SHA256 c; cm_IsParity := cm_IsParity c;
     cm_Status := cm_Status c; cm_UpdatedAt := cm_UpdatedAt c;
     cm_CreatedAt := cm_CreatedAt c; cm_SessionID := sid;
     cm_Priority := cm_Priority c; cm_RetryCount := cm_RetryCount c;
     cm_Error := cm_Error c |}.

Definition session_set_Chunks (s : TransferSession) (ch : option (gmap string ChunkMetadata))
  : TransferSession :=
  {| ts_ID := ts_ID s; ts_File := ts_File s; ts_Status := ts_Status s;
     ts_Chunks := ch; ts_CreatedAt := ts_CreatedAt s;
     ts_UpdatedAt := ts_UpdatedAt s; ts_CompletedAt := ts_CompletedAt s;
     ts_TotalChunks := ts_TotalChunks s; ts_Completed := ts_Completed s;
     ts_Failed := ts_Failed s; ts_BytesSent := ts_BytesSent s;
     ts_BytesReceived := ts_BytesReceived s |}.

Definition session_set_counters (s : TransferSession) (completed failed : Z) (now : Time)
  : TransferSession :=
  {| ts_ID := ts_ID s; ts_File := ts_File s; ts_Status := ts_Status s;
     ts_Chunks := ts_Chunks s; ts_CreatedAt := ts_CreatedAt s;
     ts_UpdatedAt := now; ts_CompletedAt := ts_CompletedAt s;
     ts_TotalChunks := ts_TotalChunks s; ts_Completed := completed;
     ts_Failed := failed; ts_BytesSent := ts_BytesSent s;
     ts_BytesReceived := ts_BytesReceived s |}.

(** ** The environment

    [World] is everything outside the Go values that the embedded code
    touches: the heap of session objects (a [*TransferSession] is an index
    into it), the sessions directory, the receiver's scratch and output
    directories, and the log.

    A file of the sessions directory is kept as its decoded document:
    [encoding/json] is taken to round-trip a [TransferSession] whose
    strings are valid UTF-8. *)

Record SessionCheckpoint := {
  cp_SessionID : string;
  cp_CompletedChunks : list string;
  cp_PendingChunks : list string;
  cp_TotalChunks : Z;
  cp_LastUpdateTime : Time
}.

Inductive FileContent :=
| SessionJSON (s : TransferSession)      (* the JSON encoding of [s] *)
| CheckpointJSON (cp : SessionCheckpoint) (* the JSON encoding of [cp] *)
| Garbage                                 (* bytes that are not a JSON document *)
| Unreadable.                             (* a file that cannot be opened *)

Inductive DirEntry :=
| EDir
| EFile (c : FileContent).

Inductive LogMsg :=
| LogFailedToLoadSession (id : string) (e : error)
| LogConnectionClosed
| LogReceiveError
| LogInvalidFileMetadataFrame
| LogCreateSession (e : error)
| LogChunkBeforeFileMetadata
| LogInvalidHashEncoding (id : string)
| LogHashMismatch (id : string)
| LogStoreChunk (id : string) (e : error)
| LogUpdateChunkStatus (e : error)
| LogAssembleFile (e : error)
| LogAssembled (path : string).

Record World := {
  w_heap : list TransferSession;
  w_sessions_dir : gmap string DirEntry;
  w_temp_dir : gmap string (list byte);
  w_output_dir : gmap string (list byte);
  w_log : list LogMsg
}.

Definition set_heap (w : World) (h : list TransferSession) : World :=
  {| w_heap := h; w_sessions_dir := w_sessions_dir w; w_temp_dir := w_temp_dir w;
     w_output_dir := w_output_dir w; w_log := w_log w |}.
Definition set_sessions_dir (w : World) (d : gmap string DirEntry) : World :=
  {| w_heap := w_heap w; w_sessions_dir := d; w_temp_dir := w_temp_dir w;
     w_output_dir := w_output_dir w; w_log := w_log w |}.
Definition set_temp_dir (w : World) (d : gmap string (list byte)) : World :=
  {| w_heap := w_heap w; w_sessions_dir := w_sessions_dir w; w_temp_dir := d;
     w_output_dir := w_output_dir w; w_log := w_log w |}.
Definition add_log (w : World) (msg : LogMsg) : World :=
  {| w_heap := w_heap w; w_sessions_dir := w_sessions_dir w; w_temp_dir := w_temp_dir w;
     w_output_dir := w_output_dir w; w_log := w_log w ++ [msg] |}.

Definition empty_World : World :=
  {| w_heap := []; w_sessions_dir := ∅; w_temp_dir := ∅; w_output_dir := ∅; w_log := [] |}.

(** [json.NewDecoder(f).Decode(&s)] into a zero [TransferSession]. Keys the
    struct does not have are ignored, so a checkpoint document decodes: of
    its keys only [total_chunks] is one of [TransferSession]'s. *)
Definition decode_TransferSession (c : FileContent) : option TransferSession :=
  match c with
  | SessionJSON s => Some s
  | CheckpointJSON cp =>
      Some {| ts_ID := ""; ts_File := zero_FileMetadata; ts_Status := "";
              ts_Chunks := None; ts_CreatedAt := 0; ts_UpdatedAt := 0;
              ts_CompletedAt := None; ts_TotalChunks := cp_TotalChunks cp;
              ts_Completed := 0; ts_Failed := 0; ts_BytesSent := 0;
              ts_BytesReceived := 0 |}
  | Garbage | Unreadable => None
  end.

(** ** internal/session *)

Record SessionManager := {
  sessions : gmap string nat;
  baseDir : string
}.

(** What the file system answered to the calls of [saveLocked]: which of
    them failed, if any. [CloseFails flushed] says whether the document had
    reached the temporary file. *)
Inductive SaveFault :=
| NoFault
| OpenFails
| EncodeFails
| CloseFails (flushed : bool)
| RenameFails.

(** What it answered to [MkdirAll] and [ReadDir] in [NewSessionManager]. *)
Inductive DirFault :=
| DirOk
| MkdirAllFails
| ReadDirFails.

(** [filepath.Join(m.baseDir, id+".json")], as a name inside the sessions
    directory. *)
Definition session_path (id : string) : string := id +:+ ".json".

Definition saveLocked (fault : SaveFault) (session : TransferSession)
    (dir : gmap string DirEntry) : option error * gmap string DirEntry :=
  match TransferSession_Validate session with
  | Some e => (Some e, dir)
  | None =>
    let path := session_path (ts_ID session) in
    let tmpPath := path +:+ ".tmp" in
    match fault with
    | OpenFails => (Some ErrOpenTempSessionFile, dir)
    | EncodeFails => (Some ErrEncodeSession, <[tmpPath := EFile Garbage]> dir)
    | CloseFails flushed =>
        (Some ErrCloseTempSessionFile,
         <[tmpPath := EFile (if flushed then SessionJSON session else Garbage)]> dir)
    | RenameFails =>
        (Some ErrAtomicRename, <[tmpPath := EFile (SessionJSON session)]> dir)
    | NoFault =>
        (None, <[path := EFile (SessionJSON session)]> (delete tmpPath dir))
    end
  end.

(** The manager's mutex is held for the whole of [SaveSession]; in a
    sequential run it is [saveLocked]. *)
Definition SaveSession (fault : SaveFault) (session : TransferSession)
    (dir : gmap string DirEntry) : option error * gmap string DirEntry :=
  saveLocked fault session dir.

Definition LoadSession (dir : gmap string DirEntry) (id : string) : result TransferSession :=
  match dir !! session_path id with
  | None => Err ErrOpenSessionFile
  | Some EDir => Err ErrDecodeSession
  | Some (EFile Unreadable) => Err ErrOpenSessionFile
  | Some (EFile c) =>
      match decode_TransferSession c with
      | None => Err ErrDecodeSession
      | Some s =>
          match TransferSession_Validate s with
          | Some e => Err e
          | None => Ok s
          end
      end
  end.

(** [filepath.Ext]: the suffix of the name from the last dot of its last
    path element on, empty when there is none. *)
Fixpoint Ext_scan (rev_name : list ascii) (suffix : list ascii) : string :=
  match rev_name with
  | [] => ""
  | c :: rest =>
      if decide (c = "/"%char) then ""
      else if decide (c = "."%char) then string_of_list_ascii (c :: suffix)
      else Ext_scan rest (c :: suffix)
  end.

Definition Ext (name : string) : string :=
  Ext_scan (rev (list_ascii_of_string name)) [].

(** [name[:len(name)-len(".json")]]. *)
Definition trim_json (name : string) : string :=
  substring 0 (String.length name - 5) name.

(** [os.ReadDir]: the entries, sorted by file name. *)
Definition name_le (a b : string * DirEntry) : Prop := String.leb a.1 b.1 = true.

#[global] Instance name_le_dec a b : Decision (name_le a b).
Proof. unfold name_le. apply _. Defined.

Definition ReadDir (dir : gmap string DirEntry) : list (string * DirEntry) :=
  merge_sort name_le (map_to_list dir).

(** One turn of the loop of [loadExisting]. *)
Definition loadExisting_entry (dir : gmap string DirEntry)
    (acc : gmap string nat * list TransferSession * list LogMsg)
    (entry : string * DirEntry) : gmap string nat * list TransferSession * list LogMsg :=
  let '(ss, heap, log) := acc in
  match entry.2 with
  | EDir => acc
  | EFile _ =>
      if decide (Ext entry.1 = ".json") then
        let id := trim_json entry.1 in
        match LoadSession dir id with
        | Err e => (ss, heap, log ++ [LogFailedToLoadSession id e])
        | Ok s => (<[id := List.length heap]> ss, heap ++ [s], log)
        end
      else acc
  end.

Definition loadExisting (fault : DirFault) (m : SessionManager) (w : World)
  : option error * SessionManager * World :=
  match fault with
  | ReadDirFails => (Some ErrReadSessionsDir, m, w)
  | _ =>
    let '(ss, heap, log) :=
      fold_left (loadExisting_entry (w_sessions_dir w)) (ReadDir (w_sessions_dir w))
                (sessions m, w_heap w, w_log w) in
    (None, {| sessions := ss; baseDir := baseDir m |},
     {| w_heap := heap; w_sessions_dir := w_sessions_dir w; w_temp_dir := w_temp_dir w;
        w_output_dir := w_output_dir w; w_log := log |})
  end.

Definition NewSessionManager (dirName : string) (fault : DirFault) (w : World)
  : result SessionManager * World :=
  if decide (dirName = "") then (Err ErrBaseDirEmpty, w)
  else match fault with
  | MkdirAllFails => (Err ErrCreatingSessionsDir, w)
  | _ =>
    let mgr := {| sessions := ∅; baseDir := dirName |} in
    match loadExisting fault mgr w with
    | (Some e, _, w') => (Err e, w')
    | (None, mgr', w') => (Ok mgr', w')
    end
  end.

(** [CreateSession]; [id] is what [uuid.NewString()] returned and [now] what
    [time.Now()] returned. The result is the pointer to the new session. *)
Definition CreateSession (m : SessionManager) (w : World) (fileInfo : FileMetadata)
    (id : string) (now : Time) (fault : SaveFault)
  : result nat * SessionManager * World :=
  match FileMetadata_Validate fileInfo with
  | Some e => (Err e, m, w)
  | None =>
    let s := {| ts_ID := id; ts_File := fileInfo; ts_Status := SessionStatusCreated;
                ts_Chunks := Some ∅; ts_CreatedAt := now; ts_UpdatedAt := now;
                ts_CompletedAt := None; ts_TotalChunks := 0; ts_Completed := 0;
                ts_Failed := 0; ts_BytesSent := 0; ts_BytesReceived := 0 |} in
    match TransferSession_Validate s with
    | Some e => (Err e, m, w)
    | None =>
      let p := List.length (w_heap w) in
      let m' := {| sessions := <[id := p]> (sessions m); baseDir := baseDir m |} in
      let w1 := set_heap w (w_heap w ++ [s]) in
      match SaveSession fault s (w_sessions_dir w1) with
      | (Some e, d) => (Err e, m', set_sessions_dir w1 d)
      | (None, d) => (Ok p, m', set_sessions_dir w1 d)
      end
    end
  end.

Definition GetSession (m : SessionManager) (id : string) : result nat :=
  match sessions m !! id with
  | Some p => Ok p
  | None => Err (ErrSessionNotFound id)
  end.

(** The session object as [UpdateChunkStatus] leaves it in memory, before
    it is saved; [None] when the chunk is absent and the map is nil, where
    the assignment [s.Chunks[chunkID] = chunk] panics. *)
Definition update_in_memory (s : TransferSession) (chunkID : string)
    (status : ChunkStatus) (now : Time) : option TransferSession :=
  match ts_Chunks s with
  | None => None
  | Some chunks =>
    let chunk :=
      match chunks !! chunkID with
      | Some c => c
      | None =>
          {| cm_ID := chunkID; cm_Size := 0; cm_Offset := 0; cm_SHA256 := "";
             cm_IsParity := false; cm_Status := ""; cm_UpdatedAt := 0;
             cm_CreatedAt := now; cm_SessionID := ""; cm_Priority := 0;
             cm_RetryCount := 0; cm_Error := "" |}
      end in
    let chunk' := chunk_set_Status chunk status now in
    let s1 := session_set_Chunks s (Some (<[chunkID := chunk']> chunks)) in
    let completed :=
      if decide (status = ChunkStatusCompleted) then wrap64 (ts_Completed s1 + 1)
      else ts_Completed s1 in
    let failed :=
      if decide (status = ChunkStatusCompleted) then ts_Failed s1
      else if decide (status = ChunkStatusFailed) then wrap64 (ts_Failed s1 + 1)
      else ts_Failed s1 in
    Some (session_set_counters s1 completed failed now)
  end.

Definition UpdateChunkStatus (m : SessionManager) (w : World) (sessionID chunkID : string)
    (status : ChunkStatus) (now : Time) (fault : SaveFault)
  : outcome (option error) * World :=
  match sessions m !! sessionID with
  | None => (Returns (Some (ErrSessionNotFound sessionID)), w)
  | Some p =>
    match w_heap w !! p with
    | None => (Panics, w)
    | Some s =>
      match update_in_memory s chunkID status now with
      | None => (Panics, w)
      | Some s' =>
        let w1 := set_heap w (<[p := s']> (w_heap w)) in
        let '(err, d) := saveLocked fault s' (w_sessions_dir w1) in
        (Returns err, set_sessions_dir w1 d)
      end
    end
  end.

(** [PersistCheckpoint]. The two lists are filled in the order in which the
    chunks map is ranged over, which Go leaves unspecified; here it is the
    order of [map_to_list]. *)
Definition checkpoint_path (id : string) : string := id +:+ ".checkpoint.json".

Definition PersistCheckpoint (m : SessionManager) (w : World) (sessionID : string)
    (now : Time) (fault : SaveFault) : outcome (option error) * World :=
  match sessions m !! sessionID with
  | None => (Returns (Some (ErrSessionNotFound sessionID)), w)
  | Some p =>
    match w_heap w !! p with
    | None => (Panics, w)
    | Some s =>
      let chunks := map_to_list (default ∅ (ts_Chunks s)) in
      let completed :=
        (filter (λ kv, cm_Status kv.2 = ChunkStatusCompleted) chunks).*1 in
      let pending :=
        (filter (λ kv, cm_Status kv.2 ≠ ChunkStatusCompleted) chunks).*1 in
      let cp := {| cp_SessionID := ts_ID s; cp_CompletedChunks := completed;
                   cp_PendingChunks := pending; cp_TotalChunks := ts_TotalChunks s;
                   cp_LastUpdateTime := now |} in
      let path := checkpoint_path (ts_ID s) in
      let tmp := path +:+ ".tmp" in
      let d := w_sessions_dir w in
      match fault with
      | OpenFails => (Returns (Some ErrOpenCheckpointFile), w)
      | EncodeFails =>
          (Returns (Some ErrEncodeCheckpoint), set_sessions_dir w (<[tmp := EFile Garbage]> d))
      | CloseFails flushed =>
          (Returns (Some ErrCloseCheckpointFile),
           set_sessions_dir w
             (<[tmp := EFile (if flushed then CheckpointJSON cp else Garbage)]> d))
      | RenameFails =>
          (Returns (Some ErrRenameCheckpoint),
           set_sessions_dir w (<[tmp := EFile (CheckpointJSON cp)]> d))
      | NoFault =>
          (Returns None,
           set_sessions_dir w (<[path := EFile (CheckpointJSON cp)]> (delete tmp d)))
      end
    end
  end.

(** [GetMissingChunks], in the order of [map_to_list]. *)
Definition GetMissingChunks (m : SessionManager) (w : World) (sessionID : string)
  : list string :=
  match sessions m !! sessionID with
  | None => []
  | Some p =>
    match w_heap w !! p with
    | None => []
    | Some s =>
      (filter (λ kv, cm_Status kv.2 ≠ ChunkStatusCompleted)
              (map_to_list (default ∅ (ts_Chunks s)))).*1
    end
  end.

(** A caller that issues one [UpdateChunkStatus] after another on a session
    and goes on after an error, as both drivers do: each call is the chunk
    id, the status, the time and what the file system did. *)
Definition UpdateCall : Type := string * ChunkStatus * Time * SaveFault.

Definition run_updates (m : SessionManager) (sessionID : string)
    (calls : list UpdateCall) (w : World) : World :=
  fold_left
    (λ w c, (UpdateChunkStatus m w sessionID c.1.1.1 c.1.1.2 c.1.2 c.2).2)
    calls w.

Definition count_status (st : ChunkStatus) (calls : list UpdateCall) : Z :=
  len (filter (λ c : UpdateCall, c.1.1.2 = st) calls).

(** The values of a Go [int]. *)
Definition in_int64 (z : Z) : Prop := - 2 ^ 63 <= z < 2 ^ 63.

(** ** crypto/sha256 and encoding/hex

    [sha256.Sum256] is FIPS 180-4's SHA-256, on 32-bit words kept in [Z]. *)

Definition rotr32 (n x : Z) : Z :=
  Z.lor (Z.shiftr x n) (w32 (Z.shiftl x (32 - n))).

Definition sha_Ch (x y z : Z) : Z :=
  Z.lxor (Z.land x y) (Z.land (Z.lxor x 0xFFFFFFFF) z).
Definition sha_Maj (x y z : Z) : Z :=
  Z.lxor (Z.lxor (Z.land x y) (Z.land x z)) (Z.land y z).
Definition sha_Sigma0 (x : Z) : Z :=
  Z.lxor (Z.lxor (rotr32 2 x) (rotr32 13 x)) (rotr32 22 x).
Definition sha_Sigma1 (x : Z) : Z :=
  Z.lxor (Z.lxor (rotr32 6 x) (rotr32 11 x)) (rotr32 25 x).
Definition sha_sigma0 (x : Z) : Z :=
  Z.lxor (Z.lxor (rotr32 7 x) (rotr32 18 x)) (Z.shiftr x 3).
Definition sha_sigma1 (x : Z) : Z :=
  Z.lxor (Z.lxor (rotr32 17 x) (rotr32 19 x)) (Z.shiftr x 10).

(** The constants of the standard: the first 32 bits of the fractional
    parts of the cube roots of the first 64 primes, and of the square roots
    of the first 8 primes for the initial hash value. *)
Fixpoint next_primes (fuel : nat) (n : Z) (found : list Z) (want : nat) : list Z :=
  match fuel, want with
  | O, _ => found
  | _, O => found
  | S fuel', S want' =>
      if forallb (λ q, negb (n mod q =? 0)) found
      then next_primes fuel' (n + 1) (found ++ [n]) want'
      else next_primes fuel' (n + 1) found want
  end.

Definition first_primes (k : nat) : list Z := next_primes 400 2 [] k.

(** The integer cube root, bit by bit from bit [k - 1] down. *)
Fixpoint icbrt_bits (k : nat) (n r : Z) : Z :=
  match k with
  | O => r
  | S k' =>
      let r' := r + 2 ^ Z.of_nat k' in
      if r' * r' * r' <=? n then icbrt_bits k' n r' else icbrt_bits k' n r
  end.

Definition sha_K : list Z :=
  Eval vm_compute in
    (λ q, w32 (icbrt_bits 44 (q * 2 ^ 96) 0)) <$> first_primes 64.

Definition sha_H0 : list Z :=
  Eval vm_compute in (λ q, w32 (Z.sqrt (q * 2 ^ 64))) <$> first_primes 8.

(** Big-endian encodings. *)
Fixpoint be_bytes (n : nat) (z : Z) : list byte :=
  match n with
  | O => []
  | S n' => byte_of_Z (Z.shiftr z (8 * Z.of_nat n')) :: be_bytes n' z
  end.

Definition be_to_Z (bs : list byte) : Z :=
  fold_left (λ acc b, acc * 256 + byte_to_Z b) bs 0.

Definition sha_pad (msg : list byte) : list byte :=
  let l := len msg in
  let k := (55 - l) mod 64 in
  msg ++ [byte_of_Z 0x80] ++ repeat x00 (Z.to_nat k) ++ be_bytes 8 (8 * l).

(** The sixteen words of a 64-byte block. *)
Fixpoint sha_words (n : nat) (block : list byte) : list Z :=
  match n with
  | O => []
  | S n' => be_to_Z (take 4 block) :: sha_words n' (drop 4 block)
  end.

(** The message schedule, newest word first. *)
Fixpoint sha_schedule (n : nat) (rev_w : list Z) : list Z :=
  match n with
  | O => rev_w
  | S n' =>
      let w := w32 (sha_sigma1 (nth 1 rev_w 0) + nth 6 rev_w 0
                    + sha_sigma0 (nth 14 rev_w 0) + nth 15 rev_w 0) in
      sha_schedule n' (w :: rev_w)
  end.

Definition sha_round (st : list Z) (kw : Z * Z) : list Z :=
  match st with
  | [a; b; c; d; e; f; g; h] =>
      let t1 := h + sha_Sigma1 e + sha_Ch e f g + kw.1 + kw.2 in
      let t2 := sha_Sigma0 a + sha_Maj a b c in
      [w32 (t1 + t2); a; b; c; w32 (d + t1); e; f; g]
  | _ => st
  end.

Definition sha_block (h : list Z) (block : list byte) : list Z :=
  let w := rev (sha_schedule 48 (rev (sha_words 16 block))) in
  let st := fold_left sha_round (zip sha_K w) h in
  zip_with (λ x y, w32 (x + y)) h st.

Fixpoint sha_blocks (n : nat) (h : list Z) (msg : list byte) : list Z :=
  match n with
  | O => h
  | S n' => sha_blocks n' (sha_block h (take 64 msg)) (drop 64 msg)
  end.

Definition sha256_Sum256 (data : list byte) : list byte :=
  let padded := sha_pad data in
  let h := sha_blocks (length padded / 64) sha_H0 padded in
  flat_map (be_bytes 4) h.

(** [hex.EncodeToString], which is also [fmt.Sprintf("%x", b)] on bytes. *)
Definition hex_digit (n : Z) : ascii :=
  if decide (n < 10) then ascii_of_nat (Z.to_nat (48 + n))
  else ascii_of_nat (Z.to_nat (87 + n)).

Fixpoint hex_EncodeToString (bs : list byte) : string :=
  match bs with
  | [] => ""
  | b :: rest =>
      String (hex_digit (byte_to_Z b / 16))
        (String (hex_digit (byte_to_Z b mod 16)) (hex_EncodeToString rest))
  end.

(** [fromHexChar]. *)
Definition fromHexChar (c : ascii) : option Z :=
  let n := Z.of_nat (nat_of_ascii c) in
  if decide (48 <= n <= 57) then Some (n - 48)
  else if decide (97 <= n <= 102) then Some (n - 97 + 10)
  else if decide (65 <= n <= 70) then Some (n - 65 + 10)
  else None.

(** [hex.DecodeString]: [None] for an invalid digit or an odd length. *)
Fixpoint hex_DecodeString (s : string) : option (list byte) :=
  match s with
  | EmptyString => Some []
  | String _ EmptyString => None
  | String a (String b rest) =>
      match fromHexChar a, fromHexChar b, hex_DecodeString rest with
      | Some x, Some y, Some bs => Some (byte_of_Z (x * 16 + y) :: bs)
      | _, _, _ => None
      end
  end.

(** ** internal/crypto: hashing *)

Definition HashChunk (data : list byte) : list byte := sha256_Sum256 data.

(** [actual == expectedHash] on [[32]byte]. *)
Definition VerifyChunk (data : list byte) (expectedHash : list byte) : bool :=
  bool_decide (HashChunk data = expectedHash).

(** ** internal/transport: the receiver's scratch files and the assembler *)

(** What the file system answered to a whole-file write: [WriteFails n]
    leaves the first [n] bytes in the file. *)
Inductive WriteFault :=
| WriteOk
| WriteOpenFails
| WriteFails (written : nat).

(** [fmt.Sprintf("%s_%s.part", sessionID, meta.ID)], as a name inside the
    scratch directory. *)
Definition part_name (sessionID chunkID : string) : string :=
  sessionID +:+ "_" +:+ chunkID +:+ ".part".

Definition StoreChunk (fault : WriteFault) (sessionID : string) (meta : ChunkMetadata)
    (data : list byte) (temp : gmap string (list byte))
  : result string * gmap string (list byte) :=
  let path := part_name sessionID (cm_ID meta) in
  match fault with
  | WriteOk => (Ok path, <[path := data]> temp)
  | WriteOpenFails => (Err ErrWriteChunkFile, temp)
  | WriteFails n => (Err ErrWriteChunkFile, <[path := take n data]> temp)
  end.

Definition offset_le (a b : ChunkMetadata) : Prop := cm_Offset a <= cm_Offset b.

#[global] Instance offset_le_dec a b : Decision (offset_le a b).
Proof. unfold offset_le. apply _. Defined.



(** ** cmd/receiver: [handleConnection] *)

(** What [recv.Receive(conn)] returned: a clean end of stream, a network
    error (temporary or not), another error, or the decompressed payload
    and the metadata of one frame. *)
Inductive RecvResult :=
| RecvEOF
| RecvNetError (temporary : bool)
| RecvError
| RecvFrame (data : list byte) (meta : ChunkMetadata).

(** What the environment answers during one turn of the loop. *)
Record Env := {
  env_recv : RecvResult;
  env_uuid : string;
  env_now : Time;
  env_save : SaveFault;
  env_store : WriteFault
}.

Record ConnState := {
  cs_mgr : SessionManager;
  cs_world : World;
  cs_sess : option nat
}.

Definition cs_log (st : ConnState) (msg : LogMsg) : ConnState :=
  {| cs_mgr := cs_mgr st; cs_world := add_log (cs_world st) msg; cs_sess := cs_sess st |}.

(** How one turn of the loop ends. *)
Inductive Step :=
| Continue (st : ConnState)
| Break (st : ConnState)
| Return (st : ConnState)
| Panic (st : ConnState).

(** [copy(expectedHash[:], expectedHashBytes)] into a zero [[32]byte]. *)
Definition copy32 (bs : list byte) : list byte :=
  take 32 bs ++ repeat x00 (32 - length bs).

(** The 32-byte array the receiver compares the payload's hash with;
    [None] when the declared value is not hexadecimal. *)
Definition declared_hash (sha : string) : option (list byte) :=
  copy32 <$> hex_DecodeString sha.

Section Receiver.

(** [json.Unmarshal(data, &fileMeta)]. *)
Variable Unmarshal_FileMetadata : list byte → option FileMetadata.

Definition handle_frame (st : ConnState) (env : Env) : Step :=
  match env_recv env with
  | RecvEOF => Break st
  | RecvNetError false => Break (cs_log st LogConnectionClosed)
  | RecvNetError true => Break (cs_log st LogReceiveError)
  | RecvError => Break (cs_log st LogReceiveError)
  | RecvFrame data meta =>
    if decide (cm_ID meta = "__filemeta__") then
      match Unmarshal_FileMetadata data with
      | None => Return (cs_log st LogInvalidFileMetadataFrame)
      | Some fileMeta =>
        match CreateSession (cs_mgr st) (cs_world st) fileMeta
                (env_uuid env) (env_now env) (env_save env) with
        | (Err e, m', w') =>
            Return {| cs_mgr := m'; cs_world := add_log w' (LogCreateSession e);
                      cs_sess := None |}
        | (Ok p, m', w') =>
            Continue {| cs_mgr := m'; cs_world := w'; cs_sess := Some p |}
        end
      end
    else
      match cs_sess st with
      | None => Continue (cs_log st LogChunkBeforeFileMetadata)
      | Some p =>
        match hex_DecodeString (cm_SHA256 meta) with
        | None => Continue (cs_log st (LogInvalidHashEncoding (cm_ID meta)))
        | Some expectedHashBytes =>
          if negb (VerifyChunk data (copy32 expectedHashBytes)) then
            Continue (cs_log st (LogHashMismatch (cm_ID meta)))
          else
            match w_heap (cs_world st) !! p with
            | None => Panic st
            | Some s =>
              let meta' := chunk_set_SessionID meta (ts_ID s) in
              let s1 :=
                session_set_Chunks s
                  (Some (<[cm_ID meta := meta']> (default ∅ (ts_Chunks s)))) in
              let w1 := set_heap (cs_world st) (<[p := s1]> (w_heap (cs_world st))) in
              match StoreChunk (env_store env) (ts_ID s) meta' data (w_temp_dir w1) with
              | (Err e, temp) =>
                  Continue {| cs_mgr := cs_mgr st;
                              cs_world := add_log (set_temp_dir w1 temp)
                                            (LogStoreChunk (cm_ID meta) e);
                              cs_sess := Some p |}
              | (Ok _, temp) =>
                  match UpdateChunkStatus (cs_mgr st) (set_temp_dir w1 temp) (ts_ID s)
                          (cm_ID meta) ChunkStatusCompleted (env_now env)
                          (env_save env) with
                  | (Panics, w2) =>
                      Panic {| cs_mgr := cs_mgr st; cs_world := w2; cs_sess := Some p |}
                  | (Returns (Some e), w2) =>
                      Continue {| cs_mgr := cs_mgr st;
                                  cs_world := add_log w2 (LogUpdateChunkStatus e);
                                  cs_sess := Some p |}
                  | (Returns None, w2) =>
                      Continue {| cs_mgr := cs_mgr st; cs_world := w2; cs_sess := Some p |}
                  end
              end
            end
        end
      end
  end.

(** The [for] loop, over what the environment answers turn by turn; a
    connection with nothing more to deliver is at its end of stream. *)
Fixpoint handleConnection_loop (st : ConnState) (events : list Env) : Step :=
  match events with
  | [] => Break st
  | env :: rest =>
      match handle_frame st env with
      | Continue st' => handleConnection_loop st' rest
      | other => other
      end
  end.


End Receiver.

(** ** internal/chunker *)

Record ChunkerConfig := {
  MinChunkSize : Z;
  MaxChunkSize : Z;
  DefaultChunkSize : Z
}.

Definition normalize (c : ChunkerConfig) : ChunkerConfig :=
  let mn := if decide (MinChunkSize c = 0) then 5 * 1024 * 1024 else MinChunkSize c in
  let mx := if decide (MaxChunkSize c = 0) then 200 * 1024 * 1024 else MaxChunkSize c in
  let d := if decide (DefaultChunkSize c = 0) then 50 * 1024 * 1024
           else DefaultChunkSize c in
  let d := if decide (d < mn) then mn else d in
  let d := if decide (d > mx) then mx else d in
  {| MinChunkSize := mn; MaxChunkSize := mx; DefaultChunkSize := d |}.

(** [NewChunker]: the chunker is its normalized configuration. *)
Definition NewChunker (cfg : ChunkerConfig) : ChunkerConfig := normalize cfg.

Definition CalculateChunkHash (chunk : list byte) : list byte := sha256_Sum256 chunk.

(** What the file system answered to [ChunkFile]: [ReadFailsAt k] is an
    I/O error on the read of chunk [k]. *)
Inductive FileFault :=
| FileOk
| FileOpenFails
| FileStatFails
| ReadFailsAt (k : Z).

#[global] Instance FileFault_eq_dec : EqDecision FileFault.
Proof. solve_decision. Defined.

(** The error of [io.ReadFull]. *)
Inductive ReadErr :=
| ReadNil
| ReadEOF
| ReadUnexpectedEOF.

#[global] Instance ReadErr_eq_dec : EqDecision ReadErr.
Proof. solve_decision. Defined.

(** [io.ReadFull(reader, buf)] with [len(buf) = n] on what is left of the
    file: the bytes read, what is left after them, and the error. *)
Definition ReadFull (rest : list byte) (n : nat) : list byte * list byte * ReadErr :=
  let chunk := take n rest in
  (chunk, drop n rest,
   if decide (length chunk = n) then ReadNil
   else if decide (length chunk = 0%nat) then ReadEOF
   else ReadUnexpectedEOF).

(** The effective chunk size: the default for a request that is not positive,
    then the clamp to [[min, max]]. *)
Definition clamp_chunk_size (cfg : ChunkerConfig) (chunkSize : Z) : Z :=
  let cs := if decide (chunkSize <= 0) then DefaultChunkSize cfg else chunkSize in
  let cs := if decide (cs < MinChunkSize cfg) then MinChunkSize cfg else cs in
  if decide (cs > MaxChunkSize cfg) then MaxChunkSize cfg else cs.

(** The [for] loop of [ChunkFile]. [fuel] bounds the number of turns;
    [None] is a loop that has not ended within it. *)
Fixpoint ChunkFile_loop (fuel : nat) (fault : FileFault) (chunkSize : nat) (size : Z)
    (now : Time) (rest : list byte) (offset index : Z) (res : list ChunkMetadata)
  : option (result (list ChunkMetadata)) :=
  match fuel with
  | O => None
  | S fuel' =>
    if decide (fault = ReadFailsAt index) then Some (Err ErrRead)
    else
      let '(chunk, rest', readErr) := ReadFull rest chunkSize in
      let n := len chunk in
      if decide (readErr ≠ ReadNil ∧ n = 0) then Some (Ok res)
      else
        let meta :=
          {| cm_ID := Sprintf_d index; cm_Size := n; cm_Offset := offset;
             cm_SHA256 := hex_EncodeToString (CalculateChunkHash chunk);
             cm_IsParity := false; cm_Status := ChunkStatusPending;
             cm_UpdatedAt := now; cm_CreatedAt := now; cm_SessionID := "";
             cm_Priority := 0; cm_RetryCount := 0; cm_Error := "" |} in
        let res' := res ++ [meta] in
        let offset' := wrap64 (offset + n) in
        let index' := wrap64 (index + 1) in
        if decide (offset' >= size) then Some (Ok res')
        else if decide (readErr = ReadEOF) then Some (Ok res')
        else ChunkFile_loop fuel' fault chunkSize size now rest' offset' index' res'
  end.

(** [ChunkFile] on a file with content [data], run for at most [fuel] turns
    of its loop. [make([]byte, chunkSize)] panics on a negative size. *)
Definition ChunkFile_fuel (fuel : nat) (cfg : ChunkerConfig) (fault : FileFault)
    (data : list byte) (chunkSize : Z) (now : Time)
  : option (outcome (result (list ChunkMetadata))) :=
  let cs := clamp_chunk_size cfg chunkSize in
  match fault with
  | FileOpenFails => Some (Returns (Err ErrOpenFile))
  | FileStatFails => Some (Returns (Err ErrOpenFile))
  | _ =>
    if decide (cs < 0) then Some Panics
    else Returns <$> ChunkFile_loop fuel fault (Z.to_nat cs) (len data) now data 0 0 []
  end.

(** Each turn of the loop but the last reads at least one byte when the
    chunk size is positive, so one turn more than the file has bytes is
    enough. *)
Definition ChunkFile (cfg : ChunkerConfig) (fault : FileFault) (data : list byte)
    (chunkSize : Z) (now : Time) : option (outcome (result (list ChunkMetadata))) :=
  ChunkFile_fuel (S (length data)) cfg fault data chunkSize now.



(** ** hash/crc32 and pkg/protocol

    [crc32.ChecksumIEEE] is the reflected CRC-32 with polynomial
    [0xEDB88320], initial value and final complement [0xFFFFFFFF]. *)

Definition crc_step (c : Z) : Z :=
  if Z.testbit c 0 then Z.lxor (Z.shiftr c 1) 0xEDB88320 else Z.shiftr c 1.

Definition crc_byte (c : Z) (b : byte) : Z :=
  Nat.iter 8 crc_step (Z.lxor c (byte_to_Z b)).

Definition crc_update (c : Z) (data : list byte) : Z := fold_left crc_byte data c.

Definition ChecksumIEEE (data : list byte) : Z :=
  Z.lxor (crc_update 0xFFFFFFFF data) 0xFFFFFFFF.

Record Packet := {
  Version : byte;
  Type_ : byte;
  SessionID : list byte;
  ChunkID : Z;
  Seq : Z;
  Priority : byte;
  Payload : list byte;
  Checksum : Z
}.

Definition PacketTypeData : byte := x01.
Definition PacketTypeAck : byte := x02.
Definition PacketTypeNack : byte := x03.
Definition PacketTypeControl : byte := x04.

Definition magic : list byte := [x54; x53; x46; x54].
Definition headerSize : Z := 4 + 1 + 1 + 16 + 8 + 4 + 1 + 3.
Definition maxPayload : Z := 64 * 1024.
Definition currentVer : byte := x01.
Definition checksumSize : Z := 4.

(** The values of the struct's types: a [[16]byte] session id, a [uint64]
    chunk id and a [uint32] sequence number. *)
Definition Packet_wf (p : Packet) : Prop :=
  length (SessionID p) = 16%nat
  ∧ 0 <= ChunkID p < 2 ^ 64
  ∧ 0 <= Seq p < 2 ^ 32.

Definition set_Checksum (p : Packet) (c : Z) : Packet :=
  {| Version := Version p; Type_ := Type_ p; SessionID := SessionID p;
     ChunkID := ChunkID p; Seq := Seq p; Priority := Priority p;
     Payload := Payload p; Checksum := c |}.

(** The header and the payload, as [SerializePacket] writes them to its
    buffer before the checksum. *)
Definition packet_body (p : Packet) : list byte :=
  magic ++ [Version p] ++ [Type_ p] ++ SessionID p ++ be_bytes 8 (ChunkID p)
  ++ be_bytes 4 (Seq p) ++ [Priority p] ++ [x00; x00; x00] ++ Payload p.

(** [SerializePacket]: the bytes, and the packet with the checksum that the
    call stores in it. *)
Definition SerializePacket (p : Packet) : result (list byte) * Packet :=
  if decide (len (Payload p) > maxPayload) then (Err ErrPayloadTooLarge, p)
  else
    let buf := packet_body p in
    let checksum := ChecksumIEEE buf in
    let p' := set_Checksum p checksum in
    (Ok (buf ++ be_bytes 4 (Checksum p')), p').

Definition CalculateChecksum (data : list byte) : Z :=
  if decide (len data <= checksumSize) then ChecksumIEEE data
  else ChecksumIEEE (take (length data - Z.to_nat checksumSize) data).

Definition VerifyChecksum (data : list byte) (checksum : Z) : bool :=
  bool_decide (CalculateChecksum data = checksum).

Definition DeserializePacket (data : list byte) : result Packet :=
  if decide (len data < headerSize + checksumSize) then Err ErrPacketTooSmall
  else if decide (take 4 data ≠ magic) then Err ErrInvalidMagic
  else
    let version := nth 4 data x00 in
    let t := nth 5 data x00 in
    let sessionID := take 16 (drop 6 data) in
    let chunkID := be_to_Z (take 8 (drop 22 data)) in
    let seq := be_to_Z (take 4 (drop 30 data)) in
    let priorityByte := nth 34 data x00 in
    let remaining := drop (Z.to_nat headerSize) data in
    if decide (len remaining < checksumSize) then Err ErrPacketMissingChecksum
    else
      let payload := take (length remaining - Z.to_nat checksumSize) remaining in
      let checksum :=
        be_to_Z (drop (length remaining - Z.to_nat checksumSize) remaining) in
      let p := {| Version := version; Type_ := t; SessionID := sessionID;
                  ChunkID := chunkID; Seq := seq; Priority := priorityByte;
                  Payload := payload; Checksum := checksum |} in
      if negb (VerifyChecksum data checksum) then Err ErrChecksumVerificationFailed
      else Ok p.

(** ** internal/erasure

    The Reed-Solomon codec comes from a library; the coder holds it as a
    pair of functions. [rs_Encode] is given the data and parity shards and
    returns them with the parity computed; [rs_Reconstruct] is given the
    shards with the missing ones nil ([None]) and returns them all. Both
    return [None] for an error. *)

Record Codec := {
  rs_Encode : list (list byte) → option (list (list byte));
  rs_Reconstruct : list (option (list byte)) → option (list (list byte))
}.

Record ErasureCoder := {
  DataShards : Z;
  ParityShards : Z;
  ShardSize : Z;
  codec : Codec
}.

Definition set_ShardSize (e : ErasureCoder) (n : Z) : ErasureCoder :=
  {| DataShards := DataShards e; ParityShards := ParityShards e;
     ShardSize := n; codec := codec e |}.

(** [NewErasureCoder]; [rs_New] is the library's constructor. *)
Definition NewErasureCoder (rs_New : Z → Z → option Codec) (dataShards parityShards : Z)
  : result ErasureCoder :=
  if decide (dataShards <= 0 ∨ parityShards <= 0) then Err ErrCoderNotInitialized
  else match rs_New dataShards parityShards with
  | None => Err ErrCodec
  | Some c =>
      Ok {| DataShards := dataShards; ParityShards := parityShards;
            ShardSize := 0; codec := c |}
  end.

(** [CalculateShardSize]: the size, and the coder with the size stored. *)
Definition CalculateShardSize (e : ErasureCoder) (dataSize : Z) : Z * ErasureCoder :=
  if decide (dataSize <= 0) then (0, e)
  else
    let shards := DataShards e in
    let size := Z.quot (wrap64 (dataSize + shards - 1)) shards in
    (size, set_ShardSize e size).

(** [make([]byte, n)] and [copy(dst, src)]. *)
Definition make_bytes (n : Z) : list byte := replicate (Z.to_nat n) x00.

Definition copy_bytes (dst src : list byte) : list byte :=
  take (length dst) src ++ drop (length src) dst.

(** The body of the loop over the data shards, for shard [i]. *)
Definition data_shard (data : list byte) (shardSize i : Z) : list byte :=
  let start := wrap64 (i * shardSize) in
  let end_ := wrap64 (start + shardSize) in
  if decide (start >= len data) then make_bytes shardSize
  else
    let end_ := if decide (end_ > len data) then len data else end_ in
    copy_bytes (make_bytes shardSize)
      (take (Z.to_nat end_ - Z.to_nat start) (drop (Z.to_nat start) data)).

(** [Encode]: the shards, and the coder with the shard size it may have
    stored. The slice expressions and [make] panic on negative sizes. *)
Definition Encode (e : ErasureCoder) (data : list byte)
  : outcome (result (list (list byte))) * ErasureCoder :=
  if decide (DataShards e = 0) then (Returns (Err ErrCoderNotInitialized), e)
  else
    let '(shardSize, e') :=
      if decide (ShardSize e = 0) then CalculateShardSize e (len data)
      else (ShardSize e, e) in
    let totalShards := wrap64 (DataShards e + ParityShards e) in
    if decide (totalShards < 0 ∨ shardSize < 0 ∨ DataShards e < 0 ∨ ParityShards e < 0)
    then (Panics, e')
    else
      let dataPart :=
        (λ i : nat, data_shard data shardSize (Z.of_nat i))
          <$> seq 0 (Z.to_nat (DataShards e)) in
      let parityPart := replicate (Z.to_nat (ParityShards e)) (make_bytes shardSize) in
      match rs_Encode (codec e) (dataPart ++ parityPart) with
      | None => (Returns (Err ErrCodec), e')
      | Some shards => (Returns (Ok shards), e')
      end.

(** [Decode]: the concatenation of the first [DataShards] shards after
    reconstruction. *)
Definition Decode (e : ErasureCoder) (shards : list (option (list byte)))
  : result (list byte) :=
  if decide (len shards ≠ wrap64 (DataShards e + ParityShards e))
  then Err (ErrShardCount (wrap64 (DataShards e + ParityShards e)) (len shards))
  else match rs_Reconstruct (codec e) shards with
  | None => Err ErrCodec
  | Some full => Ok (concat (take (Z.to_nat (DataShards e)) full))
  end.

(** The loop of [ValidateShards]: the common length seen so far (0 for
    none), the number of shards present, and the index of a shard of
    another length, if any. *)
Fixpoint validate_loop (i : Z) (shards : list (option (list byte)))
    (shardLen present : Z) : Z + Z * Z :=
  match shards with
  | [] => inr (shardLen, present)
  | None :: rest => validate_loop (i + 1) rest shardLen present
  | Some sh :: rest =>
      if decide (shardLen = 0) then validate_loop (i + 1) rest (len sh) (present + 1)
      else if decide (len sh ≠ shardLen) then inl i
      else validate_loop (i + 1) rest shardLen (present + 1)
  end.

Definition ValidateShards (e : ErasureCoder) (shards : list (option (list byte)))
  : option error :=
  if decide (len shards ≠ wrap64 (DataShards e + ParityShards e))
  then Some (ErrShardCount (wrap64 (DataShards e + ParityShards e)) (len shards))
  else match validate_loop 0 shards 0 0 with
  | inl i => Some (ErrShardInconsistentLength i)
  | inr (_, present) =>
      if decide (present < DataShards e)
      then Some (ErrNotEnoughShards present (DataShards e))
      else None
  end.

(** What the library promises of a codec made for [D] data and [P] parity
    shards: given [D + P] shards of one positive size, [rs_Encode] keeps
    the data shards and computes [P] parity shards of that size, and from
    any version of its result with at most [P] shards nil,
    [rs_Reconstruct] gives the result back. *)
Definition codec_ok (D P : nat) (c : Codec) : Prop :=
  ∀ (dshards pshards : list (list byte)) (sz : nat),
    length dshards = D → length pshards = P → (0 < sz)%nat →
    Forall (λ s, length s = sz) (dshards ++ pshards) →
    ∃ parity,
      rs_Encode c (dshards ++ pshards) = Some (dshards ++ parity)
      ∧ length parity = P
      ∧ Forall (λ s, length s = sz) parity
      ∧ ∀ erased : list (option (list byte)),
          length erased = (D + P)%nat →
          (∀ i s, erased !! i = Some (Some s) → (dshards ++ parity) !! i = Some s) →
          (length (filter (λ s, s = None) erased) ≤ P)%nat →
          rs_Reconstruct c erased = Some (dshards ++ parity).

(** The Reed-Solomon code with one data shard, which is the repetition
    code: every parity shard is a copy of the data shard. *)
Definition repetition_Encode (shards : list (list byte)) : option (list (list byte)) :=
  match shards with
  | [] => None
  | d :: rest =>
      if decide (d = [] ∨ ¬ Forall (λ s, length s = length d) rest) then None
      else Some (d :: ((λ _, d) <$> rest))
  end.

Definition repetition_Reconstruct (shards : list (option (list byte)))
  : option (list (list byte)) :=
  match omap id shards with
  | [] => None
  | d :: _ => Some ((λ _, d) <$> shards)
  end.

Definition repetition_codec : Codec :=
  {| rs_Encode := repetition_Encode; rs_Reconstruct := repetition_Reconstruct |}.

(** [ceil(n / d)] for positive [n] and [d]. *)
Definition ceil_div (n d : Z) : Z := (n + d - 1) / d.

(** ** internal/crypto: compression

    [CompressChunk] and [DecompressChunk] wrap the Zstandard library's
    [EncodeAll] and [DecodeAll]; the library is a parameter. Creating the
    encoder or the decoder without options does not fail. *)

Section Compression.

Variable zstd_EncodeAll : list byte → list byte.
Variable zstd_DecodeAll : list byte → option (list byte).

Definition CompressChunk (data : list byte) : result (list byte) :=
  Ok (zstd_EncodeAll data).

Definition DecompressChunk (data : list byte) : result (list byte) :=
  match zstd_DecodeAll data with
  | Some out => Ok out
  | None => Err ErrZstdDecode
  end.

End Compression.

(** What the library promises: decoding an encoded buffer gives it back. *)
Definition zstd_round_trip (enc : list byte → list byte)
    (dec : list byte → option (list byte)) : Prop :=
  ∀ data, dec (enc data) = Some data.

(** A decoder for a part of the Zstandard frame format (RFC 8878): one
    frame with the single-segment header [0x20] (a one-byte content size,
    no dictionary id, no checksum) whose blocks are raw or RLE blocks.
    Every other input is refused, so this decoder accepts less than the
    library's; what it accepts, a decoder of the format decodes to the same
    bytes. *)
Definition le_to_Z (bs : list byte) : Z :=
  fold_right (λ b acc, byte_to_Z b + 256 * acc) 0 bs.

Definition zstd_magic : list byte := [x28; xb5; x2f; xfd].

(** The blocks of a frame: a three-byte little-endian header (last-block
    bit, two bits of type, 21 bits of size), then the content. The result
    is the regenerated bytes and the input left after the last block. *)
Fixpoint zstd_blocks (fuel : nat) (input out : list byte)
  : option (list byte * list byte) :=
  match fuel with
  | O => None
  | S fuel' =>
    match input with
    | h0 :: h1 :: h2 :: rest =>
      let header := le_to_Z [h0; h1; h2] in
      let last := Z.testbit header 0 in
      let block_type := (header / 2) mod 4 in
      let block_size := Z.to_nat (header / 8) in
      if decide (block_type = 0) then
        if decide (length rest < block_size)%nat then None
        else
          let out' := out ++ take block_size rest in
          if last then Some (out', drop block_size rest)
          else zstd_blocks fuel' (drop block_size rest) out'
      else if decide (block_type = 1) then
        match rest with
        | b :: rest' =>
            let out' := out ++ replicate block_size b in
            if last then Some (out', rest') else zstd_blocks fuel' rest' out'
        | [] => None
        end
      else None
    | _ => None
    end
  end.

Definition zstd_DecodeAll_stored (input : list byte) : option (list byte) :=
  match input with
  | m0 :: m1 :: m2 :: m3 :: descriptor :: content_size :: blocks =>
    if decide ([m0; m1; m2; m3] = zstd_magic ∧ descriptor = x20) then
      match zstd_blocks (length blocks) blocks [] with
      | Some (out, []) =>
          if decide (len out = byte_to_Z content_size) then Some out else None
      | _ => None
      end
    else None
  | _ => None
  end.

(** Two frames for the one-byte content [a]: one with a raw block, one with
    an RLE block. *)
Definition zstd_frame_raw : list byte :=
  [x28; xb5; x2f; xfd; x20; x01; x09; x00; x00; x61].

Definition zstd_frame_rle : list byte :=
  [x28; xb5; x2f; xfd; x20; x01; x0b; x00; x00; x61].

(** ** Predicates of the statements and example states *)

(** Every session document of [d'] was already in [d] or passes [Validate]. *)
Definition writes_only_valid (d d' : gmap string DirEntry) : Prop :=
  ∀ name s, d' !! name = Some (EFile (SessionJSON s)) →
    d !! name = Some (EFile (SessionJSON s)) ∨ TransferSession_Validate s = None.

(** A store with one session, as [CreateSession] makes it on an empty
    directory, used by the examples below. *)
Definition example_file : FileMetadata :=
  {| fm_Name := "test.bin"; fm_Size := 1024; fm_Hash := "abc"; fm_MimeType := "" |}.

Definition example_manager : SessionManager :=
  (CreateSession {| sessions := ∅; baseDir := "sessions" |} empty_World
     example_file "6f1c2a1e-0000-4000-8000-000000000001" 100 NoFault).1.2.

Definition example_world : World :=
  (CreateSession {| sessions := ∅; baseDir := "sessions" |} empty_World
     example_file "6f1c2a1e-0000-4000-8000-000000000001" 100 NoFault).2.

Definition example_id : string := "6f1c2a1e-0000-4000-8000-000000000001".

(** A connection state with the example session, and two frames carrying
    the payload [hello]: one that declares a wrong hash and one that
    declares the right one. *)
Definition example_conn : ConnState :=
  {| cs_mgr := example_manager; cs_world := example_world; cs_sess := Some 0%nat |}.

Definition example_payload : list byte := list_byte_of_string "hello".

Definition example_chunk (sha : string) : ChunkMetadata :=
  {| cm_ID := "0"; cm_Size := 5; cm_Offset := 0; cm_SHA256 := sha;
     cm_IsParity := false; cm_Status := ChunkStatusPending; cm_UpdatedAt := 90;
     cm_CreatedAt := 90; cm_SessionID := ""; cm_Priority := 0;
     cm_RetryCount := 0; cm_Error := "" |}.

Definition example_env (sha : string) : Env :=
  {| env_recv := RecvFrame example_payload (example_chunk sha);
     env_uuid := ""; env_now := 101; env_save := NoFault; env_store := WriteOk |}.



Definition in_u32 (c : Z) : Prop := 0 <= c < 2 ^ 32.

(** One step of the register can be undone: the top bit of the result
    tells whether the polynomial was added. *)
Definition crc_unstep (y : Z) : Z :=
  if Z.testbit y 31 then 2 * Z.lxor y 0xEDB88320 + 1 else 2 * y.

(** * More of the code: definitions

    The rest of [internal/session], [internal/chunker], [pkg/protocol] and
    [internal/erasure] needs no new definition; what follows embeds the
    retry manager and the datagram sender of [internal/transport], the
    framing of the stream sender and receiver, and the sender's loop of
    [cmd/sender]. *)

From Stdlib Require Import Numbers.DecimalZ Numbers.DecimalPos.

(** ** internal/chunker: the descriptors in closed form

    The descriptor of chunk [i] of a file [data] cut into chunks of [cs]
    bytes at time [now]; the theorems on [ChunkFile] compare what the loop
    returns with it. *)
Definition chunk_descriptor (data : list byte) (cs : Z) (now : Time) (i : nat)
  : ChunkMetadata :=
  {| cm_ID := Sprintf_d (Z.of_nat i);
     cm_Size := Z.min cs (len data - Z.of_nat i * cs);
     cm_Offset := Z.of_nat i * cs;
     cm_SHA256 :=
       hex_EncodeToString
         (sha256_Sum256 (take (Z.to_nat cs) (drop (i * Z.to_nat cs) data)));
     cm_IsParity := false; cm_Status := ChunkStatusPending;
     cm_UpdatedAt := now; cm_CreatedAt := now; cm_SessionID := "";
     cm_Priority := 0; cm_RetryCount := 0; cm_Error := "" |}.

(** What the loop of [ChunkFile] returns for a file of [count] chunks when
    the file system fails as [fault] says: the read error when one of the
    reads the loop makes fails, the descriptors otherwise. The loop reads
    once per chunk, and once on an empty file. *)
Definition ChunkFile_result (fault : FileFault) (from count : Z)
    (chunks : list ChunkMetadata) : result (list ChunkMetadata) :=
  match fault with
  | ReadFailsAt k =>
      if decide (from <= k < Z.max 1 count) then Err ErrRead else Ok chunks
  | _ => Ok chunks
  end.

(** ** internal/transport: the datagram sender and receiver *)

Record TransferStats := {
  st_Sent : Z;
  st_Acked : Z;
  st_Retransmits : Z;
  st_LastRTT : Z
}.

(** The sender's counters; its configuration and its socket play no part
    in what follows, and what the socket answers is an argument. *)
Record UDPSender := {
  us_seq : Z;
  us_stats : TransferStats
}.

Definition nextSeq (s : UDPSender) : Z * UDPSender :=
  let seq' := w32 (us_seq s + 1) in
  (seq', {| us_seq := seq'; us_stats := us_stats s |}).

Inductive SendError :=
| SendSerializeError (e : error)
| SendWriteError.

Definition add_Sent (st : TransferStats) (n : Z) : TransferStats :=
  {| st_Sent := w64 (st_Sent st + n); st_Acked := st_Acked st;
     st_Retransmits := st_Retransmits st; st_LastRTT := st_LastRTT st |}.

(** [SendChunk]. [write] is what [conn.Write] answers to a datagram: the
    number of bytes written, or [None] for an error. The result is the
    error, the sender, and the datagram given to [conn.Write], if the call
    got that far. *)
Definition SendChunk (write : list byte → option Z) (s : UDPSender)
    (sessionID : list byte) (chunkID : Z) (data : list byte) (priority : byte)
  : option SendError * UDPSender * option (list byte) :=
  let '(seq, s1) := nextSeq s in
  let p := {| Version := x01; Type_ := PacketTypeData; SessionID := sessionID;
              ChunkID := chunkID; Seq := seq; Priority := priority;
              Payload := data; Checksum := 0 |} in
  match (SerializePacket p).1 with
  | Err e => (Some (SendSerializeError e), s1, None)
  | Ok raw =>
      match write raw with
      | None => (Some SendWriteError, s1, Some raw)
      | Some n =>
          (None, {| us_seq := us_seq s1; us_stats := add_Sent (us_stats s1) n |},
           Some raw)
      end
  end.

Definition GetStats (s : UDPSender) : TransferStats := us_stats s.

(** [ChunkPriority]. *)
Definition ChunkPriority (meta : ChunkMetadata) : byte :=
  if cm_IsParity meta then x04
  else if decide (cm_Offset meta = 0) then x02
  else x03.

(** A run of [SendChunk] calls, each with its arguments. *)
Definition SendCall : Type := list byte * Z * list byte * byte.

Definition SendChunk_run (write : list byte → option Z) (s : UDPSender)
    (calls : list SendCall) : UDPSender :=
  fold_left (λ s c, (SendChunk write s c.1.1.1 c.1.1.2 c.1.2 c.2).1.2) calls s.

(** The loop of [UDPReceiver.Start]. What [ReadFromUDP] answers turn by
    turn: a datagram, of which the buffer of [64 * 1024 + 256] bytes takes
    no more than its size, or an error, with the receiver closed or not.
    The result is the packets handed to the handler, in order, and the
    log; a receiver with no more events waits. *)
Inductive UdpEvent :=
| UdpDatagram (d : list byte)
| UdpReadError (closed : bool).

Inductive UdpLog :=
| LogUdpReceiveError
| LogUdpDecodeError (e : error).

Definition udp_buffer_size : Z := 64 * 1024 + 256.

Fixpoint UDPReceiver_loop (handler : bool) (events : list UdpEvent)
    (handled : list Packet) (log : list UdpLog) : list Packet * list UdpLog :=
  match events with
  | [] => (handled, log)
  | UdpReadError true :: _ => (handled, log)
  | UdpReadError false :: rest =>
      UDPReceiver_loop handler rest handled (log ++ [LogUdpReceiveError])
  | UdpDatagram d :: rest =>
      let raw := take (Z.to_nat udp_buffer_size) d in
      match DeserializePacket raw with
      | Err e => UDPReceiver_loop handler rest handled (log ++ [LogUdpDecodeError e])
      | Ok p =>
          UDPReceiver_loop handler rest (if handler then handled ++ [p] else handled) log
      end
  end.

(** ** internal/transport: the retry manager

    [NextBackoff] computes in floating point with a random jitter and is
    not embedded; the two floating-point fields of the manager are left
    out. The maps are [None] when nil, as in a manager that was not made by
    [NewRetryManager]. *)

Inductive CircuitState :=
| CircuitClosed
| CircuitOpen
| CircuitHalfOpen.

#[global] Instance CircuitState_eq_dec : EqDecision CircuitState.
Proof. solve_decision. Defined.

Record RetryManager := {
  rm_MaxRetries : Z;
  rm_BaseBackoff : Z;
  rm_MaxBackoff : Z;
  rm_failures : option (gmap string Z);
  rm_state : option (gmap string CircuitState)
}.

Definition NewRetryManager : RetryManager :=
  {| rm_MaxRetries := 5;
     rm_BaseBackoff := 100 * 1000000;
     rm_MaxBackoff := 30 * 1000000000;
     rm_failures := Some ∅;
     rm_state := Some ∅ |}.

Definition ShouldRetry (r : RetryManager) (attempt : Z) : bool :=
  if decide (attempt >= rm_MaxRetries r) then false else true.

(** [RecordSuccess]: [delete] does nothing on a nil map, the assignment to
    an entry of a nil map panics. *)
Definition RecordSuccess (r : RetryManager) (id : string) : outcome RetryManager :=
  match rm_state r with
  | None => Panics
  | Some st =>
      Returns {| rm_MaxRetries := rm_MaxRetries r; rm_BaseBackoff := rm_BaseBackoff r;
                 rm_MaxBackoff := rm_MaxBackoff r;
                 rm_failures := delete id <$> rm_failures r;
                 rm_state := Some (<[id := CircuitClosed]> st) |}
  end.

Definition RecordFailure (r : RetryManager) (id : string) : outcome RetryManager :=
  match rm_failures r with
  | None => Panics
  | Some fs =>
      let n := wrap64 (default 0 (fs !! id) + 1) in
      let fs' := <[id := n]> fs in
      if decide (n > rm_MaxRetries r) then
        match rm_state r with
        | None => Panics
        | Some st =>
            Returns {| rm_MaxRetries := rm_MaxRetries r;
                       rm_BaseBackoff := rm_BaseBackoff r;
                       rm_MaxBackoff := rm_MaxBackoff r;
                       rm_failures := Some fs';
                       rm_state := Some (<[id := CircuitOpen]> st) |}
        end
      else
        Returns {| rm_MaxRetries := rm_MaxRetries r; rm_BaseBackoff := rm_BaseBackoff r;
                   rm_MaxBackoff := rm_MaxBackoff r;
                   rm_failures := Some fs'; rm_state := rm_state r |}
  end.

Definition GetCircuitState (r : RetryManager) (id : string) : CircuitState :=
  match rm_state r with
  | Some st => default CircuitClosed (st !! id)
  | None => CircuitClosed
  end.

(** [k] calls of [RecordFailure] in a row for one identifier. *)
Fixpoint RecordFailure_times (k : nat) (r : RetryManager) (id : string)
  : outcome RetryManager :=
  match k with
  | O => Returns r
  | S k' =>
      match RecordFailure r id with
      | Panics => Panics
      | Returns r' => RecordFailure_times k' r' id
      end
  end.

(** ** internal/transport: the frames of the stream sender and receiver *)

Inductive FrameError :=
| ErrMarshalMetadata
| ErrSendFrame
| ErrReadMetaLength
| ErrReadMeta
| ErrUnmarshalMetadata
| ErrReadDataLength
| ErrReadData
| ErrDecompressChunk.

(** What [conn.Write] did with a frame: [ConnWriteFails n] is an error
    after [n] bytes. *)
Inductive ConnFault :=
| ConnOk
| ConnWriteFails (written : nat).

(** What [Receive] returns: [io.EOF], another error, or the decompressed
    payload and the metadata of a frame. *)
Inductive ReceiveResult :=
| ReceiveEOF
| ReceiveError (e : FrameError)
| ReceiveFrame (data : list byte) (meta : ChunkMetadata).

Section Framing.

(** [json.Marshal] and [json.Unmarshal] of a [ChunkMetadata], the
    decompressor, and the largest size [make] allocates: beyond it the
    call panics. *)
Variable Marshal_ChunkMetadata : ChunkMetadata → option (list byte).
Variable Unmarshal_ChunkMetadata : list byte → option ChunkMetadata.
Variable zstd_DecodeAll : list byte → option (list byte).
Variable maxAlloc : Z.

(** [TCPSender.Send]: the error, and the bytes that reached the
    connection. The two lengths are converted to [uint32] and [uint64]. *)
Definition Send (fault : ConnFault) (chunk : list byte) (metadata : ChunkMetadata)
  : option FrameError * list byte :=
  match Marshal_ChunkMetadata metadata with
  | None => (Some ErrMarshalMetadata, [])
  | Some metaBytes =>
      let buf := be_bytes 4 (w32 (len metaBytes)) ++ metaBytes
                 ++ be_bytes 8 (w64 (len chunk)) ++ chunk in
      match fault with
      | ConnOk => (None, buf)
      | ConnWriteFails n => (Some ErrSendFrame, take n buf)
      end
  end.

(** [TCPReceiver.Receive] on a connection that delivers [stream] and is
    then closed by the peer: the result and what is left of the stream. *)
Definition Receive (stream : list byte) : outcome (ReceiveResult * list byte) :=
  let '(lenBytes, s1, err1) := ReadFull stream 4 in
  match err1 with
  | ReadEOF => Returns (ReceiveEOF, s1)
  | ReadUnexpectedEOF => Returns (ReceiveError ErrReadMetaLength, s1)
  | ReadNil =>
    let metaLen := be_to_Z lenBytes in
    if decide (metaLen > maxAlloc) then Panics
    else
      let '(metaBytes, s2, err2) := ReadFull s1 (Z.to_nat metaLen) in
      if decide (err2 ≠ ReadNil) then Returns (ReceiveError ErrReadMeta, s2)
      else
        match Unmarshal_ChunkMetadata metaBytes with
        | None => Returns (ReceiveError ErrUnmarshalMetadata, s2)
        | Some meta =>
          let '(dataLenBytes, s3, err3) := ReadFull s2 8 in
          if decide (err3 ≠ ReadNil) then Returns (ReceiveError ErrReadDataLength, s3)
          else
            let dataLen := be_to_Z dataLenBytes in
            if decide (dataLen > maxAlloc) then Panics
            else
              let '(data, s4, err4) := ReadFull s3 (Z.to_nat dataLen) in
              if decide (err4 ≠ ReadNil) then Returns (ReceiveError ErrReadData, s4)
              else
                match DecompressChunk zstd_DecodeAll data with
                | Err _ => Returns (ReceiveError ErrDecompressChunk, s4)
                | Ok decompressed => Returns (ReceiveFrame decompressed meta, s4)
                end
        end
  end.

End Framing.

(** What [handleConnection] sees of a result of [Receive]: the errors of
    [Receive] are wrapped, so none of them is a [net.Error]. *)
Definition to_RecvResult (r : ReceiveResult) : RecvResult :=
  match r with
  | ReceiveEOF => RecvEOF
  | ReceiveError _ => RecvError
  | ReceiveFrame data meta => RecvFrame data meta
  end.

(** ** cmd/sender: the frames of [runTCPSender] *)





(** ** Predicates of the statements on the receiver *)

(** The payload and the descriptor of the frame an event delivers. *)
Definition frame_data (env : Env) : list byte :=
  match env_recv env with
  | RecvFrame data _ => data
  | _ => []
  end.

Definition frame_meta (env : Env) : ChunkMetadata :=
  match env_recv env with
  | RecvFrame _ meta => meta
  | _ => zero_ChunkMetadata
  end.

(** An event that delivers a data frame whose declared hash is the hash
    of its payload, and whose scratch file can be written. *)
Definition data_frame (env : Env) : Prop :=
  env_recv env = RecvFrame (frame_data env) (frame_meta env)
  ∧ cm_ID (frame_meta env) ≠ "__filemeta__"
  ∧ declared_hash (cm_SHA256 (frame_meta env)) = Some (HashChunk (frame_data env))
  ∧ env_store env = WriteOk.

(** The entry of the session's chunk map that a data frame leaves. *)
Definition frame_entry (sid : string) (env : Env) : ChunkMetadata :=
  chunk_set_Status (chunk_set_SessionID (frame_meta env) sid)
    ChunkStatusCompleted (env_now env).


(** * Theorems *)

(** ** Strings and machine integers *)

Lemma list_ascii_of_string_app (a b : string) :
  list_ascii_of_string (a +:+ b) = list_ascii_of_string a ++ list_ascii_of_string b.
Proof. induction a as [|c a IH]; simpl; [done | by rewrite IH]. Qed.

Lemma wrap64_idem (z : Z) : wrap64 (wrap64 z) = wrap64 z.
Proof.
  unfold wrap64.
  replace ((z + 2 ^ 63) mod 2 ^ 64 - 2 ^ 63 + 2 ^ 63) with ((z + 2 ^ 63) mod 2 ^ 64) by lia.
  by rewrite Z.mod_mod.
Qed.

Lemma wrap64_add_l (a b : Z) : wrap64 (wrap64 a + b) = wrap64 (a + b).
Proof.
  unfold wrap64. f_equal.
  replace ((a + 2 ^ 63) mod 2 ^ 64 - 2 ^ 63 + b + 2 ^ 63)
    with ((a + 2 ^ 63) mod 2 ^ 64 + b) by lia.
  rewrite Zplus_mod_idemp_l. f_equal. lia.
Qed.

Lemma wrap64_small (z : Z) : - 2 ^ 63 <= z < 2 ^ 63 → wrap64 z = z.
Proof. intros H. unfold wrap64. rewrite Z.mod_small; lia. Qed.

#[local] Arguments session_path : simpl never.

(** The file of a session and a temporary file never have the same name. *)
Lemma session_path_not_tmp (a b : string) : session_path a ≠ session_path b +:+ ".tmp".
Proof.
  unfold session_path. intros E.
  apply (f_equal (λ s, rev (list_ascii_of_string s))) in E.
  rewrite !list_ascii_of_string_app, !rev_app_distr in E. simpl in E.
  discriminate.
Qed.

(** ** The session store: what [saveLocked] writes *)

Lemma saveLocked_invalid fault s d e :
  TransferSession_Validate s = Some e → saveLocked fault s d = (Some e, d).
Proof. intros H. unfold saveLocked. by rewrite H. Qed.

Lemma saveLocked_writes_only_valid fault s d :
  writes_only_valid d (saveLocked fault s d).2.
Proof.
  unfold saveLocked, writes_only_valid. intros name s0.
  destruct (TransferSession_Validate s) as [e|] eqn:V; simpl; [by left |].
  destruct fault as [| | |flushed|]; simpl; intros L; try (by left);
    rewrite ?lookup_insert, ?lookup_delete in L;
    repeat case_decide; simplify_eq; try (by left); try (by right).
  destruct flushed; simplify_eq. by right.
Qed.

(** A failed save leaves every session file as it was: only the temporary
    file is touched before the rename. *)
Lemma saveLocked_error_keeps_files fault s d e d' id :
  saveLocked fault s d = (Some e, d') →
  d' !! session_path id = d !! session_path id.
Proof.
  unfold saveLocked.
  destruct (TransferSession_Validate s); [by intros [= _ <-] |].
  destruct fault; intros [= _ <-]; try done;
    by rewrite lookup_insert_ne by (apply not_eq_sym, session_path_not_tmp).
Qed.

Lemma saveLocked_ok_inv fault s d d' :
  saveLocked fault s d = (None, d') →
  TransferSession_Validate s = None ∧ fault = NoFault ∧
  d' = <[session_path (ts_ID s) := EFile (SessionJSON s)]>
         (delete (session_path (ts_ID s) +:+ ".tmp") d).
Proof.
  unfold saveLocked.
  destruct (TransferSession_Validate s); [done |].
  destruct fault; intros [= <-]; done.
Qed.


Lemma CreateSession_writes_only_valid m w f id now fault :
  writes_only_valid (w_sessions_dir w)
    (w_sessions_dir (CreateSession m w f id now fault).2).
Proof.
  unfold CreateSession.
  destruct (FileMetadata_Validate f); [by left |].
  destruct (TransferSession_Validate _); [by left |].
  unfold SaveSession.
  match goal with |- context [saveLocked ?a ?b ?c] =>
    pose proof (saveLocked_writes_only_valid a b c) as H;
    destruct (saveLocked a b c) as [[e|] d'] end; exact H.
Qed.

Lemma UpdateChunkStatus_writes_only_valid m w sid cid st now fault :
  writes_only_valid (w_sessions_dir w)
    (w_sessions_dir (UpdateChunkStatus m w sid cid st now fault).2).
Proof.
  unfold UpdateChunkStatus.
  destruct (sessions m !! sid) as [p|]; [| by left].
  destruct (w_heap w !! p) as [s|]; [| by left].
  destruct (update_in_memory s cid st now) as [s'|]; [| by left].
  match goal with |- context [saveLocked ?a ?b ?c] =>
    pose proof (saveLocked_writes_only_valid a b c) as H;
    destruct (saveLocked a b c) as [e d'] end; exact H.
Qed.

(** C10. The session store never persists an invalid session: [saveLocked]
    runs [Validate] before it touches the directory, returns the validation
    error and leaves the directory as it was when validation fails; whatever
    the file system does, every session document that [saveLocked],
    [SaveSession], [CreateSession] or [UpdateChunkStatus] leaves in the
    directory was there before or is the encoding of a session that passes
    [Validate]. *)
Theorem store_never_persists_invalid_session :
  (∀ fault s d e,
     TransferSession_Validate s = Some e → saveLocked fault s d = (Some e, d))
  ∧ (∀ fault s d, writes_only_valid d (saveLocked fault s d).2)
  ∧ (∀ fault s d, writes_only_valid d (SaveSession fault s d).2)
  ∧ (∀ m w f id now fault,
       writes_only_valid (w_sessions_dir w)
         (w_sessions_dir (CreateSession m w f id now fault).2))
  ∧ (∀ m w sid cid st now fault,
       writes_only_valid (w_sessions_dir w)
         (w_sessions_dir (UpdateChunkStatus m w sid cid st now fault).2)).
Proof.
  split; [intros; by apply saveLocked_invalid |].
  split; [intros; apply saveLocked_writes_only_valid |].
  split; [intros; apply saveLocked_writes_only_valid |].
  split; [intros; apply CreateSession_writes_only_valid |].
  intros; apply UpdateChunkStatus_writes_only_valid.
Qed.

(** What passing [Validate] means, field by field. *)
Lemma TransferSession_Validate_None s :
  TransferSession_Validate s = None ↔
  ts_ID s ≠ "" ∧ FileMetadata_Validate (ts_File s) = None
  ∧ valid_session_status (ts_Status s) = true
  ∧ 0 <= ts_TotalChunks s ∧ 0 <= ts_Completed s ∧ 0 <= ts_Failed s.
Proof.
  unfold TransferSession_Validate.
  destruct (decide (ts_ID s = "")) as [E|E]; [split; [done | tauto] |].
  destruct (FileMetadata_Validate (ts_File s));
    [split; [done | intros (_ & ? & _); done] |].
  destruct (valid_session_status (ts_Status s)); simpl;
    [| split; [done | intros (_ & _ & ? & _); done]].
  destruct (decide (ts_TotalChunks s < 0)); [split; [done | lia] |].
  destruct (decide (ts_Completed s < 0 ∨ ts_Failed s < 0)); [split; [done | lia] |].
  split; [intros _; repeat split; try done; lia | done].
Qed.

(** ** The session store: [UpdateChunkStatus] *)

(** The fields of the session that [UpdateChunkStatus] leaves in memory. *)
Lemma update_in_memory_spec s cid st now s' :
  update_in_memory s cid st now = Some s' →
  ∃ chunks c,
    ts_Chunks s = Some chunks
    ∧ ts_Chunks s' = Some (<[cid := c]> chunks)
    ∧ cm_Status c = st ∧ cm_UpdatedAt c = now
    ∧ ts_UpdatedAt s' = now
    ∧ ts_ID s' = ts_ID s ∧ ts_File s' = ts_File s ∧ ts_Status s' = ts_Status s
    ∧ ts_TotalChunks s' = ts_TotalChunks s
    ∧ ts_Completed s' =
        (if decide (st = ChunkStatusCompleted) then wrap64 (ts_Completed s + 1)
         else ts_Completed s)
    ∧ ts_Failed s' =
        (if decide (st = ChunkStatusFailed) then wrap64 (ts_Failed s + 1)
         else ts_Failed s).
Proof.
  unfold update_in_memory. destruct (ts_Chunks s) as [chunks|]; [| done].
  intros [= <-]. eexists chunks, _. simpl.
  repeat split; try reflexivity.
  repeat case_decide; try done. by subst.
Qed.



(** C4, as stated, fails: with the temporary file impossible to open, the
    call returns the error, and the session in memory has nevertheless been
    updated (its completed counter went from 0 to 1). *)
Lemma UpdateChunkStatus_not_atomic_in_memory :
  (UpdateChunkStatus example_manager example_world example_id "0"
     ChunkStatusCompleted 101 OpenFails).1 = Returns (Some ErrOpenTempSessionFile)
  ∧ ts_Completed <$> (w_heap example_world !! 0%nat) = Some 0
  ∧ ts_Completed <$>
      (w_heap (UpdateChunkStatus example_manager example_world example_id "0"
                 ChunkStatusCompleted 101 OpenFails).2 !! 0%nat) = Some 1
  ∧ w_heap (UpdateChunkStatus example_manager example_world example_id "0"
              ChunkStatusCompleted 101 OpenFails).2 ≠ w_heap example_world.
Proof.
  split; [vm_compute; reflexivity |].
  split; [vm_compute; reflexivity |].
  split; [vm_compute; reflexivity |].
  intros E.
  apply (f_equal (λ h, ts_Completed <$> (h !! 0%nat))) in E.
  vm_compute in E. discriminate.
Qed.

(** C4, amended. When [UpdateChunkStatus] returns an error for a session it
    found (a failed validation or any failed file-system call of the save),
    the error is the caller's to see, every session file on disk is as it
    was before the call, and the session in memory has already been
    updated: the chunk has the new status, the counter of that status went
    up, and [updated_at] is refreshed. *)
Theorem UpdateChunkStatus_error_keeps_update m w sid cid st now fault p s e w' :
  sessions m !! sid = Some p →
  w_heap w !! p = Some s →
  UpdateChunkStatus m w sid cid st now fault = (Returns (Some e), w') →
  (∀ id, LoadSession (w_sessions_dir w') id = LoadSession (w_sessions_dir w) id)
  ∧ ∃ s' chunks c,
      w_heap w' = <[p := s']> (w_heap w)
      ∧ w_heap w' !! p = Some s'
      ∧ ts_Chunks s = Some chunks
      ∧ ts_Chunks s' = Some (<[cid := c]> chunks)
      ∧ cm_Status c = st ∧ cm_UpdatedAt c = now
      ∧ ts_UpdatedAt s' = now
      ∧ ts_Completed s' =
          (if decide (st = ChunkStatusCompleted) then wrap64 (ts_Completed s + 1)
           else ts_Completed s)
      ∧ ts_Failed s' =
          (if decide (st = ChunkStatusFailed) then wrap64 (ts_Failed s + 1)
           else ts_Failed s).
Proof.
  intros Hp Hs. unfold UpdateChunkStatus. rewrite Hp, Hs.
  destruct (update_in_memory s cid st now) as [s'|] eqn:Hu; [| done].
  destruct (saveLocked fault s' _) as [err d] eqn:Hsave.
  intros [= -> <-]. simpl in *. split.
  - intros id. unfold LoadSession.
    by rewrite (saveLocked_error_keeps_files _ _ _ _ _ id Hsave).
  - apply update_in_memory_spec in Hu
      as (chunks & c & Hc & Hc' & Hst & Hup & Hu' & _ & _ & _ & _ & Hcomp & Hfail).
    exists s', chunks, c. split; [done |]. split.
    { apply list_lookup_insert_eq. by eapply lookup_lt_Some. }
    done.
Qed.

Lemma UpdateChunkStatus_error_keeps_update_witness :
  ∃ s' chunks c,
    w_heap (UpdateChunkStatus example_manager example_world example_id "0"
              ChunkStatusCompleted 101 RenameFails).2 !! 0%nat = Some s'
    ∧ ts_Chunks s' = Some (<[ "0" := c ]> chunks)
    ∧ cm_Status c = ChunkStatusCompleted
    ∧ ts_Completed s' = 1.
Proof.
  destruct (UpdateChunkStatus_error_keeps_update example_manager example_world
              example_id "0" ChunkStatusCompleted 101 RenameFails 0%nat
              {| ts_ID := example_id; ts_File := example_file;
                 ts_Status := SessionStatusCreated; ts_Chunks := Some ∅;
                 ts_CreatedAt := 100; ts_UpdatedAt := 100; ts_CompletedAt := None;
                 ts_TotalChunks := 0; ts_Completed := 0; ts_Failed := 0;
                 ts_BytesSent := 0; ts_BytesReceived := 0 |}
              ErrAtomicRename
              (UpdateChunkStatus example_manager example_world example_id "0"
                 ChunkStatusCompleted 101 RenameFails).2)
    as (_ & s' & chunks & c & _ & Hh & Hc & Hc' & Hst & _ & _ & Hcomp & _).
  - vm_compute; reflexivity.
  - vm_compute; reflexivity.
  - vm_compute; reflexivity.
  - exists s', chunks, c. split; [exact Hh |]. split; [exact Hc' |].
    split; [exact Hst |]. rewrite Hcomp. vm_compute. reflexivity.
Defined.

(** ** The session store: the counters *)

Lemma UpdateChunkStatus_heap m w sid cid st now fault p s s1 :
  sessions m !! sid = Some p →
  w_heap w !! p = Some s →
  update_in_memory s cid st now = Some s1 →
  w_heap (UpdateChunkStatus m w sid cid st now fault).2 = <[p := s1]> (w_heap w).
Proof.
  intros Hp Hs Hu. unfold UpdateChunkStatus. rewrite Hp, Hs, Hu.
  by destruct (saveLocked fault s1 _).
Qed.

Lemma count_status_cons st (c : UpdateCall) calls :
  count_status st (c :: calls)
  = (if decide (c.1.1.2 = st) then 1 else 0) + count_status st calls.
Proof.
  unfold count_status, len. rewrite filter_cons.
  destruct (decide (c.1.1.2 = st)); simpl; lia.
Qed.

Lemma count_status_nonneg st calls : 0 <= count_status st calls.
Proof. unfold count_status, len. lia. Qed.

Lemma run_updates_counters m sid p calls : ∀ w s,
  sessions m !! sid = Some p →
  w_heap w !! p = Some s →
  ts_Chunks s ≠ None →
  ∃ s',
    w_heap (run_updates m sid calls w) !! p = Some s'
    ∧ wrap64 (ts_Completed s')
      = wrap64 (ts_Completed s + count_status ChunkStatusCompleted calls)
    ∧ wrap64 (ts_Failed s')
      = wrap64 (ts_Failed s + count_status ChunkStatusFailed calls)
    ∧ (in_int64 (ts_Completed s) → in_int64 (ts_Completed s'))
    ∧ (in_int64 (ts_Failed s) → in_int64 (ts_Failed s'))
    ∧ ts_TotalChunks s' = ts_TotalChunks s
    ∧ ts_Chunks s' ≠ None.
Proof.
  induction calls as [|[[[cid st] now] fault] calls IH]; intros w s Hp Hs Hc.
  - exists s. simpl. rewrite !Z.add_0_r. done.
  - destruct (update_in_memory s cid st now) as [s1|] eqn:Hu.
    2:{ unfold update_in_memory in Hu. by destruct (ts_Chunks s). }
    pose proof (UpdateChunkStatus_heap m w sid cid st now fault p s s1 Hp Hs Hu) as Hh.
    apply update_in_memory_spec in Hu
      as (chunks & c & _ & Hc1 & _ & _ & _ & _ & _ & _ & Htot & Hcomp & Hfail).
    destruct (IH (UpdateChunkStatus m w sid cid st now fault).2 s1) as
      (s' & Hs' & Hcomp' & Hfail' & Hrc & Hrf & Htot' & Hch'); [done | | |].
    { rewrite Hh. apply list_lookup_insert_eq. by eapply lookup_lt_Some. }
    { by rewrite Hc1. }
    exists s'. split; [exact Hs' |].
    rewrite !count_status_cons. simpl.
    rewrite Hcomp', Hfail', Hcomp, Hfail, Htot'.
    assert (∀ z, in_int64 (wrap64 z)) as Hw.
    { intros z. unfold in_int64, wrap64.
      pose proof (Z.mod_pos_bound (z + 2 ^ 63) (2 ^ 64)). lia. }
    split.
    { destruct (decide (st = ChunkStatusCompleted)).
      - rewrite wrap64_add_l. f_equal; lia.
      - f_equal; lia. }
    split.
    { destruct (decide (st = ChunkStatusFailed)).
      - rewrite wrap64_add_l. f_equal; lia.
      - f_equal; lia. }
    split.
    { intros Hr. apply Hrc. rewrite Hcomp.
      destruct (decide (st = ChunkStatusCompleted)); [apply Hw | exact Hr]. }
    split.
    { intros Hr. apply Hrf. rewrite Hfail.
      destruct (decide (st = ChunkStatusFailed)); [apply Hw | exact Hr]. }
    done.
Qed.

(** C5, as stated, fails: a session of one chunk, whose chunk is marked
    completed twice, counts it twice; the chunks map holds one chunk and
    [completed + failed] is 2, above [total_chunks = 1]. *)
Lemma duplicate_completed_counted_twice :
  let s0 :=
    {| ts_ID := example_id; ts_File := example_file;
       ts_Status := SessionStatusCreated; ts_Chunks := Some ∅;
       ts_CreatedAt := 100; ts_UpdatedAt := 100; ts_CompletedAt := None;
       ts_TotalChunks := 1; ts_Completed := 0; ts_Failed := 0;
       ts_BytesSent := 0; ts_BytesReceived := 0 |} in
  let w := run_updates example_manager example_id
             [("0", ChunkStatusCompleted, 101, NoFault);
              ("0", ChunkStatusCompleted, 102, NoFault)]
             (set_heap example_world [s0]) in
  ∃ s' chunks,
    w_heap w !! 0%nat = Some s'
    ∧ ts_Chunks s' = Some chunks
    ∧ size chunks = 1%nat
    ∧ ts_TotalChunks s' = 1
    ∧ ts_Completed s' = 2
    ∧ ¬ (ts_Completed s' + ts_Failed s' <= ts_TotalChunks s').
Proof.
  eexists _, _. split; [vm_compute; reflexivity |].
  split; [reflexivity |]. split; [vm_compute; reflexivity |].
  split; [reflexivity |]. split; [reflexivity |]. simpl. lia.
Qed.

(** C5, amended. Every call of [UpdateChunkStatus] with status [completed]
    adds one to the completed counter, and every call with status [failed]
    adds one to the failed counter, whatever the status of the chunk was
    before and whether or not the save succeeded. After a sequence of calls
    on a session the counters are the initial ones plus the numbers of such
    calls (as 64-bit integers), so [completed + failed <= total_chunks]
    is kept as long as the number of calls with one of these statuses, and
    not the number of distinct chunks, stays within [total_chunks]. *)
Theorem UpdateChunkStatus_counts_calls m sid p calls w s :
  sessions m !! sid = Some p →
  w_heap w !! p = Some s →
  ts_Chunks s ≠ None →
  in_int64 (ts_Completed s) →
  in_int64 (ts_Failed s) →
  ∃ s',
    w_heap (run_updates m sid calls w) !! p = Some s'
    ∧ ts_Completed s'
      = wrap64 (ts_Completed s + count_status ChunkStatusCompleted calls)
    ∧ ts_Failed s'
      = wrap64 (ts_Failed s + count_status ChunkStatusFailed calls)
    ∧ ts_TotalChunks s' = ts_TotalChunks s
    ∧ (0 <= ts_Completed s → 0 <= ts_Failed s →
       ts_TotalChunks s < 2 ^ 63 →
       ts_Completed s + ts_Failed s
         + count_status ChunkStatusCompleted calls
         + count_status ChunkStatusFailed calls <= ts_TotalChunks s →
       ts_Completed s' + ts_Failed s' <= ts_TotalChunks s').
Proof.
  intros Hp Hs Hc Hrc Hrf.
  destruct (run_updates_counters m sid p calls w s Hp Hs Hc)
    as (s' & Hs' & Hcomp & Hfail & Hrc' & Hrf' & Htot & _).
  exists s'. split; [exact Hs' |].
  rewrite (wrap64_small (ts_Completed s')) in Hcomp by (apply Hrc', Hrc).
  rewrite (wrap64_small (ts_Failed s')) in Hfail by (apply Hrf', Hrf).
  split; [exact Hcomp |]. split; [exact Hfail |]. split; [exact Htot |].
  intros H0c H0f Hlt Hle.
  pose proof (count_status_nonneg ChunkStatusCompleted calls).
  pose proof (count_status_nonneg ChunkStatusFailed calls).
  rewrite Hcomp, Hfail, Htot.
  rewrite !wrap64_small by lia. lia.
Qed.

Lemma UpdateChunkStatus_counts_calls_witness :
  ∃ s',
    w_heap (run_updates example_manager example_id
              [("0", ChunkStatusCompleted, 101, NoFault);
               ("1", ChunkStatusFailed, 102, OpenFails);
               ("0", ChunkStatusCompleted, 103, NoFault)] example_world) !! 0%nat
    = Some s'
    ∧ ts_Completed s' = 2 ∧ ts_Failed s' = 1.
Proof.
  destruct (UpdateChunkStatus_counts_calls example_manager example_id 0%nat
              [("0", ChunkStatusCompleted, 101, NoFault);
               ("1", ChunkStatusFailed, 102, OpenFails);
               ("0", ChunkStatusCompleted, 103, NoFault)] example_world
              {| ts_ID := example_id; ts_File := example_file;
                 ts_Status := SessionStatusCreated; ts_Chunks := Some ∅;
                 ts_CreatedAt := 100; ts_UpdatedAt := 100; ts_CompletedAt := None;
                 ts_TotalChunks := 0; ts_Completed := 0; ts_Failed := 0;
                 ts_BytesSent := 0; ts_BytesReceived := 0 |})
    as (s' & Hs' & Hc & Hf & _).
  - vm_compute; reflexivity.
  - vm_compute; reflexivity.
  - done.
  - unfold in_int64; simpl; lia.
  - unfold in_int64; simpl; lia.
  - exists s'. split; [exact Hs' |]. split; [rewrite Hc | rewrite Hf]; reflexivity.
Defined.

(** ** The session store: names in the sessions directory *)

Lemma list_ascii_of_string_inj (a b : string) :
  list_ascii_of_string a = list_ascii_of_string b → a = b.
Proof.
  intros E. rewrite <- (string_of_list_ascii_of_string a),
    <- (string_of_list_ascii_of_string b). by rewrite E.
Qed.

Lemma session_path_inj (a b : string) : session_path a = session_path b → a = b.
Proof.
  unfold session_path. intros E.
  apply (f_equal list_ascii_of_string) in E.
  rewrite !list_ascii_of_string_app in E.
  apply app_inv_tail in E. by apply list_ascii_of_string_inj.
Qed.

Lemma Ext_session_path (id : string) : Ext (session_path id) = ".json".
Proof.
  unfold Ext, session_path.
  rewrite list_ascii_of_string_app, rev_app_distr. reflexivity.
Qed.

Lemma string_length_app (a b : string) :
  String.length (a +:+ b) = (String.length a + String.length b)%nat.
Proof. induction a as [|c a IH]; simpl; [done | by rewrite IH]. Qed.

Lemma substring_prefix (a b : string) : substring 0 (String.length a) (a +:+ b) = a.
Proof.
  induction a as [|c a IH]; simpl.
  - by destruct b.
  - by rewrite IH.
Qed.

Lemma trim_session_path (id : string) : trim_json (session_path id) = id.
Proof.
  unfold trim_json, session_path. rewrite string_length_app. simpl.
  replace (String.length id + 5 - 5)%nat with (String.length id) by lia.
  apply substring_prefix.
Qed.

Lemma Ext_scan_inv (r : list ascii) : ∀ acc x,
  Ext_scan r acc = x → x ≠ "" →
  ∃ mid pre, r = mid ++ "."%char :: pre
             ∧ x = string_of_list_ascii ("."%char :: rev mid ++ acc).
Proof.
  induction r as [|c r IH]; intros acc x; simpl; [by intros <- |].
  destruct (decide (c = "/"%char)); [by intros <- |].
  destruct (decide (c = "."%char)) as [->|].
  - intros <- _. by exists [], r.
  - intros E Hx. destruct (IH _ _ E Hx) as (mid & pre & -> & ->).
    exists (c :: mid), pre. split; [done |]. simpl.
    by rewrite <- app_assoc.
Qed.

(** The test [filepath.Ext(e.Name()) != ".json"] keeps exactly the names
    [id.json], and the slice expression gives [id] back. *)
Lemma Ext_json_inv (name : string) :
  Ext name = ".json" → session_path (trim_json name) = name.
Proof.
  unfold Ext. intros E.
  apply Ext_scan_inv in E as (mid & pre & Hr & Hx); [| done].
  apply (f_equal list_ascii_of_string) in Hx.
  rewrite list_ascii_of_string_of_list_ascii, app_nil_r in Hx. simpl in Hx.
  injection Hx as Hx.
  assert (mid = ["n"; "o"; "s"; "j"]%char) as ->.
  { rewrite <- (rev_involutive mid), <- Hx. reflexivity. }
  assert (name = session_path (string_of_list_ascii (rev pre))) as ->.
  { apply list_ascii_of_string_inj. unfold session_path.
    rewrite list_ascii_of_string_app, list_ascii_of_string_of_list_ascii.
    rewrite <- (rev_involutive (list_ascii_of_string name)), Hr.
    simpl. rewrite <- !app_assoc. reflexivity. }
  by rewrite trim_session_path.
Qed.

Lemma Ext_json_iff (name : string) :
  Ext name = ".json" ↔ ∃ id, name = session_path id.
Proof.
  split.
  - intros E. exists (trim_json name). by rewrite Ext_json_inv.
  - intros [id ->]. apply Ext_session_path.
Qed.

(** ** The session store: rehydration *)

Lemma LoadSession_Ok_file dir id s :
  LoadSession dir id = Ok s → ∃ c, dir !! session_path id = Some (EFile c).
Proof.
  unfold LoadSession. destruct (dir !! session_path id) as [[|c]|]; try done. eauto.
Qed.

(** The loop of [loadExisting] over any list of entries with distinct
    names: the sessions it adds are those of the entries [id.json] that are
    files and load. *)
Lemma loadExisting_fold_sessions dir entries : ∀ ss heap log ss' heap' log',
  fold_left (loadExisting_entry dir) entries (ss, heap, log) = (ss', heap', log') →
  NoDup entries.*1 →
  (∀ id q, ss !! id = Some q → (q < length heap)%nat) →
  (∀ name e, (name, e) ∈ entries → Ext name = ".json" → ss !! trim_json name = None) →
  ∀ id s,
    (∃ q, ss' !! id = Some q ∧ heap' !! q = Some s)
    ↔ (∃ q, ss !! id = Some q ∧ heap !! q = Some s)
      ∨ ((∃ c, (session_path id, EFile c) ∈ entries) ∧ LoadSession dir id = Ok s).
Proof.
  induction entries as [|[name e] entries IH];
    intros ss heap log ss' heap' log' Hfold Hnd Hptr Hfresh id s.
  { simpl in Hfold. injection Hfold as <- <- <-. split; [by left |].
    intros [H | [[c Hc] _]]; [done |]. by apply elem_of_nil in Hc. }
  simpl in Hfold. apply NoDup_cons in Hnd as [Hname Hnd].
  assert (∀ i c, (session_path i, EFile c) ∈ (name, e) :: entries ↔
                 (name = session_path i ∧ e = EFile c)
                 ∨ (session_path i, EFile c) ∈ entries) as Hin.
  { intros i c. rewrite elem_of_cons. split; (intros [H|H]; [left | by right]).
    - by injection H as <- <-.
    - by destruct H as [-> ->]. }
  assert (∀ n e', (n, e') ∈ entries → n ≠ name) as Hother.
  { intros n e' Hn ->. apply Hname. apply list_elem_of_fmap. by exists (name, e'). }
  (* the entries that add nothing *)
  assert (∀ log1,
    fold_left (loadExisting_entry dir) entries (ss, heap, log1) = (ss', heap', log') →
    (∀ c, e = EFile c → name = session_path id → LoadSession dir id ≠ Ok s) →
    (∃ q, ss' !! id = Some q ∧ heap' !! q = Some s)
    ↔ (∃ q, ss !! id = Some q ∧ heap !! q = Some s)
      ∨ ((∃ c, (session_path id, EFile c) ∈ (name, e) :: entries)
         ∧ LoadSession dir id = Ok s)) as Hskip.
  { intros log1 Hfold1 Hno.
    rewrite (IH _ _ _ _ _ _ Hfold1 Hnd Hptr); last first.
    { intros n e' Hn. apply (Hfresh n e'). by right. }
    split; (intros [H|[[c Hc] HL]]; [by left | right]).
    - split; [| done]. exists c. apply Hin. by right.
    - apply Hin in Hc as [[-> ->] | Hc]; [by destruct (Hno c) | eauto]. }
  destruct e as [|c0]; simpl in Hfold.
  { by apply (Hskip log). }
  destruct (decide (Ext name = ".json")) as [HE|HE]; last first.
  { apply (Hskip log); [done |]. intros c _ ->. by rewrite Ext_session_path in HE. }
  pose proof (Ext_json_inv name HE) as Hname'.
  destruct (LoadSession dir (trim_json name)) as [s0|err] eqn:HL; last first.
  { eapply Hskip; [exact Hfold |]. intros c _ ->.
    rewrite trim_session_path in HL. congruence. }
  (* the entry that loads *)
  rewrite (IH _ _ _ _ _ _ Hfold Hnd); first last.
  - intros n e' Hn HEn. rewrite lookup_insert_ne.
    + apply (Hfresh n e'); [by right | done].
    + intros Heq. apply (Hother n e' Hn).
      by rewrite <- (Ext_json_inv n HEn), <- Hname', Heq.
  - intros i q. rewrite lookup_insert, length_app. simpl.
    case_decide; [intros [= <-]; lia |]. intros Hq. apply Hptr in Hq. lia.
  - assert (ss !! trim_json name = None) as Hnone.
    { apply (Hfresh name (EFile c0)); [by left | done]. }
    destruct (decide (id = trim_json name)) as [->|Hne].
    + rewrite lookup_insert_eq. split.
      * intros [(q & [= <-] & Hq) | [[c Hc] HLs]].
        -- rewrite lookup_app_r, Nat.sub_diag in Hq by lia. injection Hq as <-.
           right. split; [| done]. exists c0. rewrite Hname'. by left.
        -- right. split; [| done]. exists c. by right.
      * intros [(q & Hq & _) | [_ HLs]]; [congruence |].
        left. exists (length heap). split; [done |].
        rewrite lookup_app_r, Nat.sub_diag by lia. simpl. congruence.
    + rewrite lookup_insert_ne by done. split.
      * intros [(q & Hq & Hs) | [[c Hc] HLs]].
        -- left. exists q. split; [done |].
           rewrite lookup_app_l in Hs; [done | by eapply Hptr].
        -- right. split; [| done]. exists c. by right.
      * intros [(q & Hq & Hs) | [[c Hc] HLs]].
        -- left. exists q. split; [done |].
           rewrite lookup_app_l; [done | by eapply Hptr].
        -- right. split; [| done]. exists c.
           apply Hin in Hc as [[Hn _] | Hc]; [| done].
           rewrite <- Hname' in Hn. apply session_path_inj in Hn. congruence.
Qed.

Lemma loadExisting_fold_log dir entries : ∀ ss heap log ss' heap' log',
  fold_left (loadExisting_entry dir) entries (ss, heap, log) = (ss', heap', log') →
  ∀ id e,
    LogFailedToLoadSession id e ∈ log'
    ↔ LogFailedToLoadSession id e ∈ log
      ∨ ((∃ c, (session_path id, EFile c) ∈ entries) ∧ LoadSession dir id = Err e).
Proof.
  induction entries as [|[name e0] entries IH];
    intros ss heap log ss' heap' log' Hfold id e.
  { simpl in Hfold. injection Hfold as <- <- <-. split; [by left |].
    intros [H | [[c Hc] _]]; [done |]. by apply elem_of_nil in Hc. }
  simpl in Hfold.
  assert (∀ c, (session_path id, EFile c) ∈ (name, e0) :: entries ↔
               (name = session_path id ∧ e0 = EFile c)
               ∨ (session_path id, EFile c) ∈ entries) as Hin.
  { intros c. rewrite elem_of_cons. split; (intros [H|H]; [left | by right]).
    - by injection H as <- <-.
    - by destruct H as [-> ->]. }
  assert (∀ ss1 heap1,
    fold_left (loadExisting_entry dir) entries (ss1, heap1, log) = (ss', heap', log') →
    (∀ c, e0 = EFile c → name = session_path id → LoadSession dir id ≠ Err e) →
    LogFailedToLoadSession id e ∈ log'
    ↔ LogFailedToLoadSession id e ∈ log
      ∨ ((∃ c, (session_path id, EFile c) ∈ (name, e0) :: entries)
         ∧ LoadSession dir id = Err e)) as Hskip.
  { intros ss1 heap1 Hfold1 Hno. rewrite (IH _ _ _ _ _ _ Hfold1).
    split; (intros [H|[[c Hc] HL]]; [by left | right]).
    - split; [| done]. exists c. apply Hin. by right.
    - apply Hin in Hc as [[-> ->] | Hc]; [by destruct (Hno c) | eauto]. }
  destruct e0 as [|c0]; simpl in Hfold.
  { by apply (Hskip ss heap). }
  destruct (decide (Ext name = ".json")) as [HE|HE]; last first.
  { apply (Hskip ss heap); [done |]. intros c _ ->. by rewrite Ext_session_path in HE. }
  pose proof (Ext_json_inv name HE) as Hname'.
  destruct (LoadSession dir (trim_json name)) as [s0|err] eqn:HL.
  { eapply Hskip; [exact Hfold |]. intros c _ ->.
    rewrite trim_session_path in HL. congruence. }
  rewrite (IH _ _ _ _ _ _ Hfold), elem_of_app, list_elem_of_singleton.
  split.
  - intros [[H | [= -> ->]] | [[c Hc] HLe]].
    + by left.
    + right. split; [| done]. exists c0. rewrite Hname'. by left.
    + right. split; [| done]. exists c. by right.
  - intros [H | [[c Hc] HLe]]; [by left; left |].
    apply Hin in Hc as [[-> _] | Hc].
    + left; right. rewrite trim_session_path in HL |- *. congruence.
    + right. eauto.
Qed.

Lemma elem_of_ReadDir dir name e : (name, e) ∈ ReadDir dir ↔ dir !! name = Some e.
Proof.
  unfold ReadDir. rewrite merge_sort_Permutation. apply elem_of_map_to_list.
Qed.

Lemma NoDup_ReadDir dir : NoDup (ReadDir dir).*1.
Proof.
  unfold ReadDir. rewrite merge_sort_Permutation. apply NoDup_fst_map_to_list.
Qed.

(** A checkpoint document is attempted like any other [.json] file and is
    rejected by [Validate], since it decodes to a session with no id. *)
Lemma LoadSession_checkpoint dir id cp :
  dir !! session_path id = Some (EFile (CheckpointJSON cp)) →
  LoadSession dir id = Err ErrSessionIDEmpty.
Proof. intros H. unfold LoadSession. by rewrite H. Qed.

(** C6, as stated, fails: nothing in [loadExisting] excludes a name ending
    in [.checkpoint.json]. A file of that name holding a session document
    is loaded, under the id [a.checkpoint]. *)
Lemma checkpoint_name_not_excluded :
  let w :=
    set_sessions_dir empty_World
      {[ "a.checkpoint.json" :=
           EFile (SessionJSON
             {| ts_ID := "a"; ts_File := example_file;
                ts_Status := SessionStatusCreated; ts_Chunks := Some ∅;
                ts_CreatedAt := 100; ts_UpdatedAt := 100; ts_CompletedAt := None;
                ts_TotalChunks := 0; ts_Completed := 0; ts_Failed := 0;
                ts_BytesSent := 0; ts_BytesReceived := 0 |}) ]} in
  ∃ m w',
    NewSessionManager "sessions" DirOk w = (Ok m, w')
    ∧ sessions m !! "a.checkpoint" = Some 0%nat
    ∧ ts_ID <$> (w_heap w' !! 0%nat) = Some "a".
Proof.
  eexists _, _. split; [vm_compute; reflexivity |].
  split; vm_compute; reflexivity.
Qed.

(** C6, amended. On construction the store lists the base directory and
    attempts every entry that is not a directory and whose extension is
    [.json], that is every file named [id.json], names ending in
    [.checkpoint.json] included. Such a file is inserted, under [id],
    exactly when it loads (it can be opened, decodes and passes
    [Validate]); a file that does not load is logged and skipped and keeps
    no other file from loading. A checkpoint document never loads: it
    decodes to a session without an id. A failure to read the directory
    makes construction fail. *)
Theorem NewSessionManager_rehydrates (dirName : string) (w : World) :
  dirName ≠ "" →
  NewSessionManager dirName ReadDirFails w = (Err ErrReadSessionsDir, w)
  ∧ (∀ name, Ext name = ".json" ↔ ∃ id, name = session_path id)
  ∧ ∃ m w',
      NewSessionManager dirName DirOk w = (Ok m, w')
      ∧ w_sessions_dir w' = w_sessions_dir w
      ∧ (∀ id s,
           (∃ p, sessions m !! id = Some p ∧ w_heap w' !! p = Some s)
           ↔ LoadSession (w_sessions_dir w) id = Ok s)
      ∧ (∀ id e,
           LogFailedToLoadSession id e ∈ w_log w'
           ↔ LogFailedToLoadSession id e ∈ w_log w
             ∨ ((∃ c, w_sessions_dir w !! session_path id = Some (EFile c))
                ∧ LoadSession (w_sessions_dir w) id = Err e))
      ∧ (∀ id cp,
           w_sessions_dir w !! session_path id = Some (EFile (CheckpointJSON cp)) →
           LoadSession (w_sessions_dir w) id = Err ErrSessionIDEmpty).
Proof.
  intros Hname. unfold NewSessionManager, loadExisting.
  destruct (decide (dirName = "")) as [|_]; [done |].
  split; [done |]. split; [apply Ext_json_iff |].
  destruct (fold_left _ _ _) as [[ss heap] log] eqn:Hfold.
  eexists _, _. split; [reflexivity |]. simpl.
  split; [done |]. split; [| split].
  - intros id s.
    rewrite (loadExisting_fold_sessions _ _ _ _ _ _ _ _ Hfold (NoDup_ReadDir _)).
    + split.
      * intros [(q & Hq & _) | [_ HL]]; [simpl in Hq; by rewrite lookup_empty in Hq | done].
      * intros HL. right. split; [| done].
        destruct (LoadSession_Ok_file _ _ _ HL) as [c Hc].
        exists c. by apply elem_of_ReadDir.
    + intros id0 q Hq. simpl in Hq. by rewrite lookup_empty in Hq.
    + intros. simpl. apply lookup_empty.
  - intros id e. rewrite (loadExisting_fold_log _ _ _ _ _ _ _ _ Hfold).
    by setoid_rewrite elem_of_ReadDir.
  - intros id cp. apply LoadSession_checkpoint.
Qed.

Lemma NewSessionManager_rehydrates_witness :
  "sessions" ≠ ""
  ∧ ∃ m w',
      NewSessionManager "sessions" DirOk
        (set_sessions_dir example_world
           (<[ "broken.json" := EFile Garbage ]> (w_sessions_dir example_world)))
      = (Ok m, w')
      ∧ (∃ p, sessions m !! example_id = Some p)
      ∧ LogFailedToLoadSession "broken" ErrDecodeSession ∈ w_log w'.
Proof.
  split; [done |].
  destruct (NewSessionManager_rehydrates "sessions"
              (set_sessions_dir example_world
                 (<[ "broken.json" := EFile Garbage ]> (w_sessions_dir example_world))))
    as (_ & _ & m & w' & HN & _ & Hs & Hl & _); [done |].
  exists m, w'. split; [exact HN |]. split.
  - destruct (proj2 (Hs example_id
        {| ts_ID := example_id; ts_File := example_file;
           ts_Status := SessionStatusCreated; ts_Chunks := Some ∅;
           ts_CreatedAt := 100; ts_UpdatedAt := 100; ts_CompletedAt := None;
           ts_TotalChunks := 0; ts_Completed := 0; ts_Failed := 0;
           ts_BytesSent := 0; ts_BytesReceived := 0 |}))
      as (p & Hp & _); [vm_compute; reflexivity | by exists p].
  - apply Hl. right. split; [exists Garbage |]; vm_compute; reflexivity.
Defined.

(** ** SHA-256: the test vectors of the standard *)

Example sha256_abc :
  hex_EncodeToString (sha256_Sum256 (list_byte_of_string "abc"))
  = "ba7816bf8f01cfea414140de5dae2223b00361a396177a9cb410ff61f20015ad".
Proof. vm_compute. reflexivity. Qed.

Example sha256_empty :
  hex_EncodeToString (sha256_Sum256 [])
  = "e3b0c44298fc1c149afbf4c8996fb92427ae41e4649b934ca495991b7852b855".
Proof. vm_compute. reflexivity. Qed.

Example sha256_two_blocks :
  hex_EncodeToString
    (sha256_Sum256
       (list_byte_of_string
          "abcdbcdecdefdefgefghfghighijhijkijkljklmklmnlmnomnopnopq"))
  = "248d6a61d20638b8e5c026930c3e6039a33ce45964ff2167f6ecedd419db06c1".
Proof. vm_compute. reflexivity. Qed.

Example hex_DecodeString_cases :
  hex_DecodeString "00ffAb" = Some [x00; xff; xab]
  ∧ hex_DecodeString "0" = None
  ∧ hex_DecodeString "zz" = None.
Proof. repeat split; vm_compute; reflexivity. Qed.

Example ChecksumIEEE_check_value :
  ChecksumIEEE (list_byte_of_string "123456789") = 0xCBF43926.
Proof. vm_compute. reflexivity. Qed.

(** ** The receiver *)

Section ReceiverFacts.

Variable Unmarshal_FileMetadata : list byte → option FileMetadata.


End ReceiverFacts.


(** The same frame with the right hash is stored and counted. *)
Example matching_frame_is_stored :
  ∃ st',
    handle_frame (λ _, None) example_conn
      (example_env (hex_EncodeToString (HashChunk example_payload))) = Continue st'
    ∧ w_temp_dir (cs_world st') !! part_name example_id "0" = Some example_payload
    ∧ ts_Completed <$> (w_heap (cs_world st') !! 0%nat) = Some 1.
Proof.
  eexists. split; [vm_compute; reflexivity |]. split; vm_compute; reflexivity.
Qed.

(** ** The chunker *)

#[local] Arguments sha256_Sum256 : simpl never.
#[local] Arguments CalculateChunkHash : simpl never.
#[local] Arguments hex_EncodeToString : simpl never.
#[local] Arguments Sprintf_d : simpl never.
#[local] Arguments wrap64 : simpl never.







(** The chunker of the sender, [NewChunker(ChunkerConfig{})], has the
    range 5 MiB to 200 MiB. *)
Example default_chunker_range :
  NewChunker {| MinChunkSize := 0; MaxChunkSize := 0; DefaultChunkSize := 0 |}
  = {| MinChunkSize := 5 * 1024 * 1024; MaxChunkSize := 200 * 1024 * 1024;
       DefaultChunkSize := 50 * 1024 * 1024 |}.
Proof. reflexivity. Qed.

Example ChunkFile_ten_bytes :
  (λ r, match r with
        | Some (Returns (Ok l)) => (λ c, (cm_ID c, cm_Offset c, cm_Size c)) <$> l
        | _ => []
        end)
    (ChunkFile {| MinChunkSize := 2; MaxChunkSize := 4; DefaultChunkSize := 3 |}
       FileOk (list_byte_of_string "abcdefghij") 3 0)
  = [("0", 0, 3); ("1", 3, 3); ("2", 6, 3); ("3", 9, 1)].
Proof. vm_compute. reflexivity. Qed.

(** ** Bytes and big-endian integers *)

#[local] Arguments byte_of_Z : simpl never.
#[local] Arguments byte_to_Z : simpl never.
#[local] Arguments be_bytes : simpl never.
#[local] Arguments be_to_Z : simpl never.

Lemma byte_to_Z_range (b : byte) : 0 <= byte_to_Z b < 256.
Proof. unfold byte_to_Z. pose proof (Byte.to_N_bounded b). lia. Qed.

Lemma byte_to_Z_inj (a b : byte) : byte_to_Z a = byte_to_Z b → a = b.
Proof.
  unfold byte_to_Z. intros E. apply N2Z.inj in E.
  pose proof (Byte.of_to_N a) as Ha. rewrite E, Byte.of_to_N in Ha. congruence.
Qed.

Lemma byte_to_of_Z (z : Z) : byte_to_Z (byte_of_Z z) = z mod 256.
Proof.
  unfold byte_to_Z, byte_of_Z.
  pose proof (Z.mod_pos_bound z 256 ltac:(lia)) as Hr.
  destruct (Byte.of_N (Z.to_N (z mod 256))) as [b|] eqn:E.
  - apply Byte.to_of_N in E. rewrite E. lia.
  - apply Byte.of_N_None_iff in E. lia.
Qed.

Lemma be_to_Z_snoc (l : list byte) (b : byte) :
  be_to_Z (l ++ [b]) = be_to_Z l * 256 + byte_to_Z b.
Proof. unfold be_to_Z. by rewrite fold_left_app. Qed.

Lemma be_to_Z_range (l : list byte) : 0 <= be_to_Z l < 256 ^ Z.of_nat (length l).
Proof.
  induction l as [|b l IH] using rev_ind; [done |].
  rewrite be_to_Z_snoc, length_app. simpl.
  pose proof (byte_to_Z_range b).
  replace (Z.of_nat (length l + 1)) with (Z.of_nat (length l) + 1) by lia.
  rewrite Z.pow_add_r by lia. lia.
Qed.

Lemma be_to_Z_inj (l1 : list byte) : ∀ l2,
  length l1 = length l2 → be_to_Z l1 = be_to_Z l2 → l1 = l2.
Proof.
  induction l1 as [|b1 l1 IH] using rev_ind; intros l2 Hlen E.
  { destruct l2; [done | simpl in Hlen; lia]. }
  destruct l2 as [|b2 l2 _] using rev_ind.
  { rewrite length_app in Hlen. simpl in Hlen. lia. }
  rewrite !length_app in Hlen. simpl in Hlen.
  rewrite !be_to_Z_snoc in E.
  pose proof (byte_to_Z_range b1). pose proof (byte_to_Z_range b2).
  assert (be_to_Z l1 = be_to_Z l2 ∧ byte_to_Z b1 = byte_to_Z b2) as [E1 E2] by lia.
  rewrite (IH l2) by (done || lia). by rewrite (byte_to_Z_inj _ _ E2).
Qed.

Lemma be_bytes_S (n : nat) (z : Z) :
  be_bytes (S n) z = byte_of_Z (Z.shiftr z (8 * Z.of_nat n)) :: be_bytes n z.
Proof. reflexivity. Qed.

Lemma length_be_bytes (n : nat) (z : Z) : length (be_bytes n z) = n.
Proof. induction n as [|n IH]; [done |]. rewrite be_bytes_S. simpl. by rewrite IH. Qed.

Lemma be_to_Z_cons (b : byte) (l : list byte) :
  be_to_Z (b :: l) = byte_to_Z b * 256 ^ Z.of_nat (length l) + be_to_Z l.
Proof.
  induction l as [|c l IH] using rev_ind.
  - unfold be_to_Z. simpl. lia.
  - rewrite app_comm_cons, !be_to_Z_snoc, IH, length_app. simpl.
    replace (Z.of_nat (length l + 1)) with (Z.of_nat (length l) + 1) by lia.
    rewrite Z.pow_add_r by lia. lia.
Qed.

Lemma be_to_Z_be_bytes (n : nat) (z : Z) :
  0 <= z → be_to_Z (be_bytes n z) = z mod 256 ^ Z.of_nat n.
Proof.
  intros Hz. induction n as [|n IH].
  - unfold be_to_Z. simpl. by rewrite Z.mod_1_r.
  - rewrite be_bytes_S, be_to_Z_cons, IH, length_be_bytes, byte_to_of_Z.
    rewrite Z.shiftr_div_pow2 by lia.
    replace (2 ^ (8 * Z.of_nat n)) with (256 ^ Z.of_nat n)
      by (rewrite Z.pow_mul_r by lia; reflexivity).
    replace (Z.of_nat (S n)) with (Z.of_nat n + 1) by lia.
    rewrite Z.pow_add_r by lia.
    set (m := 256 ^ Z.of_nat n). assert (0 < m) by (apply Z.pow_pos_nonneg; lia).
    change (256 ^ 1) with 256. rewrite Z.rem_mul_r by lia. lia.
Qed.

Lemma be_to_Z_be_bytes_small (n : nat) (z : Z) :
  0 <= z < 256 ^ Z.of_nat n → be_to_Z (be_bytes n z) = z.
Proof. intros Hz. rewrite be_to_Z_be_bytes by lia. apply Z.mod_small. lia. Qed.

(** ** CRC-32: a changed byte changes the checksum *)

Lemma u32_bit32 (c : Z) : in_u32 c → Z.testbit c 32 = false.
Proof.
  intros [H0 H1]. destruct (decide (c = 0)) as [->|]; [done |].
  apply Z.bits_above_log2; [done |]. apply Z.log2_lt_pow2; lia.
Qed.

Lemma lxor_u32 (a b : Z) : in_u32 a → in_u32 b → in_u32 (Z.lxor a b).
Proof.
  intros [Ha0 Ha1] [Hb0 Hb1]. split; [by apply Z.lxor_nonneg |].
  destruct (decide (Z.lxor a b = 0)) as [->|Hne]; [done |].
  assert (0 <= Z.lxor a b) by (by apply Z.lxor_nonneg).
  apply Z.log2_lt_pow2; [lia |].
  pose proof (Z.log2_lxor a b Ha0 Hb0).
  assert (Z.log2 a < 32).
  { destruct (decide (a = 0)) as [->|]; [done |]. apply Z.log2_lt_pow2; lia. }
  assert (Z.log2 b < 32).
  { destruct (decide (b = 0)) as [->|]; [done |]. apply Z.log2_lt_pow2; lia. }
  lia.
Qed.

Lemma shiftr1_u32 (c : Z) : in_u32 c → 0 <= Z.shiftr c 1 < 2 ^ 31.
Proof.
  intros [H0 H1]. rewrite Z.shiftr_div_pow2 by lia. change (2 ^ 1) with 2.
  split; [apply Z.div_pos; lia | apply Z.div_lt_upper_bound; lia].
Qed.

Lemma crc_step_u32 (c : Z) : in_u32 c → in_u32 (crc_step c).
Proof.
  intros Hc. pose proof (shiftr1_u32 c Hc) as Hs. unfold crc_step.
  destruct (Z.testbit c 0).
  - apply lxor_u32; unfold in_u32; lia.
  - unfold in_u32. lia.
Qed.

Lemma crc_unstep_step (c : Z) : in_u32 c → crc_unstep (crc_step c) = c.
Proof.
  intros Hc. pose proof (shiftr1_u32 c Hc) as Hs.
  assert (Z.testbit (Z.shiftr c 1) 31 = false) as Hb31.
  { rewrite Z.shiftr_spec by lia. by apply u32_bit32. }
  assert (c = 2 * Z.shiftr c 1 + (if Z.testbit c 0 then 1 else 0)) as Hc2.
  { rewrite Z.shiftr_div_pow2 by lia. change (2 ^ 1) with 2.
    pose proof (Z.bit0_mod c) as Hb. pose proof (Z.div_mod c 2 ltac:(lia)).
    destruct (Z.testbit c 0); simpl in Hb; lia. }
  unfold crc_unstep, crc_step. destruct (Z.testbit c 0).
  - rewrite Z.lxor_spec, Hb31. simpl.
    rewrite Z.lxor_assoc, Z.lxor_nilpotent, Z.lxor_0_r. lia.
  - rewrite Hb31. lia.
Qed.

Lemma crc_step_inj (a b : Z) : in_u32 a → in_u32 b → crc_step a = crc_step b → a = b.
Proof.
  intros Ha Hb E. rewrite <- (crc_unstep_step a Ha), <- (crc_unstep_step b Hb).
  by rewrite E.
Qed.

Lemma crc_steps_u32 (n : nat) (c : Z) : in_u32 c → in_u32 (Nat.iter n crc_step c).
Proof. intros Hc. induction n as [|n IH]; [done |]. simpl. by apply crc_step_u32. Qed.

Lemma crc_steps_inj (n : nat) (a b : Z) :
  in_u32 a → in_u32 b → Nat.iter n crc_step a = Nat.iter n crc_step b → a = b.
Proof.
  intros Ha Hb. induction n as [|n IH]; [done |]. simpl. intros E.
  apply IH. by apply crc_step_inj; [apply crc_steps_u32 | apply crc_steps_u32 |].
Qed.

Lemma byte_u32 (b : byte) : in_u32 (byte_to_Z b).
Proof. pose proof (byte_to_Z_range b). unfold in_u32. lia. Qed.

Lemma crc_byte_u32 (c : Z) (b : byte) : in_u32 c → in_u32 (crc_byte c b).
Proof. intros Hc. apply crc_steps_u32, lxor_u32; [done | apply byte_u32]. Qed.

Lemma crc_byte_inj_state (a b : Z) (x : byte) :
  in_u32 a → in_u32 b → crc_byte a x = crc_byte b x → a = b.
Proof.
  intros Ha Hb E. unfold crc_byte in E.
  apply crc_steps_inj in E; [| by apply lxor_u32; [| apply byte_u32]..].
  apply (f_equal (λ z, Z.lxor z (byte_to_Z x))) in E.
  by rewrite !Z.lxor_assoc, !Z.lxor_nilpotent, !Z.lxor_0_r in E.
Qed.

Lemma crc_byte_inj_byte (c : Z) (x y : byte) :
  in_u32 c → crc_byte c x = crc_byte c y → x = y.
Proof.
  intros Hc E. unfold crc_byte in E.
  apply crc_steps_inj in E; [| by apply lxor_u32; [| apply byte_u32]..].
  apply (f_equal (Z.lxor c)) in E.
  rewrite <- !Z.lxor_assoc, !Z.lxor_nilpotent, !Z.lxor_0_l in E.
  by apply byte_to_Z_inj.
Qed.

Lemma crc_update_u32 (data : list byte) : ∀ c, in_u32 c → in_u32 (crc_update c data).
Proof.
  induction data as [|b data IH]; intros c Hc; [done |].
  simpl. apply IH. by apply crc_byte_u32.
Qed.

Lemma crc_update_inj (data : list byte) : ∀ a b,
  in_u32 a → in_u32 b → crc_update a data = crc_update b data → a = b.
Proof.
  induction data as [|x data IH]; intros a b Ha Hb E; [done |].
  simpl in E. apply IH in E; [| by apply crc_byte_u32..].
  by apply crc_byte_inj_state in E.
Qed.

(** Replacing one byte of a message by a different byte changes its
    CRC-32. *)
Lemma ChecksumIEEE_single_byte (data : list byte) (i : nat) (x y : byte) :
  data !! i = Some x → x ≠ y →
  ChecksumIEEE (<[i := y]> data) ≠ ChecksumIEEE data.
Proof.
  intros Hi Hxy E. unfold ChecksumIEEE in E.
  apply (f_equal (λ z, Z.lxor z 0xFFFFFFFF)) in E.
  rewrite !Z.lxor_assoc, !Z.lxor_nilpotent, !Z.lxor_0_r in E.
  apply list_elem_of_split_length in Hi as (l1 & l2 & -> & ->).
  rewrite insert_app_r_alt, Nat.sub_diag in E by lia. simpl in E.
  unfold crc_update in E. rewrite !fold_left_app in E. simpl in E.
  fold (crc_update 0xFFFFFFFF l1) in E.
  assert (in_u32 (crc_update 0xFFFFFFFF l1)) as Hs.
  { apply crc_update_u32. unfold in_u32. lia. }
  apply (crc_update_inj l2) in E; [| by apply crc_byte_u32..].
  apply crc_byte_inj_byte in E; [| done]. congruence.
Qed.

(** ** The datagram packet codec *)

#[local] Arguments ChecksumIEEE : simpl never.

Lemma ChecksumIEEE_u32 (data : list byte) : in_u32 (ChecksumIEEE data).
Proof.
  unfold ChecksumIEEE. apply lxor_u32; [| unfold in_u32; lia].
  apply crc_update_u32. unfold in_u32. lia.
Qed.

Lemma length_packet_body (p : Packet) :
  length (SessionID p) = 16%nat →
  length (packet_body p) = (38 + length (Payload p))%nat.
Proof.
  intros Hsid. unfold packet_body, magic.
  rewrite !length_app, !length_be_bytes, Hsid. simpl. lia.
Qed.

(** [DeserializePacket] on input of at least header and checksum size that
    starts with the magic: the packet read from the fields when the CRC of
    all but the last four bytes is the number in the last four bytes, the
    checksum error otherwise. *)
Lemma DeserializePacket_checked (data : list byte) :
  (42 ≤ length data)%nat → take 4 data = magic →
  DeserializePacket data =
    if decide (ChecksumIEEE (take (length data - 4) data)
               = be_to_Z (drop (length data - 4) data))
    then Ok {| Version := nth 4 data x00; Type_ := nth 5 data x00;
               SessionID := take 16 (drop 6 data);
               ChunkID := be_to_Z (take 8 (drop 22 data));
               Seq := be_to_Z (take 4 (drop 30 data));
               Priority := nth 34 data x00;
               Payload := take (length data - 42) (drop 38 data);
               Checksum := be_to_Z (drop (length data - 4) data) |}
    else Err ErrChecksumVerificationFailed.
Proof.
  intros Hlen Hmagic. unfold DeserializePacket, headerSize, checksumSize, len.
  destruct (decide (Z.of_nat (length data) < 4 + 1 + 1 + 16 + 8 + 4 + 1 + 3 + 4));
    [lia |].
  destruct (decide (take 4 data ≠ magic)); [done |].
  change (Z.to_nat (4 + 1 + 1 + 16 + 8 + 4 + 1 + 3)) with 38%nat.
  change (Z.to_nat 4) with 4%nat.
  rewrite length_drop.
  destruct (decide (Z.of_nat (length data - 38) < 4)); [lia |].
  replace (length data - 38 - 4)%nat with (length data - 42)%nat by lia.
  rewrite drop_drop.
  replace (38 + (length data - 42))%nat with (length data - 4)%nat by lia.
  unfold VerifyChecksum, CalculateChecksum, checksumSize, len.
  destruct (decide (Z.of_nat (length data) <= 4)); [lia |].
  change (Z.to_nat 4) with 4%nat.
  destruct (decide (ChecksumIEEE (take (length data - 4) data)
                    = be_to_Z (drop (length data - 4) data))) as [E|E].
  - by rewrite bool_decide_eq_true_2.
  - by rewrite bool_decide_eq_false_2.
Qed.

(** The fields read back from a serialized packet. *)
Lemma DeserializePacket_body (p : Packet) (c : Z) :
  Packet_wf p → in_u32 c →
  DeserializePacket (packet_body p ++ be_bytes 4 c) =
    if decide (ChecksumIEEE (packet_body p) = c) then Ok (set_Checksum p c)
    else Err ErrChecksumVerificationFailed.
Proof.
  intros (Hsid & Hchunk & Hseq) Hc.
  pose proof (length_packet_body p Hsid) as Hbody.
  assert (length (packet_body p ++ be_bytes 4 c) = (42 + length (Payload p))%nat)
    as Hlen by (rewrite length_app, length_be_bytes; lia).
  rewrite DeserializePacket_checked; [| lia | by unfold packet_body; rewrite <- app_assoc].
  rewrite Hlen.
  replace (42 + length (Payload p) - 4)%nat with (length (packet_body p)) by lia.
  rewrite take_app_length, drop_app_length.
  rewrite be_to_Z_be_bytes_small by (unfold in_u32 in Hc; simpl; lia).
  destruct (decide (ChecksumIEEE (packet_body p) = c)); [| done].
  f_equal. unfold set_Checksum, packet_body, magic.
  pose proof (be_to_Z_be_bytes_small 8 (ChunkID p) ltac:(simpl; lia)) as HC.
  pose proof (be_to_Z_be_bytes_small 4 (Seq p) ltac:(simpl; lia)) as HS.
  pose proof (length_be_bytes 8 (ChunkID p)) as HlC.
  pose proof (length_be_bytes 4 (Seq p)) as HlS.
  set (bc := be_bytes 8 (ChunkID p)) in *.
  set (bs := be_bytes 4 (Seq p)) in *.
  set (bk := be_bytes 4 c) in *.
  clearbody bc bs bk. clear Hbody Hlen.
  destruct p as [v t sid cid seq pr pl ck]. simpl in *.
  do 16 (destruct sid as [|? sid]; [discriminate Hsid |]).
  destruct sid; [| discriminate Hsid].
  do 8 (destruct bc as [|? bc]; [discriminate HlC |]).
  destruct bc; [| discriminate HlC].
  do 4 (destruct bs as [|? bs]; [discriminate HlS |]).
  destruct bs; [| discriminate HlS].
  cbn [app nth take drop firstn skipn].
  rewrite Nat.sub_0_r, drop_0, take_app_length. by rewrite HC, HS.
Qed.

(** Replacing one byte of a serialized packet: an error in every case, the
    magic error for the first four bytes, the checksum error for all
    others. *)
Lemma DeserializePacket_corrupted (p : Packet) (i : nat) (x y : byte) :
  Packet_wf p →
  (packet_body p ++ be_bytes 4 (ChecksumIEEE (packet_body p))) !! i = Some x →
  y ≠ x →
  DeserializePacket
    (<[i := y]> (packet_body p ++ be_bytes 4 (ChecksumIEEE (packet_body p))))
  = Err (if decide (i < 4)%nat then ErrInvalidMagic else ErrChecksumVerificationFailed).
Proof.
  intros Hwf Hi Hxy.
  pose proof Hwf as (Hsid & _).
  pose proof (length_packet_body p Hsid) as Hbody.
  pose proof (ChecksumIEEE_u32 (packet_body p)) as Hcrc.
  set (body := packet_body p) in *.
  set (crc := ChecksumIEEE body) in *.
  assert (length (body ++ be_bytes 4 crc) = (42 + length (Payload p))%nat) as Hlen
    by (rewrite length_app, length_be_bytes; lia).
  assert (take 4 body = magic) as Hmagic by done.
  destruct (decide (i < 4)%nat) as [Hi4 | Hi4].
  { (* a byte of the magic *)
    unfold DeserializePacket.
    destruct (decide (len _ < headerSize + checksumSize)) as [Hsmall|_].
    { unfold len, headerSize, checksumSize in Hsmall.
      rewrite length_insert, Hlen in Hsmall. lia. }
    destruct (decide (take 4 (<[i:=y]> (body ++ be_bytes 4 crc)) ≠ magic)) as [_|Hm];
      [done |].
    exfalso. apply dec_stable in Hm.
    apply (f_equal (λ l, l !! i)) in Hm.
    rewrite lookup_take_lt in Hm by done.
    rewrite list_lookup_insert_eq in Hm by (rewrite Hlen; lia).
    rewrite <- Hmagic, lookup_take_lt in Hm by done.
    rewrite lookup_app_l in Hi by lia. congruence. }
  rewrite DeserializePacket_checked; last first.
  { rewrite take_insert_ge by lia. rewrite take_app_le by lia. done. }
  { rewrite length_insert, Hlen. lia. }
  rewrite length_insert, Hlen.
  replace (42 + length (Payload p) - 4)%nat with (length body) by lia.
  destruct (decide (i < length body)%nat) as [Hib | Hib].
  - (* a byte of the header or of the payload *)
    rewrite insert_app_l by done.
    rewrite take_app_length', drop_app_length' by (by rewrite length_insert).
    rewrite be_to_Z_be_bytes_small by (unfold in_u32 in Hcrc; simpl; lia).
    rewrite lookup_app_l in Hi by done.
    destruct (decide (ChecksumIEEE (<[i:=y]> body) = crc)) as [E|_]; [| done].
    exfalso. by apply (ChecksumIEEE_single_byte body i x y).
  - (* a byte of the checksum *)
    rewrite insert_app_r_alt by lia.
    rewrite take_app_length, drop_app_length.
    rewrite lookup_app_r in Hi by lia.
    fold crc.
    destruct (decide (crc = be_to_Z (<[(i - length body)%nat:=y]> (be_bytes 4 crc))))
      as [E|_]; [| done].
    exfalso.
    rewrite <- (be_to_Z_be_bytes_small 4 crc) in E at 1
      by (unfold in_u32 in Hcrc; simpl; lia).
    apply be_to_Z_inj in E; [| by rewrite length_insert].
    apply (f_equal (λ l, l !! (i - length body)%nat)) in E.
    rewrite list_lookup_insert_eq in E by (by eapply lookup_lt_Some).
    congruence.
Qed.

(** C8, as stated, fails: a changed byte of the magic is rejected by the
    magic test, which comes before the checksum test. *)
Lemma corrupted_magic_is_not_a_checksum_failure :
  let p := {| Version := currentVer; Type_ := PacketTypeData;
              SessionID := list_byte_of_string "session-12345678";
              ChunkID := 42; Seq := 7; Priority := x01;
              Payload := list_byte_of_string "hello world"; Checksum := 0 |} in
  ∃ bytes p',
    SerializePacket p = (Ok bytes, p')
    ∧ bytes !! 0%nat = Some x54
    ∧ DeserializePacket (<[0%nat := xab]> bytes) = Err ErrInvalidMagic
    ∧ DeserializePacket (<[0%nat := xab]> bytes) ≠ Err ErrChecksumVerificationFailed.
Proof.
  eexists _, _. split; [vm_compute; reflexivity |].
  split; [reflexivity |]. split; [vm_compute; reflexivity |].
  vm_compute. discriminate.
Qed.

(** C8, amended. For every valid packet with a payload of at most 64 KiB,
    [SerializePacket] succeeds and stores the checksum in the packet, and
    [DeserializePacket] of the bytes returns that packet; replacing any
    single byte of the bytes by a different one makes [DeserializePacket]
    fail, with the checksum error when the byte lies after the magic and
    with the invalid-magic error when it is one of the first four. *)
Theorem SerializePacket_round_trip (p : Packet) :
  Packet_wf p →
  len (Payload p) <= maxPayload →
  ∃ bytes p',
    SerializePacket p = (Ok bytes, p')
    ∧ p' = set_Checksum p (ChecksumIEEE (packet_body p))
    ∧ DeserializePacket bytes = Ok p'
    ∧ ∀ (i : nat) x y,
        bytes !! i = Some x → y ≠ x →
        DeserializePacket (<[i := y]> bytes)
        = Err (if decide (i < 4)%nat then ErrInvalidMagic
               else ErrChecksumVerificationFailed).
Proof.
  intros Hwf Hpay. unfold SerializePacket.
  destruct (decide (len (Payload p) > maxPayload)); [lia |].
  eexists _, _. split; [reflexivity |]. split; [reflexivity |].
  cbn [Checksum set_Checksum]. split.
  - rewrite DeserializePacket_body; [| done | apply ChecksumIEEE_u32].
    by destruct (decide _).
  - intros i x y. by apply DeserializePacket_corrupted.
Qed.

Lemma SerializePacket_round_trip_witness :
  let p := {| Version := currentVer; Type_ := PacketTypeData;
              SessionID := list_byte_of_string "session-12345678";
              ChunkID := 42; Seq := 7; Priority := x01;
              Payload := list_byte_of_string "hello world"; Checksum := 0 |} in
  (Packet_wf p ∧ len (Payload p) <= maxPayload)
  ∧ ∃ bytes p',
      SerializePacket p = (Ok bytes, p')
      ∧ DeserializePacket bytes = Ok p'
      ∧ DeserializePacket (<[48%nat := x00]> bytes) = Err ErrChecksumVerificationFailed.
Proof.
  intros p.
  assert (Packet_wf p) as Hwf by (unfold Packet_wf; simpl; lia).
  assert (len (Payload p) <= maxPayload) as Hpay by (vm_compute; discriminate).
  split; [done |].
  destruct (SerializePacket_round_trip p Hwf Hpay) as (bytes & p' & Hs & _ & Hd & Hc).
  exists bytes, p'. split; [exact Hs |]. split; [exact Hd |].
  apply (Hc 48%nat "d"%byte x00); [| discriminate].
  revert Hs. unfold SerializePacket.
  destruct (decide (len (Payload p) > maxPayload)); [lia |].
  intros [= <- _]. vm_compute. reflexivity.
Defined.

(** ** The erasure coder *)

(** Cutting a list into pieces of [sz] bytes and joining the first [n]
    of them gives its first [n * sz] bytes. *)
Lemma concat_pieces (sz : nat) (l : list byte) (n : nat) : ∀ k,
  concat ((λ i : nat, take sz (drop (i * sz) l)) <$> seq k n)
  = take (n * sz) (drop (k * sz) l).
Proof.
  induction n as [|n IH]; intros k; [done |].
  simpl. rewrite IH. rewrite <- take_take_drop, drop_drop.
  do 3 f_equal. lia.
Qed.

Lemma ceil_div_facts (n d : Z) :
  0 < n → 0 < d →
  0 < (n + d - 1) / d ∧ n <= d * ((n + d - 1) / d) < n + d.
Proof.
  intros Hn Hd.
  pose proof (Z.div_mod (n + d - 1) d ltac:(lia)).
  pose proof (Z.mod_pos_bound (n + d - 1) d Hd).
  assert (0 < (n + d - 1) / d) by (apply Z.div_str_pos; lia).
  lia.
Qed.

(** Shard [i] of [Encode] is the [i]-th piece of the buffer padded with
    zeros. *)
Lemma data_shard_piece (data : list byte) (sz i pad : nat) :
  (0 < sz)%nat →
  ((i + 1) * sz ≤ length data + pad)%nat →
  Z.of_nat ((i + 1) * sz) < 2 ^ 63 →
  data_shard data (Z.of_nat sz) (Z.of_nat i)
  = take sz (drop (i * sz) (data ++ replicate pad x00)).
Proof.
  intros Hsz Hpad Hbound. unfold data_shard, make_bytes, copy_bytes, len.
  rewrite (wrap64_small (Z.of_nat i * Z.of_nat sz)) by lia.
  rewrite (wrap64_small (Z.of_nat i * Z.of_nat sz + Z.of_nat sz)) by lia.
  rewrite Nat2Z.id, length_replicate.
  replace (Z.to_nat (Z.of_nat i * Z.of_nat sz)) with (i * sz)%nat by lia.
  destruct (decide (Z.of_nat i * Z.of_nat sz >= Z.of_nat (length data))) as [Hge|Hlt].
  - rewrite drop_app_ge by lia. rewrite drop_replicate, take_replicate.
    f_equal. lia.
  - rewrite drop_app_le by lia. rewrite take_app, length_drop, take_replicate.
    destruct (decide (Z.of_nat i * Z.of_nat sz + Z.of_nat sz > Z.of_nat (length data)))
      as [Hshort|Hfull].
    + rewrite Nat2Z.id.
      rewrite (take_ge (drop (i * sz) data)) by (rewrite length_drop; lia).
      rewrite (take_ge (drop (i * sz) data)) by (rewrite length_drop; lia).
      rewrite length_drop, drop_replicate. f_equal. f_equal. lia.
    + replace (Z.to_nat (Z.of_nat i * Z.of_nat sz + Z.of_nat sz) - i * sz)%nat
        with sz by lia.
      rewrite take_take, Nat.min_id, length_take, length_drop, drop_replicate.
      f_equal. f_equal. lia.
Qed.

(** The data shards that [Encode] builds, for a shard size that fits. *)
Lemma data_shards_pieces (data : list byte) (d sz : nat) :
  (0 < sz)%nat → (length data ≤ d * sz)%nat → Z.of_nat (d * sz) < 2 ^ 63 →
  let padded := data ++ replicate (d * sz - length data) x00 in
  (λ i : nat, data_shard data (Z.of_nat sz) (Z.of_nat i)) <$> seq 0 d
  = (λ i : nat, take sz (drop (i * sz) padded)) <$> seq 0 d.
Proof.
  intros Hsz Hlen Hbound padded. apply list_fmap_ext.
  intros k i Hi. apply lookup_seq in Hi as [Hi Hk]. simpl in Hi. subst i.
  assert ((k + 1) * sz ≤ d * sz)%nat by (apply Nat.mul_le_mono_r; lia).
  apply data_shard_piece; [done | lia | lia].
Qed.

Lemma pieces_length (padded : list byte) (d sz : nat) :
  length padded = (d * sz)%nat →
  Forall (λ s : list byte, length s = sz)
    ((λ i : nat, take sz (drop (i * sz) padded)) <$> seq 0 d).
Proof.
  intros Hlen. apply Forall_fmap, Forall_forall. intros i Hi.
  apply elem_of_seq in Hi. simpl. rewrite length_take, length_drop, Hlen.
  assert ((i + 1) * sz ≤ d * sz)%nat by (apply Nat.mul_le_mono_r; lia). lia.
Qed.

(** C9, amended. For a coder with parameters [(D, P)], both positive, whose
    stored shard size is 0 (as [NewErasureCoder] leaves it) or already
    [ceil(len(buf)/D)], a codec that keeps the library's promise, and a
    buffer that is not empty: [Encode(buf)] yields [D + P] shards, each of
    size [ceil(len(buf)/D)], whose first [D] shards are [buf] followed by
    zero padding, and stores that size in the coder; and for every way of
    setting at most [P] of the shards to nil, [Decode] returns [buf]
    followed by the padding, so its first [len(buf)] bytes are [buf]. *)
Theorem Encode_Decode_round_trip (e : ErasureCoder) (data : list byte) :
  0 < DataShards e →
  0 < ParityShards e →
  ShardSize e = 0 ∨ ShardSize e = ceil_div (len data) (DataShards e) →
  data ≠ [] →
  len data + DataShards e < 2 ^ 63 →
  DataShards e + ParityShards e < 2 ^ 63 →
  codec_ok (Z.to_nat (DataShards e)) (Z.to_nat (ParityShards e)) (codec e) →
  ∃ shards e',
    Encode e data = (Returns (Ok shards), e')
    ∧ e' = set_ShardSize e (ceil_div (len data) (DataShards e))
    ∧ len shards = DataShards e + ParityShards e
    ∧ Forall (λ s, len s = ceil_div (len data) (DataShards e)) shards
    ∧ concat (take (Z.to_nat (DataShards e)) shards)
      = data ++ replicate
                  (Z.to_nat (DataShards e * ceil_div (len data) (DataShards e)
                             - len data)) x00
    ∧ ∀ erased : list (option (list byte)),
        length erased = length shards →
        (∀ i s, erased !! i = Some (Some s) → shards !! i = Some s) →
        Z.of_nat (length (filter (λ s, s = None) erased)) <= ParityShards e →
        ∃ out,
          Decode e' erased = Ok out
          ∧ take (length data) out = data
          ∧ out = data ++ replicate
                            (Z.to_nat (DataShards e
                                       * ceil_div (len data) (DataShards e)
                                       - len data)) x00.
Proof.
  intros HD HP Hss Hdata Hb1 Hb2 Hcodec.
  assert (0 < len data) as Hlen.
  { unfold len. destruct data; [done | simpl; lia]. }
  destruct (ceil_div_facts (len data) (DataShards e) Hlen HD) as (Hsz & Hlo & Hhi).
  fold (ceil_div (len data) (DataShards e)) in Hsz, Hlo, Hhi.
  set (szZ := ceil_div (len data) (DataShards e)) in *.
  set (d := Z.to_nat (DataShards e)) in *.
  set (p := Z.to_nat (ParityShards e)) in *.
  set (sz := Z.to_nat szZ).
  assert (Z.of_nat d = DataShards e) as Hd by (unfold d; lia).
  assert (Z.of_nat p = ParityShards e) as Hp' by (unfold p; lia).
  assert (Z.of_nat sz = szZ) as Hszeq by (unfold sz; lia).
  assert (Z.of_nat (d * sz) = DataShards e * szZ) as Hdsz' by lia.
  assert (Z.of_nat (length data) = len data) as Hlendata by done.
  set (padded := data ++ replicate (d * sz - length data) x00).
  assert (length padded = (d * sz)%nat) as Hpadded.
  { unfold padded. rewrite length_app, length_replicate. lia. }
  set (dshards := (λ i : nat, take sz (drop (i * sz) padded)) <$> seq 0 d).
  assert (length dshards = d) as Hdl by (unfold dshards; by rewrite length_fmap, length_seq).
  assert (Forall (λ s : list byte, length s = sz) dshards) as Hdsz
    by (by apply pieces_length).
  assert (concat dshards = padded) as Hcat.
  { unfold dshards. rewrite concat_pieces. simpl.
    rewrite drop_0, take_ge; [done | lia]. }
  destruct (Hcodec dshards (replicate p (make_bytes szZ)) sz)
    as (parity & Henc & Hpl & Hpsz & Hrec).
  { done. }
  { by rewrite length_replicate. }
  { lia. }
  { apply Forall_app. split; [done |]. apply Forall_replicate.
    unfold make_bytes. by rewrite length_replicate. }
  (* the call of [Encode] *)
  assert (Encode e data = (Returns (Ok (dshards ++ parity)), set_ShardSize e szZ))
    as HE.
  { unfold Encode. destruct (decide (DataShards e = 0)); [lia |].
    assert ((if decide (ShardSize e = 0) then CalculateShardSize e (len data)
             else (ShardSize e, e)) = (szZ, set_ShardSize e szZ)) as ->.
    { destruct (decide (ShardSize e = 0)) as [E0|E0].
      - unfold CalculateShardSize. destruct (decide (len data <= 0)); [lia |].
        rewrite wrap64_small by lia.
        rewrite Z.quot_div_nonneg by lia. done.
      - destruct Hss as [|Hss]; [done |]. rewrite Hss.
        f_equal. unfold set_ShardSize. destruct e; simpl in *. by rewrite Hss. }
    rewrite wrap64_small by lia.
    destruct (decide (_ ∨ _ ∨ _ ∨ _)) as [Hneg|_]; [lia |].
    fold d p.
    pose proof (data_shards_pieces data d sz ltac:(lia) ltac:(lia) ltac:(lia)) as Hp.
    simpl in Hp. replace (Z.of_nat sz) with szZ in Hp by lia.
    rewrite Hp. fold padded dshards. by rewrite Henc. }
  exists (dshards ++ parity), (set_ShardSize e szZ).
  split; [exact HE |]. split; [done |].
  assert (Z.to_nat (DataShards e * szZ - len data) = (d * sz - length data)%nat) as Hpadn
    by (unfold len; lia).
  rewrite Hpadn. fold padded.
  split. { unfold len. rewrite length_app, Hdl, Hpl. lia. }
  split.
  { apply Forall_app. split; (eapply Forall_impl; [eassumption |]);
      intros s Hs; cbv beta in Hs |- *; unfold len; lia. }
  split. { by rewrite take_app_length', Hcat. }
  intros erased Hel Hsome Hnone.
  unfold Decode. simpl.
  destruct (decide (len erased ≠ wrap64 (DataShards e + ParityShards e))) as [Hne|_].
  { exfalso. apply Hne. rewrite wrap64_small by lia.
    unfold len. rewrite Hel, length_app, Hdl, Hpl. lia. }
  rewrite Hrec; [| rewrite Hel, length_app; lia | done | lia].
  exists padded. fold d. rewrite take_app_length', Hcat by done.
  split; [done |]. split; [| done].
  unfold padded. by rewrite take_app_length.
Qed.

(** The repetition code keeps the promise of a codec with one data shard. *)
Lemma fmap_const_replicate {A B} (l : list A) (b : B) :
  (λ _, b) <$> l = replicate (length l) b.
Proof. induction l as [|a l IH]; [done |]. simpl. by rewrite <- IH. Qed.

Lemma omap_id_nil (l : list (option (list byte))) :
  omap id l = [] → length (filter (λ s, s = None) l) = length l.
Proof.
  induction l as [|[s|] l IH]; [done | |].
  - intros H. simpl in H. discriminate.
  - intros H. rewrite filter_cons_True by done. simpl. f_equal. by apply IH.
Qed.

Lemma repetition_codec_ok (P : nat) : codec_ok 1 P repetition_codec.
Proof.
  intros dshards pshards sz Hd Hp Hsz Hall.
  destruct dshards as [|d [|]]; try done. clear Hd.
  apply Forall_cons in Hall as [Hdsz Hall]. simpl in Hall.
  exists ((λ _, d) <$> pshards).
  assert (d ≠ []) as Hne by (intros ->; simpl in Hdsz; lia).
  split; [| split; [| split]].
  - simpl. destruct (decide (d = [] ∨ ¬ Forall (λ s, length s = length d) pshards))
      as [[?|Hno]|_]; [done | | done].
    exfalso. apply Hno. eapply Forall_impl; [exact Hall |].
    intros s Hs. simpl in *. lia.
  - by rewrite length_fmap.
  - apply Forall_fmap, Forall_forall. by intros.
  - intros erased Hlen Hsome Hnone. simpl. unfold repetition_Reconstruct.
    assert (∀ s, s ∈ omap id erased → s = d) as Hall_d.
    { intros s Hs. apply list_elem_of_omap in Hs as (o & Ho & Hos).
      simpl in Hos. subst o. apply list_elem_of_lookup in Ho as [i Hi].
      apply Hsome in Hi.
      assert (s ∈ d :: ((λ _, d) <$> pshards)) as Hin
        by (apply list_elem_of_lookup; eauto).
      apply elem_of_cons in Hin as [-> | Hin]; [done |].
      by apply list_elem_of_fmap in Hin as (? & -> & _). }
    destruct (omap id erased) as [|d' rest] eqn:Hom.
    + apply omap_id_nil in Hom. lia.
    + rewrite (Hall_d d') by left.
      rewrite !fmap_const_replicate, Hlen, Hp. reflexivity.
Qed.

(** C9, as stated, fails on a coder that has been used: [Encode] takes the
    shard size stored by an earlier call. After encoding one byte, the
    coder encodes a buffer of two bytes into shards of size 1, not
    [ceil(2/1) = 2]; the second byte is in no shard, and [Decode] of all the
    shards returns one byte. *)
Lemma Encode_reuses_stored_shard_size :
  let e0 := {| DataShards := 1; ParityShards := 1; ShardSize := 0;
               codec := repetition_codec |} in
  let e1 := (Encode e0 [x07]).2 in
  let r := Encode e1 [x01; x02] in
  (Encode e0 [x07]).1 = Returns (Ok [[x07]; [x07]])
  ∧ ShardSize e1 = 1
  ∧ r.1 = Returns (Ok [[x01]; [x01]])
  ∧ ceil_div (len [x01; x02]) (DataShards e1) = 2
  ∧ ¬ Forall (λ s, len s = ceil_div (len [x01; x02]) (DataShards e1)) [[x01]; [x01]]
  ∧ Decode r.2 [Some [x01]; Some [x01]] = Ok [x01]
  ∧ take 2 [x01] ≠ [x01; x02].
Proof.
  split; [vm_compute; reflexivity |]. split; [vm_compute; reflexivity |].
  split; [vm_compute; reflexivity |]. split; [vm_compute; reflexivity |].
  split.
  { intros H. apply Forall_cons in H as [H _]. vm_compute in H. discriminate. }
  split; [vm_compute; reflexivity | discriminate].
Qed.

Lemma Encode_Decode_round_trip_witness :
  let e := {| DataShards := 1; ParityShards := 2; ShardSize := 0;
              codec := repetition_codec |} in
  let data := list_byte_of_string "hello" in
  codec_ok 1 2 repetition_codec
  ∧ ∃ shards e' out,
      Encode e data = (Returns (Ok shards), e')
      ∧ Decode e' [None; Some data; None] = Ok out
      ∧ take (length data) out = data.
Proof.
  intros e data. split; [apply repetition_codec_ok |].
  destruct (Encode_Decode_round_trip e data) as (shards & e' & HE & _ & _ & _ & _ & Hdec).
  - simpl; lia.
  - simpl; lia.
  - by left.
  - done.
  - vm_compute; reflexivity.
  - vm_compute; reflexivity.
  - apply repetition_codec_ok.
  - assert (shards = [data; data; data]) as Hshards.
    { assert (Encode e data = (Returns (Ok [data; data; data]), set_ShardSize e 5)) as HE'
        by (vm_compute; reflexivity).
      rewrite HE' in HE. by injection HE as <- _. }
    subst shards.
    destruct (Hdec [None; Some data; None]) as (out & Hout & Htake & _).
    + reflexivity.
    + intros [|[|[|i]]] s; simpl; intros [= <-]; reflexivity.
    + vm_compute. discriminate.
    + by exists [data; data; data], e', out.
Defined.

(** ** Compression *)

Example zstd_frame_raw_decodes : zstd_DecodeAll_stored zstd_frame_raw = Some [x61].
Proof. vm_compute. reflexivity. Qed.

Example zstd_frame_rle_decodes : zstd_DecodeAll_stored zstd_frame_rle = Some [x61].
Proof. vm_compute. reflexivity. Qed.

Example zstd_two_raw_blocks_decode :
  zstd_DecodeAll_stored
    [x28; xb5; x2f; xfd; x20; x02; x08; x00; x00; x61; x09; x00; x00; x62]
  = Some [x61; x62].
Proof. vm_compute. reflexivity. Qed.

Example zstd_truncated_frame_refused :
  zstd_DecodeAll_stored [x28; xb5; x2f; xfd; x20; x01; x09; x00; x00] = None.
Proof. vm_compute. reflexivity. Qed.




(** * More of the code: theorems *)

(** ** The session store: creation, lookup and restart *)

Lemma CreateSession_valid_session f id now :
  FileMetadata_Validate f = None → id ≠ "" →
  TransferSession_Validate
    {| ts_ID := id; ts_File := f; ts_Status := SessionStatusCreated;
       ts_Chunks := Some ∅; ts_CreatedAt := now; ts_UpdatedAt := now;
       ts_CompletedAt := None; ts_TotalChunks := 0; ts_Completed := 0;
       ts_Failed := 0; ts_BytesSent := 0; ts_BytesReceived := 0 |} = None.
Proof.
  intros Hf Hid. apply TransferSession_Validate_None. simpl.
  repeat split; try done; lia.
Qed.



(** X2. When the save fails, [CreateSession] returns the error, but the
    session has already been entered in the manager's map: [GetSession]
    finds a session that no file of the directory holds, and every session
    file is as it was. *)
Theorem CreateSession_failed_save_is_registered m w f id now fault :
  FileMetadata_Validate f = None → id ≠ "" → fault ≠ NoFault →
  ∃ e m' w' s,
    CreateSession m w f id now fault = (Err e, m', w')
    ∧ GetSession m' id = Ok (length (w_heap w))
    ∧ w_heap w' !! length (w_heap w) = Some s
    ∧ ts_ID s = id ∧ ts_File s = f
    ∧ (∀ id', LoadSession (w_sessions_dir w') id' = LoadSession (w_sessions_dir w) id').
Proof.
  intros Hf Hid Hfault. pose proof (CreateSession_valid_session f id now Hf Hid) as HV.
  unfold CreateSession. rewrite Hf, HV. unfold SaveSession.
  destruct (saveLocked fault _ _) as [[e|] d] eqn:Hsave.
  2:{ apply saveLocked_ok_inv in Hsave as (_ & ? & _). done. }
  eexists e, _, _, _. split; [reflexivity |]. simpl.
  split. { unfold GetSession. simpl. by rewrite lookup_insert_eq. }
  split. { by rewrite lookup_app_r, Nat.sub_diag. }
  do 2 (split; [reflexivity |]).
  intros id'. unfold LoadSession.
  by rewrite (saveLocked_error_keeps_files _ _ _ _ _ id' Hsave).
Qed.

Lemma CreateSession_failed_save_is_registered_witness :
  ∃ e m' w',
    CreateSession {| sessions := ∅; baseDir := "sessions" |} empty_World
      example_file example_id 100 RenameFails = (Err e, m', w')
    ∧ GetSession m' example_id = Ok 0%nat
    ∧ LoadSession (w_sessions_dir w') example_id = Err ErrOpenSessionFile.
Proof.
  destruct (CreateSession_failed_save_is_registered
              {| sessions := ∅; baseDir := "sessions" |}
              empty_World example_file example_id 100 RenameFails)
    as (e & m' & w' & s & HC & HG & _ & _ & _ & HL); [done | done | done |].
  exists e, m', w'. split; [exact HC |]. split; [exact HG |].
  rewrite HL. reflexivity.
Defined.

(** ** The session store: chunk entries, missing chunks and checkpoints *)



Lemma elem_of_filter_keys (P : string * ChunkMetadata → Prop) `{∀ x, Decision (P x)}
    (chunks : gmap string ChunkMetadata) (k : string) :
  k ∈ (filter P (map_to_list chunks)).*1 ↔ ∃ c, chunks !! k = Some c ∧ P (k, c).
Proof.
  rewrite list_elem_of_fmap. split.
  - intros ([k' c] & -> & Hin). apply list_elem_of_filter in Hin as [HP Hin].
    apply elem_of_map_to_list in Hin. eauto.
  - intros (c & Hc & HP). exists (k, c). split; [done |].
    apply list_elem_of_filter. split; [done |]. by apply elem_of_map_to_list.
Qed.

Lemma elem_of_GetMissingChunks m w sid p s cid :
  sessions m !! sid = Some p →
  w_heap w !! p = Some s →
  cid ∈ GetMissingChunks m w sid
  ↔ ∃ c, default ∅ (ts_Chunks s) !! cid = Some c ∧ cm_Status c ≠ ChunkStatusCompleted.
Proof.
  intros Hp Hs. unfold GetMissingChunks. rewrite Hp, Hs.
  apply (elem_of_filter_keys (λ kv, cm_Status kv.2 ≠ ChunkStatusCompleted)).
Qed.

(** X4. After [UpdateChunkStatus(session, c, st)], whether or not the save
    succeeded, chunk [c] is among the missing chunks of the session exactly
    when [st] is not [completed], and every other chunk is missing exactly
    when it was missing before. *)
Theorem GetMissingChunks_after_update m w sid cid st now fault p s :
  sessions m !! sid = Some p →
  w_heap w !! p = Some s →
  ts_Chunks s ≠ None →
  (cid ∈ GetMissingChunks m (UpdateChunkStatus m w sid cid st now fault).2 sid
   ↔ st ≠ ChunkStatusCompleted)
  ∧ ∀ cid', cid' ≠ cid →
      (cid' ∈ GetMissingChunks m (UpdateChunkStatus m w sid cid st now fault).2 sid
       ↔ cid' ∈ GetMissingChunks m w sid).
Proof.
  intros Hp Hs Hc.
  destruct (update_in_memory s cid st now) as [s1|] eqn:Hu.
  2:{ unfold update_in_memory in Hu. by destruct (ts_Chunks s). }
  pose proof (UpdateChunkStatus_heap m w sid cid st now fault p s s1 Hp Hs Hu) as Hh.
  assert (w_heap (UpdateChunkStatus m w sid cid st now fault).2 !! p = Some s1) as Hs1.
  { rewrite Hh. apply list_lookup_insert_eq. by eapply lookup_lt_Some. }
  apply update_in_memory_spec in Hu as (chunks & c & Hch & Hch1 & Hst & _).
  split.
  - rewrite (elem_of_GetMissingChunks _ _ _ _ _ _ Hp Hs1), Hch1. simpl.
    rewrite lookup_insert_eq. split.
    + intros (c' & [= <-] & Hne). by rewrite Hst in Hne.
    + intros Hne. exists c. by rewrite Hst.
  - intros cid' Hne.
    rewrite (elem_of_GetMissingChunks _ _ _ _ _ _ Hp Hs1),
      (elem_of_GetMissingChunks _ _ _ _ _ _ Hp Hs), Hch1, Hch. simpl.
    by rewrite lookup_insert_ne.
Qed.

Lemma GetMissingChunks_after_update_witness :
  "0" ∈ GetMissingChunks example_manager
          (UpdateChunkStatus example_manager example_world example_id "0"
             ChunkStatusFailed 101 NoFault).2 example_id
  ∧ ¬ "0" ∈ GetMissingChunks example_manager
          (UpdateChunkStatus example_manager example_world example_id "0"
             ChunkStatusCompleted 101 OpenFails).2 example_id.
Proof.
  assert (∀ st fault,
    "0" ∈ GetMissingChunks example_manager
            (UpdateChunkStatus example_manager example_world example_id "0"
               st 101 fault).2 example_id
    ↔ st ≠ ChunkStatusCompleted) as H.
  { intros st fault.
    apply (GetMissingChunks_after_update example_manager example_world example_id "0"
             st 101 fault 0%nat
             {| ts_ID := example_id; ts_File := example_file;
                ts_Status := SessionStatusCreated; ts_Chunks := Some ∅;
                ts_CreatedAt := 100; ts_UpdatedAt := 100; ts_CompletedAt := None;
                ts_TotalChunks := 0; ts_Completed := 0; ts_Failed := 0;
                ts_BytesSent := 0; ts_BytesReceived := 0 |});
      [vm_compute; reflexivity | vm_compute; reflexivity | done]. }
  split.
  - apply H. discriminate.
  - intros Hin. by apply H in Hin.
Defined.

Lemma string_app_nil_r (x : string) : x +:+ "" = x.
Proof.
  induction x as [|a x IH]; [reflexivity |].
  change (String a (x +:+ "") = String a x). by rewrite IH.
Qed.

Lemma session_path_not_checkpoint (id : string) (suffix : string) :
  session_path id ≠ checkpoint_path id +:+ suffix.
Proof.
  unfold session_path, checkpoint_path. intros E.
  apply (f_equal String.length) in E.
  rewrite !string_length_app in E. simpl in E. lia.
Qed.

(** X5. [PersistCheckpoint] writes, under [id.checkpoint.json], a document
    with the session's id and total, in which every chunk id of the session
    is listed once: among the completed ones when its status is
    [completed], among the pending ones otherwise, and the pending ones are
    the ids [GetMissingChunks] returns. The session objects in memory and
    the session's own file are not touched. *)
Theorem PersistCheckpoint_contents m w sid now p s :
  sessions m !! sid = Some p →
  w_heap w !! p = Some s →
  ∃ cp w',
    PersistCheckpoint m w sid now NoFault = (Returns None, w')
    ∧ w_sessions_dir w' !! checkpoint_path (ts_ID s) = Some (EFile (CheckpointJSON cp))
    ∧ cp_SessionID cp = ts_ID s
    ∧ cp_TotalChunks cp = ts_TotalChunks s
    ∧ cp_LastUpdateTime cp = now
    ∧ (∀ cid, cid ∈ cp_CompletedChunks cp
         ↔ ∃ c, default ∅ (ts_Chunks s) !! cid = Some c
                ∧ cm_Status c = ChunkStatusCompleted)
    ∧ cp_PendingChunks cp ≡ₚ GetMissingChunks m w sid
    ∧ cp_CompletedChunks cp ++ cp_PendingChunks cp
      ≡ₚ (map_to_list (default ∅ (ts_Chunks s))).*1
    ∧ NoDup (cp_CompletedChunks cp ++ cp_PendingChunks cp)
    ∧ w_heap w' = w_heap w
    ∧ w_sessions_dir w' !! session_path (ts_ID s)
      = w_sessions_dir w !! session_path (ts_ID s).
Proof.
  intros Hp Hs. unfold PersistCheckpoint, GetMissingChunks. rewrite Hp, Hs.
  set (l := map_to_list (default ∅ (ts_Chunks s))).
  assert ((filter (λ kv : string * ChunkMetadata, cm_Status kv.2 = ChunkStatusCompleted) l).*1
          ++ (filter (λ kv : string * ChunkMetadata, cm_Status kv.2 ≠ ChunkStatusCompleted) l).*1
          ≡ₚ l.*1) as Hperm.
  { rewrite <- fmap_app. apply fmap_Permutation.
    apply (filter_app_complement
             (λ kv : string * ChunkMetadata, cm_Status kv.2 = ChunkStatusCompleted)). }
  eexists _, _. split; [reflexivity |]. simpl.
  split; [apply lookup_insert_eq |].
  do 3 (split; [reflexivity |]).
  split.
  { intros cid.
    apply (elem_of_filter_keys (λ kv, cm_Status kv.2 = ChunkStatusCompleted)). }
  split; [reflexivity |].
  split; [exact Hperm |].
  split. { rewrite Hperm. apply NoDup_fst_map_to_list. }
  split; [reflexivity |].
  rewrite lookup_insert_ne.
  - rewrite lookup_delete_ne; [done |]. apply not_eq_sym, session_path_not_checkpoint.
  - intros E. apply (session_path_not_checkpoint (ts_ID s) "").
    by rewrite string_app_nil_r.
Qed.

Lemma PersistCheckpoint_contents_witness :
  ∃ cp w',
    PersistCheckpoint example_manager
      (UpdateChunkStatus example_manager example_world example_id "0"
         ChunkStatusCompleted 101 NoFault).2 example_id 102 NoFault
    = (Returns None, w')
    ∧ w_sessions_dir w' !! checkpoint_path example_id = Some (EFile (CheckpointJSON cp))
    ∧ "0" ∈ cp_CompletedChunks cp
    ∧ cp_PendingChunks cp ≡ₚ [].
Proof.
  destruct (PersistCheckpoint_contents example_manager
              (UpdateChunkStatus example_manager example_world example_id "0"
                 ChunkStatusCompleted 101 NoFault).2 example_id 102 0%nat
              {| ts_ID := example_id; ts_File := example_file;
                 ts_Status := SessionStatusCreated;
                 ts_Chunks :=
                   Some {[ "0" := chunk_set_Status
                                    {| cm_ID := "0"; cm_Size := 0; cm_Offset := 0;
                                       cm_SHA256 := ""; cm_IsParity := false;
                                       cm_Status := ""; cm_UpdatedAt := 0;
                                       cm_CreatedAt := 101; cm_SessionID := "";
                                       cm_Priority := 0; cm_RetryCount := 0;
                                       cm_Error := "" |} ChunkStatusCompleted 101 ]};
                 ts_CreatedAt := 100; ts_UpdatedAt := 101; ts_CompletedAt := None;
                 ts_TotalChunks := 0; ts_Completed := 1; ts_Failed := 0;
                 ts_BytesSent := 0; ts_BytesReceived := 0 |})
    as (cp & w' & HP & Hfile & _ & _ & _ & Hcomp & Hpend & _).
  - vm_compute; reflexivity.
  - vm_compute; reflexivity.
  - exists cp, w'. split; [exact HP |]. split; [exact Hfile |]. split.
    + apply Hcomp. eexists. split; [apply lookup_singleton_eq | reflexivity].
    + rewrite Hpend. vm_compute. reflexivity.
Defined.




(** ** The chunker: the descriptors in closed form *)

Lemma ceil_div_unique (x n k : Z) :
  0 < n → (k - 1) * n < x <= k * n → ceil_div x n = k.
Proof.
  intros Hn Hx. unfold ceil_div. symmetry.
  apply (Z.div_unique_pos _ _ _ (x + n - 1 - n * k)); lia.
Qed.

Lemma ChunkFile_loop_layout (data : list byte) (n : nat) (now : Time) (fault : FileFault) :
  (0 < n)%nat → len data < 2 ^ 63 →
  fault ≠ FileOpenFails → fault ≠ FileStatFails →
  ∀ fuel rest pre res,
    data = pre ++ rest →
    (length rest < fuel)%nat →
    length pre = (length res * n)%nat →
    res = [] ∨ rest ≠ [] →
    res = chunk_descriptor data (Z.of_nat n) now <$> seq 0 (length res) →
    ChunkFile_loop fuel fault n (len data) now rest (len pre) (len res) res
    = Some (ChunkFile_result fault (len res) (ceil_div (len data) (Z.of_nat n))
              (chunk_descriptor data (Z.of_nat n) now
                 <$> seq 0 (Z.to_nat (ceil_div (len data) (Z.of_nat n))))).
Proof.
  intros Hn Hsize Hf1 Hf2.
  induction fuel as [|fuel IH]; intros rest pre res Hdata Hfuel Hpre Hne Hres; [lia |].
  assert (len data = len pre + len rest) as Hlendata.
  { unfold len. rewrite Hdata, length_app. lia. }
  assert (len pre = len res * Z.of_nat n) as Hpre' by (unfold len; lia).
  set (count := ceil_div (len data) (Z.of_nat n)).
  assert (rest ≠ [] → len res < count) as Hcount.
  { intros Hr. destruct (decide (len res < count)) as [|Hge]; [done |]. exfalso.
    assert (0 < len rest) by (unfold len; destruct rest; [done | simpl; lia]).
    assert (0 <= len res) by (unfold len; lia).
    destruct (ceil_div_facts (len data) (Z.of_nat n)) as (_ & Hc & _); [lia | lia |].
    fold (ceil_div (len data) (Z.of_nat n)) in Hc. fold count in Hc. nia. }
  simpl.
  destruct (decide (fault = ReadFailsAt (len res))) as [->|Hnofault].
  { simpl. destruct (decide (len res <= len res < Z.max 1 count)) as [|Hno]; [done |].
    exfalso. apply Hno. split; [lia |].
    destruct Hne as [-> | Hr]; [unfold len; simpl; lia |]. apply Hcount in Hr. lia. }
  destruct rest as [|b rest0].
  { (* nothing is left: the read returns EOF with no byte *)
    rewrite take_nil. simpl.
    destruct (decide (0%nat = n)); [lia |].
    destruct (decide (ReadEOF ≠ ReadNil ∧ len (@nil byte) = 0)) as [_|Hno];
      [| destruct Hno; done].
    destruct Hne as [-> | ?]; [| done].
    assert (count = 0) as Hc0.
    { unfold count. apply ceil_div_unique; [lia |]. unfold len in *. simpl in *. lia. }
    rewrite Hc0. simpl. f_equal.
    unfold ChunkFile_result. destruct fault as [| | |k]; try done.
    destruct (decide (len (@nil ChunkMetadata) <= k < Z.max 1 0)) as [Hk|]; [| done].
    exfalso. apply Hnofault. f_equal. unfold len in *. simpl in *. lia. }
  set (rest := b :: rest0) in *.
  specialize (Hcount ltac:(done)).
  set (chunk := take n rest).
  assert (0 < length chunk ≤ n)%nat as Hlen.
  { unfold chunk. rewrite length_take. subst rest. simpl. lia. }
  assert (length chunk = Nat.min n (length rest)) as Hchunk
    by (unfold chunk; apply length_take).
  match goal with |- context [decide (?P ∧ len chunk = 0)] =>
    destruct (decide (P ∧ len chunk = 0)) as [[_ H0]|_] end.
  { unfold len in H0. lia. }
  match goal with |- context [res ++ [?x]] => set (meta := x) end.
  assert (meta = chunk_descriptor data (Z.of_nat n) now (length res)) as Hmeta.
  { unfold meta, chunk_descriptor. f_equal; [unfold len in *; lia .. |].
    unfold CalculateChunkHash. by rewrite Nat2Z.id, <- Hpre, Hdata, drop_app_length. }
  assert (res ++ [meta]
          = chunk_descriptor data (Z.of_nat n) now <$> seq 0 (length (res ++ [meta])))
    as Hres'.
  { rewrite length_app. simpl. rewrite Nat.add_1_r, seq_S, fmap_app. simpl.
    by rewrite <- Hres, Hmeta. }
  rewrite (wrap64_small (len pre + len chunk)) by (unfold len in *; lia).
  rewrite (wrap64_small (len res + 1)) by (unfold len in *; lia).
  destruct (decide (len pre + len chunk >= len data)) as [Hend|Hmore].
  { (* the file is exhausted *)
    assert (count = len res + 1) as Hc.
    { unfold count. apply ceil_div_unique; [lia |]. unfold len in *. nia. }
    rewrite Hc.
    replace (Z.to_nat (len res + 1)) with (length (res ++ [meta]))
      by (rewrite length_app; unfold len; simpl; lia).
    rewrite <- Hres'. f_equal.
    unfold ChunkFile_result. destruct fault as [| | |k]; try done.
    destruct (decide (len res <= k < Z.max 1 (len res + 1))) as [Hk|]; [| done].
    exfalso. apply Hnofault. f_equal. unfold len in *. lia. }
  assert (length chunk = n) as Hfull by (unfold len in *; lia).
  destruct (decide (length chunk = n)) as [_|]; [| done].
  destruct (decide (ReadNil = ReadEOF)) as [|_]; [done |].
  replace (len pre + len chunk) with (len (pre ++ chunk))
    by (unfold len; rewrite length_app; lia).
  replace (len res + 1) with (len (res ++ [meta]))
    by (unfold len; rewrite length_app; simpl; lia).
  rewrite (IH (drop n rest) (pre ++ chunk) (res ++ [meta])).
  - f_equal. unfold ChunkFile_result. destruct fault as [| | |k]; try done.
    fold count.
    assert (len (res ++ [meta]) = len res + 1) as Hl
      by (unfold len; rewrite length_app; simpl; lia).
    rewrite Hl.
    destruct (decide (len res + 1 <= k < Z.max 1 count)) as [Hk|Hk];
      destruct (decide (len res <= k < Z.max 1 count)) as [Hk'|Hk']; try done; [lia |].
    exfalso. apply Hnofault. f_equal. lia.
  - rewrite <- app_assoc. unfold chunk. by rewrite take_drop.
  - rewrite length_drop. lia.
  - rewrite !length_app. simpl. lia.
  - right. assert (length (drop n rest) ≠ 0%nat) as Hd
      by (rewrite length_drop; unfold len in *; lia).
    by intros E; rewrite E in Hd.
  - exact Hres'.
Qed.

(** [ChunkFile] with a positive effective chunk size. *)
Lemma ChunkFile_run cfg (fault : FileFault) (data : list byte) (T : Z) (now : Time) :
  0 < clamp_chunk_size cfg T → len data < 2 ^ 63 →
  fault ≠ FileOpenFails → fault ≠ FileStatFails →
  ChunkFile cfg fault data T now
  = Some (Returns
            (ChunkFile_result fault 0
               (ceil_div (len data) (clamp_chunk_size cfg T))
               (chunk_descriptor data (clamp_chunk_size cfg T) now
                  <$> seq 0 (Z.to_nat (ceil_div (len data) (clamp_chunk_size cfg T)))))).
Proof.
  intros Hcs Hsize Hf1 Hf2. unfold ChunkFile, ChunkFile_fuel.
  set (cs := clamp_chunk_size cfg T) in *.
  destruct (decide (cs < 0)); [lia |].
  pose proof (ChunkFile_loop_layout data (Z.to_nat cs) now fault ltac:(lia) Hsize Hf1 Hf2
                (S (length data)) data [] [] eq_refl ltac:(lia) eq_refl
                ltac:(by left) eq_refl) as Hloop.
  rewrite Z2Nat.id in Hloop by lia. change (len []) with 0 in Hloop.
  destruct fault; try done; by rewrite Hloop.
Qed.

(** ** Decimal ids and hexadecimal hashes *)

Lemma to_int_not_nil (z : Z) :
  Z.to_int z ≠ Decimal.Pos Decimal.Nil ∧ Z.to_int z ≠ Decimal.Neg Decimal.Nil.
Proof.
  destruct z as [|p|p]; simpl; (split; [| try done]); try done;
    intros [= E]; by apply Unsigned.to_uint_nonnil in E.
Qed.

Lemma Sprintf_d_parse (z : Z) : NilZero.int_of_string (Sprintf_d z) = Some (Z.to_int z).
Proof.
  unfold Sprintf_d. destruct (to_int_not_nil z). by apply NilZero.isi.
Qed.

Lemma Sprintf_d_inj (a b : Z) : Sprintf_d a = Sprintf_d b → a = b.
Proof.
  intros E. apply (f_equal NilZero.int_of_string) in E.
  rewrite !Sprintf_d_parse in E. injection E as E. by apply to_int_inj.
Qed.

Lemma Sprintf_d_not (z : Z) (s : string) :
  NilZero.int_of_string s = None → Sprintf_d z ≠ s.
Proof. intros Hs E. rewrite <- E, Sprintf_d_parse in Hs. discriminate. Qed.

Lemma length_hex_EncodeToString (bs : list byte) :
  String.length (hex_EncodeToString bs) = (2 * length bs)%nat.
Proof.
  induction bs as [|b bs IH]; [done |].
  change (hex_EncodeToString (b :: bs))
    with (String (hex_digit (byte_to_Z b / 16))
            (String (hex_digit (byte_to_Z b mod 16)) (hex_EncodeToString bs))).
  simpl. rewrite IH. lia.
Qed.

Lemma length_sha_round (st : list Z) (kw : Z * Z) :
  length st = 8%nat → length (sha_round st kw) = 8%nat.
Proof.
  intros H. do 8 (destruct st as [|? st]; [discriminate H |]).
  by destruct st.
Qed.

Lemma length_sha_block (h : list Z) (block : list byte) :
  length h = 8%nat → length (sha_block h block) = 8%nat.
Proof.
  intros H. unfold sha_block. rewrite length_zip_with.
  assert (∀ l st, length st = 8%nat → length (fold_left sha_round l st) = 8%nat) as Hf.
  { induction l as [|kw l IH]; intros st Hst; [done |]. simpl.
    by apply IH, length_sha_round. }
  rewrite Hf by done. lia.
Qed.

Lemma length_sha_blocks (n : nat) : ∀ h msg,
  length h = 8%nat → length (sha_blocks n h msg) = 8%nat.
Proof.
  induction n as [|n IH]; intros h msg H; [done |].
  simpl. by apply IH, length_sha_block.
Qed.

(** A digest has 32 bytes. *)
Lemma length_sha256_Sum256 (data : list byte) : length (sha256_Sum256 data) = 32%nat.
Proof.
  unfold sha256_Sum256.
  pose proof (length_sha_blocks (length (sha_pad data) / 64) sha_H0 (sha_pad data) eq_refl)
    as H.
  destruct (sha_blocks _ _ _) as [|a h]; [discriminate H |].
  do 7 (destruct h as [|? h]; [discriminate H |]).
  destruct h; [| discriminate H].
  cbn [flat_map]. rewrite !length_app, !length_be_bytes. done.
Qed.

(** ** The chunker: its results *)

Lemma chunk_descriptor_size (data : list byte) (cs : Z) (now : Time) (i : nat) :
  0 < cs → 0 <= len data →
  Z.of_nat i < ceil_div (len data) cs →
  0 < cm_Size (chunk_descriptor data cs now i) <= cs
  ∧ (Z.of_nat i + 1 < ceil_div (len data) cs →
     cm_Size (chunk_descriptor data cs now i) = cs).
Proof.
  intros Hcs Hlen Hi. simpl.
  destruct (decide (len data = 0)) as [E0|Hne].
  { rewrite E0 in Hi. unfold ceil_div in Hi. rewrite Z.div_small in Hi by lia. lia. }
  destruct (ceil_div_facts (len data) cs) as (Hpos & Hlo & Hhi); [lia | lia |].
  fold (ceil_div (len data) cs) in Hpos, Hlo, Hhi.
  set (count := ceil_div (len data) cs) in *.
  split; [nia |]. intros Hi'. nia.
Qed.



(** X8. Every descriptor [ChunkFile] returns passes
    [ChunkMetadata.Validate]; the ids of the descriptors are pairwise
    distinct, none is the id of the file metadata frame, and every hash has
    64 characters. *)
Theorem ChunkFile_descriptors_validate cfg (data : list byte) (T : Z) (now : Time) :
  0 < clamp_chunk_size cfg T →
  len data < 2 ^ 63 →
  ∃ chunks,
    ChunkFile cfg FileOk data T now = Some (Returns (Ok chunks))
    ∧ Forall (λ c, ChunkMetadata_Validate c = None) chunks
    ∧ NoDup (cm_ID <$> chunks)
    ∧ Forall (λ c, cm_ID c ≠ "__filemeta__") chunks
    ∧ Forall (λ c, String.length (cm_SHA256 c) = 64%nat) chunks.
Proof.
  intros Hcs Hsize. eexists. split.
  { exact (ChunkFile_run cfg FileOk data T now Hcs Hsize ltac:(done) ltac:(done)). }
  assert (0 <= len data) as Hlen by (unfold len; lia).
  set (cs := clamp_chunk_size cfg T) in *.
  set (count := ceil_div (len data) cs).
  assert (∀ i, String.length (cm_SHA256 (chunk_descriptor data cs now i)) = 64%nat)
    as Hsha.
  { intros i. simpl. by rewrite length_hex_EncodeToString, length_sha256_Sum256. }
  split; [| split; [| split]].
  - apply Forall_fmap, Forall_forall. intros i Hi. apply elem_of_seq in Hi.
    destruct (chunk_descriptor_size data cs now i) as [Hsz _]; [done | done | lia |].
    unfold compose, ChunkMetadata_Validate.
    case_decide as E; [by apply Sprintf_d_not in E |].
    case_decide; [lia |].
    case_decide as Ho; [simpl in Ho; nia |].
    case_decide as E'; [| reflexivity].
    specialize (Hsha i). by rewrite E' in Hsha.
  - rewrite <- list_fmap_compose. apply NoDup_fmap_2_strong; [| apply NoDup_seq].
    intros i j _ _ E. simpl in E. apply Sprintf_d_inj in E. lia.
  - apply Forall_fmap, Forall_forall. intros i _. simpl.
    by apply Sprintf_d_not.
  - apply Forall_fmap, Forall_forall. intros i _. apply Hsha.
Qed.

Lemma ChunkFile_descriptors_validate_witness :
  ∃ chunks,
    ChunkFile {| MinChunkSize := 2; MaxChunkSize := 4; DefaultChunkSize := 3 |}
      FileOk (list_byte_of_string "abcdefghij") 3 7 = Some (Returns (Ok chunks))
    ∧ Forall (λ c, ChunkMetadata_Validate c = None) chunks
    ∧ NoDup (cm_ID <$> chunks).
Proof.
  destruct (ChunkFile_descriptors_validate
              {| MinChunkSize := 2; MaxChunkSize := 4; DefaultChunkSize := 3 |}
              (list_byte_of_string "abcdefghij") 3 7)
    as (chunks & H & HV & HN & _).
  - vm_compute; reflexivity.
  - vm_compute; reflexivity.
  - by exists chunks.
Defined.

Lemma normalize_nonzero cfg :
  MinChunkSize (normalize cfg) ≠ 0
  ∧ MaxChunkSize (normalize cfg) ≠ 0
  ∧ DefaultChunkSize (normalize cfg) ≠ 0.
Proof. unfold normalize. simpl. repeat case_decide; lia. Qed.

Lemma clamp_chunk_size_nonzero cfg T : clamp_chunk_size (normalize cfg) T ≠ 0.
Proof.
  pose proof (normalize_nonzero cfg) as (? & ? & ?).
  unfold clamp_chunk_size. repeat case_decide; lia.
Qed.

(** X9. The configuration of a chunker made by [NewChunker]: normalizing
    twice is normalizing once; none of the three sizes is zero, and the
    effective chunk size is never zero, whatever is requested; when the
    minimum is not above the maximum, the default and the effective chunk
    size lie between them, and a positive request inside the range is taken
    as it is. *)
Theorem NewChunker_bounds cfg (T : Z) :
  normalize (NewChunker cfg) = NewChunker cfg
  ∧ MinChunkSize (NewChunker cfg) ≠ 0
  ∧ MaxChunkSize (NewChunker cfg) ≠ 0
  ∧ DefaultChunkSize (NewChunker cfg) ≠ 0
  ∧ clamp_chunk_size (NewChunker cfg) T ≠ 0
  ∧ (MinChunkSize (NewChunker cfg) <= MaxChunkSize (NewChunker cfg) →
     MinChunkSize (NewChunker cfg) <= DefaultChunkSize (NewChunker cfg)
       <= MaxChunkSize (NewChunker cfg)
     ∧ MinChunkSize (NewChunker cfg) <= clamp_chunk_size (NewChunker cfg) T
       <= MaxChunkSize (NewChunker cfg)
     ∧ (0 < T →
        MinChunkSize (NewChunker cfg) <= T <= MaxChunkSize (NewChunker cfg) →
        clamp_chunk_size (NewChunker cfg) T = T)).
Proof.
  pose proof (normalize_nonzero cfg) as (Hmin & Hmax & Hdef).
  unfold NewChunker.
  split.
  { unfold normalize at 1. rewrite !decide_False by done.
    destruct (normalize cfg) as [mn mx d] eqn:E.
    assert (d <= mx ∧ (¬ d < mn ∨ d = mx)) as Hd.
    { unfold normalize in E. injection E as <- <- <-. repeat case_decide; lia. }
    simpl in *. f_equal. repeat case_decide; lia. }
  split; [done |]. split; [done |]. split; [done |].
  split; [apply clamp_chunk_size_nonzero |].
  intros Hle.
  assert (MinChunkSize (normalize cfg) <= DefaultChunkSize (normalize cfg)
          <= MaxChunkSize (normalize cfg)) as Hd.
  { revert Hle. unfold normalize. simpl. repeat case_decide; lia. }
  split; [exact Hd |].
  unfold clamp_chunk_size. split; [| intros HT HT']; repeat case_decide; lia.
Qed.





(** ** The datagram packet codec: what [DeserializePacket] accepts *)

Lemma be_bytes_be_to_Z (l : list byte) : be_bytes (length l) (be_to_Z l) = l.
Proof.
  apply be_to_Z_inj; [apply length_be_bytes |].
  apply be_to_Z_be_bytes_small, be_to_Z_range.
Qed.

(** The header of a datagram of at least 38 bytes, field by field. *)
Lemma header_fields (data : list byte) :
  (38 ≤ length data)%nat →
  take 38 data
  = take 4 data ++ [nth 4 data x00] ++ [nth 5 data x00] ++ take 16 (drop 6 data)
    ++ take 8 (drop 22 data) ++ take 4 (drop 30 data) ++ [nth 34 data x00]
    ++ take 3 (drop 35 data).
Proof.
  intros Hlen.
  do 38 (destruct data as [|? data]; [simpl in Hlen; lia |]).
  reflexivity.
Qed.

Lemma DeserializePacket_Ok_inv (data : list byte) (p : Packet) :
  DeserializePacket data = Ok p →
  (42 ≤ length data)%nat
  ∧ take 4 data = magic
  ∧ ChecksumIEEE (take (length data - 4) data) = be_to_Z (drop (length data - 4) data)
  ∧ p = {| Version := nth 4 data x00; Type_ := nth 5 data x00;
           SessionID := take 16 (drop 6 data);
           ChunkID := be_to_Z (take 8 (drop 22 data));
           Seq := be_to_Z (take 4 (drop 30 data));
           Priority := nth 34 data x00;
           Payload := take (length data - 42) (drop 38 data);
           Checksum := be_to_Z (drop (length data - 4) data) |}.
Proof.
  intros H.
  assert (42 ≤ length data)%nat as Hlen.
  { unfold DeserializePacket, headerSize, checksumSize, len in H.
    case_decide; [done | lia]. }
  assert (take 4 data = magic) as Hmagic.
  { unfold DeserializePacket in H. case_decide; [done |].
    case_decide as Hm; [done |]. exact Hm. }
  rewrite DeserializePacket_checked in H by done.
  case_decide; [| done]. by injection H as <-.
Qed.

(** X12. What [DeserializePacket] answers: "packet too small" exactly for
    fewer than 42 bytes; never "packet missing checksum" (after the size
    test that branch cannot be taken); and when it returns a packet, the
    input starts with the magic, the packet's session id has 16 bytes, its
    chunk id and sequence number are in range, its payload is all of the
    input between the 38-byte header and the last four bytes (of any
    length: the 64 KiB limit of [SerializePacket] is not checked here), and
    its checksum is the CRC-32 of everything before the last four bytes. *)
Theorem DeserializePacket_outcomes (data : list byte) :
  (DeserializePacket data = Err ErrPacketTooSmall ↔ len data < 42)
  ∧ DeserializePacket data ≠ Err ErrPacketMissingChecksum
  ∧ ∀ p, DeserializePacket data = Ok p →
      Packet_wf p
      ∧ take 4 data = magic
      ∧ Payload p = take (length data - 42) (drop 38 data)
      ∧ len (Payload p) = len data - 42
      ∧ Checksum p = ChecksumIEEE (take (length data - 4) data).
Proof.
  split; [| split].
  - unfold DeserializePacket, headerSize, checksumSize.
    destruct (decide (len data < 4 + 1 + 1 + 16 + 8 + 4 + 1 + 3 + 4)) as [Hs|Hs].
    + split; [lia | done].
    + split; [| lia]. intros H. exfalso.
      case_decide; [done |]. case_decide; [done |]. by case_match.
  - unfold DeserializePacket, headerSize, checksumSize, len.
    case_decide as Hs; [done |]. case_decide; [done |].
    change (Z.to_nat (4 + 1 + 1 + 16 + 8 + 4 + 1 + 3)) with 38%nat.
    rewrite length_drop. case_decide; [lia |]. by case_match.
  - intros p Hp. apply DeserializePacket_Ok_inv in Hp as (Hlen & Hmagic & Hcrc & ->).
    simpl. split; [| split; [done | split; [done | split]]].
    + unfold Packet_wf. simpl. split; [| split].
      * rewrite length_take, length_drop. lia.
      * pose proof (be_to_Z_range (take 8 (drop 22 data))) as Hr.
        rewrite length_take, length_drop in Hr.
        replace (8 `min` (length data - 22))%nat with 8%nat in Hr by lia. exact Hr.
      * pose proof (be_to_Z_range (take 4 (drop 30 data))) as Hr.
        rewrite length_take, length_drop in Hr.
        replace (4 `min` (length data - 30))%nat with 4%nat in Hr by lia. exact Hr.
    + unfold len. rewrite length_take, length_drop. lia.
    + done.
Qed.

(** X13. The codec the other way round: when [DeserializePacket] returns a
    packet for a datagram whose three padding bytes are zero and whose
    payload is within the limit of [SerializePacket], serializing that
    packet gives the datagram back, byte for byte, and leaves the packet as
    it is. (The padding bytes are not looked at when a datagram is parsed,
    only covered by the checksum.) *)
Theorem DeserializePacket_then_Serialize (data : list byte) (p : Packet) :
  DeserializePacket data = Ok p →
  take 3 (drop 35 data) = [x00; x00; x00] →
  len (Payload p) <= maxPayload →
  SerializePacket p = (Ok data, p).
Proof.
  intros Hp Hpad Hpay.
  apply DeserializePacket_Ok_inv in Hp as (Hlen & Hmagic & Hcrc & ->).
  unfold SerializePacket. case_decide; [lia |].
  cbn [Checksum set_Checksum].
  assert (packet_body
            {| Version := nth 4 data x00; Type_ := nth 5 data x00;
               SessionID := take 16 (drop 6 data);
               ChunkID := be_to_Z (take 8 (drop 22 data));
               Seq := be_to_Z (take 4 (drop 30 data));
               Priority := nth 34 data x00;
               Payload := take (length data - 42) (drop 38 data);
               Checksum := be_to_Z (drop (length data - 4) data) |}
          = take (length data - 4) data) as Hbody.
  { unfold packet_body. cbn [Version Type_ SessionID ChunkID Seq Priority Payload].
    replace (length data - 4)%nat with (38 + (length data - 42))%nat by lia.
    rewrite <- take_take_drop, header_fields by lia.
    rewrite Hmagic, Hpad.
    pose proof (be_bytes_be_to_Z (take 8 (drop 22 data))) as H8.
    pose proof (be_bytes_be_to_Z (take 4 (drop 30 data))) as H4.
    rewrite length_take, length_drop in H8, H4.
    replace (8 `min` (length data - 22))%nat with 8%nat in H8 by lia.
    replace (4 `min` (length data - 30))%nat with 4%nat in H4 by lia.
    rewrite H8, H4. by rewrite <- !app_assoc. }
  rewrite Hbody, Hcrc.
  pose proof (be_bytes_be_to_Z (drop (length data - 4) data)) as Hc.
  rewrite length_drop in Hc.
  replace (length data - (length data - 4))%nat with 4%nat in Hc by lia.
  by rewrite Hc, take_drop.
Qed.

Lemma DeserializePacket_then_Serialize_witness :
  ∃ p,
    DeserializePacket
      (list_byte_of_string "TSFT" ++ [x01; x01]
       ++ list_byte_of_string "session-12345678"
       ++ [x00; x00; x00; x00; x00; x00; x00; x2a; x00; x00; x00; x07; x01;
           x00; x00; x00]
       ++ list_byte_of_string "hello world" ++ [x12; x1d; x8d; x25]) = Ok p
    ∧ SerializePacket p
      = (Ok (list_byte_of_string "TSFT" ++ [x01; x01]
             ++ list_byte_of_string "session-12345678"
             ++ [x00; x00; x00; x00; x00; x00; x00; x2a; x00; x00; x00; x07; x01;
                 x00; x00; x00]
             ++ list_byte_of_string "hello world" ++ [x12; x1d; x8d; x25]), p).
Proof.
  eexists. split; [vm_compute; reflexivity |].
  apply DeserializePacket_then_Serialize.
  - vm_compute; reflexivity.
  - reflexivity.
  - vm_compute; discriminate.
Defined.

(** ** The datagram sender *)

Lemma w32_u32 (z : Z) : in_u32 (w32 z).
Proof. unfold in_u32, w32. apply Z.mod_pos_bound. lia. Qed.

(** X14. A chunk sent by [SendChunk] reaches the handler of a
    [UDPReceiver] as it was sent. For a 16-byte session id, a chunk id in
    the range of [uint64] and a payload of at most 64 KiB, whatever the
    socket answers: the datagram given to [conn.Write] has the payload's
    length plus 42 bytes, it fits the receiver's buffer, and the receive
    loop decodes it and hands the handler a packet of version 1 and type
    DATA with the session id, the chunk id, the priority and the payload
    of the call, and the sender's next sequence number. *)
Theorem SendChunk_datagram_received (write : list byte → option Z) (s : UDPSender)
    (sessionID : list byte) (chunkID : Z) (data : list byte) (priority : byte)
    (rest : list UdpEvent) (handled : list Packet) (log : list UdpLog) :
  length sessionID = 16%nat →
  0 <= chunkID < 2 ^ 64 →
  len data <= maxPayload →
  ∃ raw p,
    (SendChunk write s sessionID chunkID data priority).2 = Some raw
    ∧ len raw = len data + 42
    ∧ len raw <= udp_buffer_size
    ∧ UDPReceiver_loop true (UdpDatagram raw :: rest) handled log
      = UDPReceiver_loop true rest (handled ++ [p]) log
    ∧ Version p = x01 ∧ Type_ p = PacketTypeData
    ∧ SessionID p = sessionID ∧ ChunkID p = chunkID
    ∧ Seq p = w32 (us_seq s + 1)
    ∧ Priority p = priority ∧ Payload p = data.
Proof.
  intros Hsid Hcid Hpay. unfold SendChunk, nextSeq.
  set (p := {| Version := x01; Type_ := PacketTypeData; SessionID := sessionID;
               ChunkID := chunkID; Seq := w32 (us_seq s + 1); Priority := priority;
               Payload := data; Checksum := 0 |}).
  assert (Packet_wf p) as Hwf.
  { split; [done |]. split; [done |]. apply w32_u32. }
  unfold SerializePacket. destruct (decide (len (Payload p) > maxPayload)); [simpl in *; lia |].
  cbn [fst Checksum set_Checksum].
  set (raw := packet_body p ++ be_bytes 4 (ChecksumIEEE (packet_body p))).
  assert (length raw = (42 + length data)%nat) as Hlen.
  { unfold raw. rewrite length_app, length_be_bytes, (length_packet_body p Hsid). simpl. lia. }
  assert (len raw <= udp_buffer_size) as Hfit.
  { unfold len, maxPayload, udp_buffer_size in *. lia. }
  exists raw, (set_Checksum p (ChecksumIEEE (packet_body p))).
  split; [by destruct (write raw) |].
  split; [unfold len; lia |]. split; [exact Hfit |].
  split; [| done].
  cbn [UDPReceiver_loop]. rewrite take_ge by (unfold len in Hfit; lia).
  unfold raw. rewrite DeserializePacket_body; [| done | apply ChecksumIEEE_u32].
  by rewrite decide_True.
Qed.

Lemma SendChunk_datagram_received_witness :
  ∃ raw p,
    (SendChunk (λ raw, Some (len raw)) {| us_seq := 6; us_stats := Build_TransferStats 0 0 0 0 |}
       (list_byte_of_string "session-12345678") 42 (list_byte_of_string "hello world")
       x01).2 = Some raw
    ∧ UDPReceiver_loop true [UdpDatagram raw] [] [] = ([p], [])
    ∧ Seq p = 7 ∧ Payload p = list_byte_of_string "hello world".
Proof.
  destruct (SendChunk_datagram_received (λ raw, Some (len raw))
              {| us_seq := 6; us_stats := Build_TransferStats 0 0 0 0 |}
              (list_byte_of_string "session-12345678") 42
              (list_byte_of_string "hello world") x01 [] [] [])
    as (raw & p & Hraw & _ & _ & Hloop & _ & _ & _ & _ & Hseq & _ & Hpay).
  - reflexivity.
  - lia.
  - vm_compute; discriminate.
  - exists raw, p. split; [exact Hraw |]. split; [exact Hloop |]. by split.
Defined.

Lemma SendChunk_seq write s sid cid data prio :
  us_seq (SendChunk write s sid cid data prio).1.2 = w32 (us_seq s + 1).
Proof.
  unfold SendChunk, nextSeq.
  destruct (SerializePacket _).1 as [raw|e]; [| done]. by destruct (write raw).
Qed.

Lemma SendChunk_run_seq write calls : ∀ s,
  us_seq (SendChunk_run write s calls) = w32 (us_seq s + len calls) ∨
  (calls = [] ∧ SendChunk_run write s calls = s).
Proof.
  induction calls as [|c calls IH]; intros s; [by right |]. left.
  unfold SendChunk_run in *. simpl.
  destruct (IH (SendChunk write s c.1.1.1 c.1.1.2 c.1.2 c.2).1.2) as [-> | [-> ->]].
  - rewrite SendChunk_seq. unfold w32, len. simpl length.
    rewrite Zplus_mod_idemp_l. f_equal. lia.
  - simpl. rewrite SendChunk_seq. unfold len. simpl. done.
Qed.

(** X15. Sequence numbers and the byte counter of the datagram sender.
    Every call of [SendChunk] takes the next sequence number, modulo
    [2^32], whether it succeeds or not: a call refused for its payload
    (more than 64 KiB) or failed at the socket uses up a number and leaves
    the counters as they were, and a successful call adds to [Sent] what
    the socket wrote. After [n] calls, whatever their outcome, the sequence
    number has advanced by [n]. *)
Theorem SendChunk_sequence_numbers (write : list byte → option Z) (s : UDPSender) :
  in_u32 (us_seq s) →
  (∀ sid cid data prio,
     us_seq (SendChunk write s sid cid data prio).1.2 = w32 (us_seq s + 1)
     ∧ (len data > maxPayload →
        SendChunk write s sid cid data prio
        = (Some (SendSerializeError ErrPayloadTooLarge),
           {| us_seq := w32 (us_seq s + 1); us_stats := us_stats s |}, None))
     ∧ ∀ raw,
         (SendChunk write s sid cid data prio).2 = Some raw →
         match write raw with
         | None =>
             SendChunk write s sid cid data prio
             = (Some SendWriteError,
                {| us_seq := w32 (us_seq s + 1); us_stats := us_stats s |}, Some raw)
         | Some n =>
             SendChunk write s sid cid data prio
             = (None,
                {| us_seq := w32 (us_seq s + 1);
                   us_stats := add_Sent (us_stats s) n |}, Some raw)
         end)
  ∧ ∀ calls : list SendCall,
      us_seq (SendChunk_run write s calls) = w32 (us_seq s + len calls).
Proof.
  intros Hs. split.
  - intros sid cid data prio. split; [apply SendChunk_seq |]. split.
    + intros Hbig. unfold SendChunk, nextSeq, SerializePacket. simpl.
      by rewrite decide_True.
    + intros raw. unfold SendChunk, nextSeq.
      destruct (SerializePacket _).1 as [raw'|e]; [| done].
      destruct (write raw') as [n|] eqn:Hw; simpl; intros [= <-]; by rewrite Hw.
  - intros calls. destruct (SendChunk_run_seq write calls s) as [-> | [-> ->]]; [done |].
    unfold len. simpl. rewrite Z.add_0_r. unfold w32. symmetry.
    apply Z.mod_small. exact Hs.
Qed.

Lemma SendChunk_sequence_numbers_witness :
  us_seq (SendChunk_run (λ _, None) {| us_seq := 4294967295; us_stats := Build_TransferStats 0 0 0 0 |}
            [([], 1, [x01], x02); ([], 2, [x02], x03)]) = 1
  ∧ st_Sent (us_stats (SendChunk (λ raw, Some (len raw))
                         {| us_seq := 0; us_stats := Build_TransferStats 0 0 0 0 |}
                         (list_byte_of_string "session-12345678") 1 [x01] x02).1.2) = 43.
Proof.
  split.
  - destruct (SendChunk_sequence_numbers (λ _, None)
                {| us_seq := 4294967295; us_stats := Build_TransferStats 0 0 0 0 |})
      as [_ H]; [unfold in_u32; simpl; lia |].
    rewrite H. reflexivity.
  - destruct (SendChunk_sequence_numbers (λ raw, Some (len raw))
                {| us_seq := 0; us_stats := Build_TransferStats 0 0 0 0 |})
      as [H _]; [unfold in_u32; simpl; lia |].
    destruct (H (list_byte_of_string "session-12345678") 1 [x01] x02) as (_ & _ & Hw).
    specialize (Hw _ eq_refl). simpl in Hw. rewrite Hw. vm_compute. reflexivity.
Defined.

(** X16. The priorities of the chunks of a file: of the descriptors
    [ChunkFile] returns, the first (the one at offset 0) gets priority 2
    from [ChunkPriority] and every other one priority 3; priority 4 is for
    parity chunks, which [ChunkFile] never makes. *)
Theorem ChunkPriority_of_ChunkFile cfg (data : list byte) (T : Z) (now : Time) :
  0 < clamp_chunk_size cfg T →
  len data < 2 ^ 63 →
  ∃ chunks,
    ChunkFile cfg FileOk data T now = Some (Returns (Ok chunks))
    ∧ (∀ (i : nat) c, chunks !! i = Some c →
         cm_IsParity c = false
         ∧ ChunkPriority c = if decide (i = 0%nat) then x02 else x03)
    ∧ (∀ c, cm_IsParity c = true → ChunkPriority c = x04).
Proof.
  intros Hcs Hsize. eexists. split.
  { exact (ChunkFile_run cfg FileOk data T now Hcs Hsize ltac:(done) ltac:(done)). }
  split; [| by intros c; unfold ChunkPriority; intros ->].
  intros i c Hi. apply list_lookup_fmap_Some in Hi as (j & -> & Hj).
  apply lookup_seq in Hj as [-> _]. split; [done |].
  unfold ChunkPriority. simpl.
  destruct (decide (i = 0%nat)) as [->|Hne]; [done |].
  rewrite decide_False; [done | nia].
Qed.

Lemma ChunkPriority_of_ChunkFile_witness :
  ∃ chunks,
    ChunkFile {| MinChunkSize := 2; MaxChunkSize := 4; DefaultChunkSize := 3 |}
      FileOk (list_byte_of_string "abcdefghij") 3 7 = Some (Returns (Ok chunks))
    ∧ ChunkPriority <$> chunks = [x02; x03; x03; x03].
Proof.
  destruct (ChunkPriority_of_ChunkFile
              {| MinChunkSize := 2; MaxChunkSize := 4; DefaultChunkSize := 3 |}
              (list_byte_of_string "abcdefghij") 3 7) as (chunks & H & _).
  - vm_compute; reflexivity.
  - vm_compute; reflexivity.
  - exists chunks. split; [exact H |].
    assert (ChunkFile {| MinChunkSize := 2; MaxChunkSize := 4; DefaultChunkSize := 3 |}
              FileOk (list_byte_of_string "abcdefghij") 3 7
            = Some (Returns (Ok (chunk_descriptor (list_byte_of_string "abcdefghij") 3 7
                                   <$> [0; 1; 2; 3]%nat)))) as H'
      by (vm_compute; reflexivity).
    rewrite H' in H. injection H as <-. reflexivity.
Defined.

(** ** The retry manager *)

Lemma RecordFailure_times_spec (id : string) (k : nat) : ∀ r fs st,
  rm_failures r = Some fs →
  rm_state r = Some st →
  0 <= default 0 (fs !! id) →
  default 0 (fs !! id) + Z.of_nat k < 2 ^ 63 →
  ∃ r' fs' st',
    RecordFailure_times k r id = Returns r'
    ∧ rm_MaxRetries r' = rm_MaxRetries r
    ∧ rm_failures r' = Some fs' ∧ rm_state r' = Some st'
    ∧ default 0 (fs' !! id) = default 0 (fs !! id) + Z.of_nat k
    ∧ GetCircuitState r' id
      = (if decide (1 <= Z.of_nat k
                    ∧ rm_MaxRetries r < default 0 (fs !! id) + Z.of_nat k)
         then CircuitOpen else GetCircuitState r id)
    ∧ ∀ id', id' ≠ id → fs' !! id' = fs !! id' ∧ st' !! id' = st !! id'.
Proof.
  induction k as [|k IH]; intros r fs st Hfs Hst H0 Hk.
  { exists r, fs, st. simpl. rewrite Z.add_0_r.
    repeat split; try done. all: by rewrite decide_False by lia. }
  set (f0 := default 0 (fs !! id)) in *.
  assert (∃ r1 st1,
    RecordFailure r id = Returns r1
    ∧ rm_MaxRetries r1 = rm_MaxRetries r
    ∧ rm_failures r1 = Some (<[id := f0 + 1]> fs) ∧ rm_state r1 = Some st1
    ∧ GetCircuitState r1 id
      = (if decide (rm_MaxRetries r < f0 + 1) then CircuitOpen else GetCircuitState r id)
    ∧ ∀ id', id' ≠ id → st1 !! id' = st !! id') as (r1 & st1 & HR & HM & Hfs1 & Hst1 & HG & Hoth).
  { unfold RecordFailure. rewrite Hfs, Hst. fold f0.
    rewrite (wrap64_small (f0 + 1)) by lia.
    destruct (decide (f0 + 1 > rm_MaxRetries r)) as [Hgt|Hle].
    - eexists _, _. split; [reflexivity |]. simpl.
      split; [done |]. split; [done |]. split; [done |]. split.
      + unfold GetCircuitState. simpl. rewrite lookup_insert_eq.
        by rewrite decide_True by lia.
      + intros id' Hne. by rewrite lookup_insert_ne.
    - eexists _, st. split; [reflexivity |]. simpl.
      split; [done |]. split; [done |]. split; [done |]. split.
      + unfold GetCircuitState. simpl. rewrite Hst. by rewrite decide_False by lia.
      + done. }
  destruct (IH r1 _ st1 Hfs1 Hst1) as (r' & fs' & st' & HT & HM' & Hfs' & Hst' & Hc & HG' & Hoth').
  { rewrite lookup_insert_eq. simpl. lia. }
  { rewrite lookup_insert_eq. simpl. lia. }
  rewrite lookup_insert_eq in Hc, HG'. simpl in Hc, HG'.
  exists r', fs', st'. simpl. rewrite HR.
  split; [exact HT |]. split; [congruence |]. split; [done |]. split; [done |].
  split; [lia |]. split.
  - rewrite HG', HG, HM. repeat case_decide; try done; lia.
  - intros id' Hne. destruct (Hoth' id' Hne) as [-> ->].
    rewrite lookup_insert_ne by done. split; [done | by apply Hoth].
Qed.

(** X17. The circuit of an identifier opens when its failures since the
    last success exceed [MaxRetries]. After [RecordSuccess] the identifier
    has no failure on record and its circuit is closed; after [k] further
    calls of [RecordFailure] the circuit is open exactly when
    [k > MaxRetries], and the count on record is [k]. *)
Theorem circuit_opens_past_MaxRetries (r : RetryManager) (id : string) (k : nat) :
  rm_failures r ≠ None →
  rm_state r ≠ None →
  0 <= rm_MaxRetries r →
  Z.of_nat k < 2 ^ 63 →
  ∃ r0 r' fs',
    RecordSuccess r id = Returns r0
    ∧ GetCircuitState r0 id = CircuitClosed
    ∧ RecordFailure_times k r0 id = Returns r'
    ∧ rm_failures r' = Some fs'
    ∧ default 0 (fs' !! id) = Z.of_nat k
    ∧ (GetCircuitState r' id = CircuitOpen ↔ rm_MaxRetries r < Z.of_nat k)
    ∧ (GetCircuitState r' id = CircuitClosed ↔ Z.of_nat k <= rm_MaxRetries r).
Proof.
  intros Hfs Hst HM Hk.
  destruct (rm_failures r) as [fs|] eqn:Efs; [| done].
  destruct (rm_state r) as [st|] eqn:Est; [| done].
  unfold RecordSuccess. rewrite Est, Efs. simpl.
  eexists. 
  match goal with |- context [Returns ?x = Returns _] => set (r0 := x) end.
  assert (GetCircuitState r0 id = CircuitClosed) as HG0.
  { unfold GetCircuitState, r0. simpl. by rewrite lookup_insert_eq. }
  destruct (RecordFailure_times_spec id k r0 (delete id fs) (<[id := CircuitClosed]> st))
    as (r' & fs' & st' & HT & _ & Hfs' & _ & Hc & HG & _); try done.
  { rewrite lookup_delete_eq. simpl. lia. }
  { rewrite lookup_delete_eq. simpl. lia. }
  rewrite lookup_delete_eq in Hc, HG. simpl in Hc, HG.
  exists r', fs'. split; [reflexivity |]. split; [exact HG0 |].
  split; [exact HT |]. split; [exact Hfs' |]. split; [exact Hc |].
  rewrite HG, HG0. simpl. split; case_decide; split; (done || lia).
Qed.

Lemma circuit_opens_past_MaxRetries_witness :
  ∃ r0 r5 r6,
    RecordSuccess NewRetryManager "relay-1" = Returns r0
    ∧ RecordFailure_times 5 r0 "relay-1" = Returns r5
    ∧ GetCircuitState r5 "relay-1" = CircuitClosed
    ∧ RecordFailure_times 6 r0 "relay-1" = Returns r6
    ∧ GetCircuitState r6 "relay-1" = CircuitOpen.
Proof.
  destruct (circuit_opens_past_MaxRetries NewRetryManager "relay-1" 5)
    as (r0 & r5 & _ & H0 & _ & H5 & _ & _ & _ & Hc5); [done | done | simpl; lia | lia |].
  destruct (circuit_opens_past_MaxRetries NewRetryManager "relay-1" 6)
    as (r0' & r6 & _ & H0' & _ & H6 & _ & _ & Ho6 & _); [done | done | simpl; lia | lia |].
  assert (r0' = r0) as -> by congruence.
  exists r0, r5, r6. split; [exact H0 |]. split; [exact H5 |].
  split; [apply Hc5; simpl; lia |]. split; [exact H6 |]. apply Ho6. simpl. lia.
Defined.

(** X18. The circuits of different identifiers do not touch each other,
    and no call opens a circuit half: after [RecordFailure] or
    [RecordSuccess] for one identifier, every other identifier has the
    state and the failure count it had, and an identifier is half-open
    only if it was so before. *)
Theorem retry_identifiers_independent (r r' : RetryManager) (id : string) :
  RecordFailure r id = Returns r' ∨ RecordSuccess r id = Returns r' →
  (∀ id', id' ≠ id →
     GetCircuitState r' id' = GetCircuitState r id'
     ∧ (rm_failures r' ≫= (.!! id')) = (rm_failures r ≫= (.!! id')))
  ∧ (∀ x, GetCircuitState r' x = CircuitHalfOpen → GetCircuitState r x = CircuitHalfOpen)
  ∧ rm_MaxRetries r' = rm_MaxRetries r.
Proof.
  intros [H | H].
  - unfold RecordFailure in H.
    destruct (rm_failures r) as [fs|] eqn:Efs; [| done].
    case_decide.
    + destruct (rm_state r) as [st|] eqn:Est; [| done]. injection H as <-.
      unfold GetCircuitState. simpl. rewrite Est. split; [| split; [| done]].
      * intros id' Hne. by rewrite !lookup_insert_ne.
      * intros x. destruct (decide (x = id)) as [->|Hne].
        -- by rewrite lookup_insert_eq.
        -- by rewrite lookup_insert_ne.
    + injection H as <-. unfold GetCircuitState. simpl. split; [| done].
      intros id' Hne. by rewrite lookup_insert_ne.
  - unfold RecordSuccess in H.
    destruct (rm_state r) as [st|] eqn:Est; [| done]. injection H as <-.
    unfold GetCircuitState. simpl. rewrite Est. split; [| split; [| done]].
    + intros id' Hne. rewrite lookup_insert_ne by done. split; [done |].
      destruct (rm_failures r); [| done]. simpl. by rewrite lookup_delete_ne.
    + intros x. destruct (decide (x = id)) as [->|Hne].
      * by rewrite lookup_insert_eq.
      * by rewrite lookup_insert_ne.
Qed.

Lemma retry_identifiers_independent_witness :
  ∃ r',
    RecordFailure NewRetryManager "relay-1" = Returns r'
    ∧ GetCircuitState r' "relay-2" = GetCircuitState NewRetryManager "relay-2".
Proof.
  eexists. split; [vm_compute; reflexivity |].
  apply (retry_identifiers_independent NewRetryManager _ "relay-1"); [| done].
  left. vm_compute. reflexivity.
Defined.

(** ** The erasure coder: shard sizes and shard validation *)

(** X19. [CalculateShardSize] on a coder with a positive number of data
    shards [D] (with none, the division panics): for a size that is not
    positive it returns 0 and leaves the stored shard size as it was; for a
    positive size [n] it returns and stores [ceil(n / D)], the least size
    with which [D] shards hold [n] bytes. *)
Theorem CalculateShardSize_ceiling (e : ErasureCoder) (n : Z) :
  0 < DataShards e →
  n + DataShards e <= 2 ^ 63 →
  CalculateShardSize e n
  = (if decide (n <= 0) then (0, e)
     else (ceil_div n (DataShards e), set_ShardSize e (ceil_div n (DataShards e))))
  ∧ (0 < n →
     0 < ceil_div n (DataShards e)
     ∧ DataShards e * (ceil_div n (DataShards e) - 1) < n
       <= DataShards e * ceil_div n (DataShards e)).
Proof.
  intros HD Hn. split.
  - unfold CalculateShardSize. case_decide; [done |].
    rewrite wrap64_small by lia. rewrite Z.quot_div_nonneg by lia. done.
  - intros Hpos. destruct (ceil_div_facts n (DataShards e) Hpos HD) as (H1 & H2 & H3).
    fold (ceil_div n (DataShards e)) in H1, H2, H3. lia.
Qed.

Lemma CalculateShardSize_ceiling_witness :
  CalculateShardSize
    {| DataShards := 4; ParityShards := 2; ShardSize := 0; codec := repetition_codec |} 10
  = (3, {| DataShards := 4; ParityShards := 2; ShardSize := 3; codec := repetition_codec |})
  ∧ CalculateShardSize
      {| DataShards := 4; ParityShards := 2; ShardSize := 3; codec := repetition_codec |} 0
    = (0, {| DataShards := 4; ParityShards := 2; ShardSize := 3; codec := repetition_codec |}).
Proof.
  split.
  - destruct (CalculateShardSize_ceiling
                {| DataShards := 4; ParityShards := 2; ShardSize := 0;
                   codec := repetition_codec |} 10) as [H _]; [simpl; lia | simpl; lia |].
    rewrite H. reflexivity.
  - destruct (CalculateShardSize_ceiling
                {| DataShards := 4; ParityShards := 2; ShardSize := 3;
                   codec := repetition_codec |} 0) as [H _]; [simpl; lia | simpl; lia |].
    rewrite H. reflexivity.
Defined.

Lemma filter_is_Some_cons {A} (o : option A) (l : list (option A)) :
  len (filter is_Some (o :: l))
  = (if o is Some _ then 1 else 0) + len (filter is_Some l).
Proof.
  unfold len. rewrite filter_cons. destruct o as [a|].
  - rewrite decide_True by done. simpl. lia.
  - rewrite decide_False by (by intros [? ?]). lia.
Qed.

(** The loop of [ValidateShards] when it finds no shard of another
    length. *)
Lemma validate_loop_inr (shards : list (option (list byte))) : ∀ i L pr L' pr',
  validate_loop i shards L pr = inr (L', pr') →
  pr' = pr + len (filter is_Some shards)
  ∧ (L ≠ 0 → L' = L ∧ ∀ s, Some s ∈ shards → len s = L)
  ∧ (L = 0 → ∀ s, Some s ∈ shards → s = [] ∨ len s = L').
Proof.
  induction shards as [|[sh|] shards IH]; intros i L pr L' pr' H; simpl in H.
  - injection H as <- <-. unfold len. simpl. split; [lia |].
    split; [intros _; split; [done |] | intros _]; intros s Hs;
      by apply elem_of_nil in Hs.
  - rewrite filter_is_Some_cons. destruct (decide (L = 0)) as [->|HL].
    + apply IH in H as (-> & H1 & H2). split; [lia |]. split; [done |].
      intros _ s Hs. apply elem_of_cons in Hs as [[= ->] | Hs].
      * destruct (decide (len sh = 0)) as [E|Hne].
        -- left. unfold len in E. destruct sh; [done | simpl in E; lia].
        -- right. by destruct (H1 Hne) as [-> _].
      * destruct (decide (len sh = 0)) as [E|Hne].
        -- rewrite E in H2. by apply H2.
        -- right. destruct (H1 Hne) as [-> Hall]. by apply Hall.
    + destruct (decide (len sh ≠ L)) as [|Heq]; [done |]. apply dec_stable in Heq.
      apply IH in H as (-> & H1 & _). split; [lia |]. split; [| done].
      intros _. destruct (H1 HL) as [-> Hall]. split; [done |].
      intros s Hs. apply elem_of_cons in Hs as [[= ->] | Hs]; [done | by apply Hall].
  - rewrite filter_is_Some_cons. apply IH in H as (-> & H1 & H2).
    split; [lia |]. split.
    + intros HL. destruct (H1 HL) as [-> Hall]. split; [done |].
      intros s Hs. apply elem_of_cons in Hs as [[=] | Hs]. by apply Hall.
    + intros HL s Hs. apply elem_of_cons in Hs as [[=] | Hs]. by apply H2.
Qed.

(** The loop on shards of one positive length. *)
Lemma validate_loop_uniform (sz : Z) (shards : list (option (list byte))) : ∀ i L pr,
  0 < sz →
  (∀ s, Some s ∈ shards → len s = sz) →
  L = 0 ∨ L = sz →
  ∃ L', validate_loop i shards L pr = inr (L', pr + len (filter is_Some shards)).
Proof.
  intros i L pr Hsz. revert i L pr.
  induction shards as [|[sh|] shards IH]; intros i L pr Hall HL; simpl.
  - exists L. unfold len. simpl. do 2 f_equal. lia.
  - rewrite filter_is_Some_cons.
    assert (len sh = sz) as Hsh by (apply Hall; left).
    assert (∀ s, Some s ∈ shards → len s = sz) as Hall' by (intros; apply Hall; by right).
    destruct (decide (L = 0)) as [->|Hne].
    + destruct (IH (i + 1) (len sh) (pr + 1) Hall') as [L' ->]; [by right |].
      exists L'; do 2 f_equal; lia.
    + destruct HL as [HL | ->]; [done |]. rewrite decide_False by (intros ?; done).
      destruct (IH (i + 1) sz (pr + 1) Hall') as [L' ->]; [by right |].
      exists L'; do 2 f_equal; lia.
  - rewrite filter_is_Some_cons.
    destruct (IH (i + 1) L pr) as [L' ->]; [intros; apply Hall; by right | done |].
    exists L'; do 2 f_equal; lia.
Qed.

(** X20. What [ValidateShards] accepts. When it returns no error, the
    number of shards is [DataShards + ParityShards], at least [DataShards]
    of them are present, and all present shards that are not empty have
    one length (an empty shard that comes before the first one that is not
    empty goes unnoticed, since length 0 stands for "no length seen yet").
    On shards that all have one positive length, it returns no error
    exactly when the count is right and at least [DataShards] shards are
    present. *)
Theorem ValidateShards_accepts (e : ErasureCoder) (shards : list (option (list byte))) :
  (ValidateShards e shards = None →
     len shards = wrap64 (DataShards e + ParityShards e)
     ∧ DataShards e <= len (filter is_Some shards)
     ∧ ∃ L, ∀ s, Some s ∈ shards → s = [] ∨ len s = L)
  ∧ (∀ sz, 0 < sz → (∀ s, Some s ∈ shards → len s = sz) →
     (ValidateShards e shards = None
      ↔ len shards = wrap64 (DataShards e + ParityShards e)
        ∧ DataShards e <= len (filter is_Some shards))).
Proof.
  split.
  - unfold ValidateShards. case_decide as Hc; [done |].
    destruct (validate_loop 0 shards 0 0) as [i|[L' pr']] eqn:Hloop; [done |].
    case_decide as Hp; [done |]. intros _.
    apply validate_loop_inr in Hloop as (-> & _ & H0).
    split; [lia |]. split; [lia |]. exists L'. by apply H0.
  - intros sz Hsz Hall. unfold ValidateShards.
    destruct (validate_loop_uniform sz shards 0 0 0 Hsz Hall ltac:(by left)) as [L' ->].
    case_decide as Hc; [split; [done | intros [? _]; lia] |].
    case_decide as Hp; [split; [done | lia] |].
    split; [lia | done].
Qed.

(** An empty shard before the others is accepted with shards of another
    length. *)
Example ValidateShards_leading_empty_shard :
  ValidateShards {| DataShards := 2; ParityShards := 1; ShardSize := 0;
                    codec := repetition_codec |}
    [Some []; Some [x01; x02]; Some [x03; x04]] = None
  ∧ ValidateShards {| DataShards := 2; ParityShards := 1; ShardSize := 0;
                      codec := repetition_codec |}
      [Some [x01; x02]; Some []; Some [x03; x04]]
    = Some (ErrShardInconsistentLength 1).
Proof. split; vm_compute; reflexivity. Qed.

(** ** The assembler *)

#[local] Instance offset_le_transitive : Transitive offset_le.
Proof. intros a b c. unfold offset_le. lia. Qed.

#[local] Instance offset_le_total : Total offset_le.
Proof. intros a b. unfold offset_le. lia. Qed.











(** ** The receiver: frames that match *)

Lemma hex_byte_round_trip (b : byte) :
  fromHexChar (hex_digit (byte_to_Z b / 16)) = Some (byte_to_Z b / 16)
  ∧ fromHexChar (hex_digit (byte_to_Z b mod 16)) = Some (byte_to_Z b mod 16)
  ∧ byte_of_Z (byte_to_Z b / 16 * 16 + byte_to_Z b mod 16) = b.
Proof. destruct b; vm_compute; done. Qed.

(** Decoding the hexadecimal form of bytes gives the bytes back. *)
Lemma hex_DecodeString_EncodeToString (bs : list byte) :
  hex_DecodeString (hex_EncodeToString bs) = Some bs.
Proof.
  induction bs as [|b bs IH]; [done |].
  change (hex_EncodeToString (b :: bs))
    with (String (hex_digit (byte_to_Z b / 16))
            (String (hex_digit (byte_to_Z b mod 16)) (hex_EncodeToString bs))).
  cbn [hex_DecodeString].
  destruct (hex_byte_round_trip b) as (-> & -> & ->). by rewrite IH.
Qed.

(** The hash the sender declares, [%x] of the digest, is read back by the
    receiver as the digest. *)
Lemma declared_hash_hex (data : list byte) :
  declared_hash (hex_EncodeToString (HashChunk data)) = Some (HashChunk data).
Proof.
  unfold declared_hash. rewrite hex_DecodeString_EncodeToString. simpl. f_equal.
  unfold copy32, HashChunk. rewrite length_sha256_Sum256.
  rewrite take_ge by (by rewrite length_sha256_Sum256). apply app_nil_r.
Qed.


(** One turn of the loop on a data frame that matches. *)
Lemma handle_data_frame (U : list byte → option FileMetadata) (st : ConnState) (env : Env)
    (p : nat) (s : TransferSession) :
  data_frame env →
  cs_sess st = Some p →
  w_heap (cs_world st) !! p = Some s →
  sessions (cs_mgr st) !! ts_ID s = Some p →
  ∃ st' s',
    handle_frame U st env = Continue st'
    ∧ cs_mgr st' = cs_mgr st ∧ cs_sess st' = Some p
    ∧ w_heap (cs_world st') = <[p := s']> (w_heap (cs_world st))
    ∧ w_temp_dir (cs_world st')
      = <[part_name (ts_ID s) (cm_ID (frame_meta env)) := frame_data env]>
          (w_temp_dir (cs_world st))
    ∧ w_output_dir (cs_world st') = w_output_dir (cs_world st)
    ∧ ts_ID s' = ts_ID s ∧ ts_File s' = ts_File s
    ∧ ts_Chunks s'
      = Some (<[cm_ID (frame_meta env) := frame_entry (ts_ID s) env]>
                (default ∅ (ts_Chunks s)))
    ∧ ts_Completed s' = wrap64 (ts_Completed s + 1)
    ∧ ts_Failed s' = ts_Failed s.
Proof.
  intros (Hrecv & Hid & Hhash & Hstore) Hsess Hs Hm.
  set (data := frame_data env) in *. set (meta := frame_meta env) in *.
  unfold handle_frame. rewrite Hrecv, Hsess.
  destruct (decide (cm_ID meta = "__filemeta__")); [done |].
  unfold declared_hash in Hhash.
  destruct (hex_DecodeString (cm_SHA256 meta)) as [bs|]; [| done].
  injection Hhash as Hhash.
  unfold VerifyChunk. rewrite bool_decide_eq_true_2 by done. cbn [negb].
  rewrite Hs, Hstore. cbn [StoreChunk].
  set (meta' := chunk_set_SessionID meta (ts_ID s)).
  set (s1 := session_set_Chunks s (Some (<[cm_ID meta := meta']> (default ∅ (ts_Chunks s))))).
  unfold UpdateChunkStatus. cbn [w_heap set_temp_dir set_heap].
  rewrite Hm.
  assert (p < length (w_heap (cs_world st)))%nat as Hp by (by eapply lookup_lt_Some).
  rewrite list_lookup_insert_eq by done.
  unfold update_in_memory. cbn [ts_Chunks s1 session_set_Chunks].
  rewrite lookup_insert_eq, insert_insert_eq.
  match goal with |- context [saveLocked _ ?x _] => set (s' := x) end.
  destruct (saveLocked (env_save env) s' _) as [[e|] d];
    (eexists _, s'; split; [reflexivity |]);
    cbn [cs_mgr cs_sess cs_world w_heap w_temp_dir w_output_dir add_log
         set_sessions_dir set_heap set_temp_dir];
    rewrite list_insert_insert_eq;
    repeat (split; [reflexivity |]); reflexivity.
Qed.

(** X23. A data frame whose declared hash is the hash of its payload is
    stored and counted: on a connection with a session that the manager
    knows under its id, one turn of the loop writes the payload to the
    scratch file of the chunk, enters the frame's descriptor in the
    session's chunk map with the session's id and status [completed], and
    adds one to the session's completed counter, whether or not the save
    of the session succeeds; the loop goes on with the next frame. The hash
    that the sender declares, the lower-case hexadecimal digest of the
    payload, always matches. *)
Theorem matching_frame_is_stored_and_counted (U : list byte → option FileMetadata)
    (st : ConnState) (env : Env) (rest : list Env) (p : nat) (s : TransferSession) :
  data_frame env →
  cs_sess st = Some p →
  w_heap (cs_world st) !! p = Some s →
  sessions (cs_mgr st) !! ts_ID s = Some p →
  (∃ st' s',
     handle_frame U st env = Continue st'
     ∧ handleConnection_loop U st (env :: rest) = handleConnection_loop U st' rest
     ∧ w_temp_dir (cs_world st') !! part_name (ts_ID s) (cm_ID (frame_meta env))
       = Some (frame_data env)
     ∧ w_heap (cs_world st') !! p = Some s'
     ∧ default ∅ (ts_Chunks s') !! cm_ID (frame_meta env)
       = Some (frame_entry (ts_ID s) env)
     ∧ cm_Status (frame_entry (ts_ID s) env) = ChunkStatusCompleted
     ∧ cm_SessionID (frame_entry (ts_ID s) env) = ts_ID s
     ∧ ts_Completed s' = wrap64 (ts_Completed s + 1))
  ∧ ∀ data, declared_hash (hex_EncodeToString (HashChunk data)) = Some (HashChunk data).
Proof.
  intros Hframe Hsess Hs Hm. split; [| apply declared_hash_hex].
  destruct (handle_data_frame U st env p s Hframe Hsess Hs Hm)
    as (st' & s' & Hstep & _ & _ & Hheap & Htemp & _ & _ & _ & Hch & Hcomp & _).
  exists st', s'. split; [exact Hstep |].
  split. { simpl. by rewrite Hstep. }
  split. { rewrite Htemp. apply lookup_insert_eq. }
  split. { rewrite Hheap. apply list_lookup_insert_eq. by eapply lookup_lt_Some. }
  split. { rewrite Hch. simpl. apply lookup_insert_eq. }
  done.
Qed.

Lemma matching_frame_is_stored_and_counted_witness :
  ∃ st' s',
    handle_frame (λ _, None) example_conn
      (example_env (hex_EncodeToString (HashChunk example_payload))) = Continue st'
    ∧ w_temp_dir (cs_world st') !! part_name example_id "0" = Some example_payload
    ∧ w_heap (cs_world st') !! 0%nat = Some s'
    ∧ ts_Completed s' = 1.
Proof.
  destruct (matching_frame_is_stored_and_counted (λ _, None) example_conn
              (example_env (hex_EncodeToString (HashChunk example_payload))) [] 0%nat
              {| ts_ID := example_id; ts_File := example_file;
                 ts_Status := SessionStatusCreated; ts_Chunks := Some ∅;
                 ts_CreatedAt := 100; ts_UpdatedAt := 100; ts_CompletedAt := None;
                 ts_TotalChunks := 0; ts_Completed := 0; ts_Failed := 0;
                 ts_BytesSent := 0; ts_BytesReceived := 0 |})
    as [(st' & s' & Hstep & _ & Htemp & Hheap & _ & _ & _ & Hcomp) _].
  - split; [reflexivity |]. split; [done |]. split; [apply declared_hash_hex | reflexivity].
  - reflexivity.
  - vm_compute; reflexivity.
  - vm_compute; reflexivity.
  - exists st', s'. split; [exact Hstep |]. split; [exact Htemp |].
    split; [exact Hheap |]. rewrite Hcomp. reflexivity.
Defined.

(** ** The receiver: a whole connection *)






(** ** The sender and the receiver together *)






(** ** The frames of the stream sender and receiver *)

Lemma ReadFull_app (a rest : list byte) (n : nat) :
  length a = n → ReadFull (a ++ rest) n = (a, rest, ReadNil).
Proof.
  intros <-. unfold ReadFull. rewrite take_app_length, drop_app_length.
  by rewrite decide_True.
Qed.

Lemma ReadFull_short (l : list byte) (n : nat) :
  (length l < n)%nat →
  ReadFull l n = (l, [], if decide (length l = 0%nat) then ReadEOF else ReadUnexpectedEOF).
Proof.
  intros H. unfold ReadFull. rewrite take_ge, drop_ge by lia.
  rewrite decide_False by lia. done.
Qed.

Section FramingFacts.

Variable Marshal_ChunkMetadata : ChunkMetadata → option (list byte).
Variable Unmarshal_ChunkMetadata : list byte → option ChunkMetadata.
Variable zstd_EncodeAll : list byte → list byte.
Variable zstd_DecodeAll : list byte → option (list byte).
Variable maxAlloc : Z.

(** X26. What [Send] writes, [Receive] reads back. For a descriptor that
    [json] encodes and decodes again, a compressor and a decompressor that
    keep the library's round-trip promise, and lengths that fit their
    fields and can be allocated: the frame that [Send] writes for the
    compressed chunk is twelve bytes longer than the encoded descriptor and
    the compressed chunk together, and [Receive], on a stream that starts
    with the frame, returns the chunk and the descriptor and leaves the
    stream right after the frame. *)
Theorem Send_Receive_round_trip (buf : list byte) (meta : ChunkMetadata)
    (metaBytes c rest : list byte) :
  Marshal_ChunkMetadata meta = Some metaBytes →
  Unmarshal_ChunkMetadata metaBytes = Some meta →
  zstd_round_trip zstd_EncodeAll zstd_DecodeAll →
  CompressChunk zstd_EncodeAll buf = Ok c →
  len metaBytes < 2 ^ 32 →
  len c < 2 ^ 64 →
  len metaBytes <= maxAlloc →
  len c <= maxAlloc →
  ∃ frame,
    Send Marshal_ChunkMetadata ConnOk c meta = (None, frame)
    ∧ len frame = 12 + len metaBytes + len c
    ∧ Receive Unmarshal_ChunkMetadata zstd_DecodeAll maxAlloc (frame ++ rest)
      = Returns (ReceiveFrame buf meta, rest)
    ∧ to_RecvResult (ReceiveFrame buf meta) = RecvFrame buf meta.
Proof.
  intros HM HU Hrt Hc Hm32 Hc64 Hma Hca.
  injection Hc as <-.
  unfold Send. rewrite HM. eexists. split; [reflexivity |].
  assert (0 <= len metaBytes ∧ 0 <= len (zstd_EncodeAll buf)) as [? ?]
    by (unfold len; lia).
  split.
  { unfold len. rewrite !length_app, !length_be_bytes. lia. }
  split; [| done].
  unfold Receive. rewrite <- !app_assoc.
  rewrite ReadFull_app by apply length_be_bytes.
  unfold w32, w64. rewrite !Z.mod_small by lia.
  rewrite be_to_Z_be_bytes_small by (simpl; lia).
  destruct (decide (len metaBytes > maxAlloc)); [lia |].
  rewrite ReadFull_app by (unfold len; lia).
  destruct (decide (ReadNil ≠ ReadNil)); [done |]. rewrite HU.
  rewrite ReadFull_app by apply length_be_bytes.
  destruct (decide (ReadNil ≠ ReadNil)); [done |].
  rewrite be_to_Z_be_bytes_small by (simpl; lia).
  destruct (decide (len (zstd_EncodeAll buf) > maxAlloc)); [lia |].
  rewrite ReadFull_app by (unfold len; lia).
  destruct (decide (ReadNil ≠ ReadNil)); [done |].
  unfold DecompressChunk. by rewrite Hrt.
Qed.

(** X27. A stream that ends inside a frame gives an error, never a frame;
    a stream that ends between frames gives [io.EOF]. For a frame as
    [Send] writes it (the length of the encoded descriptor, the encoded
    descriptor, the length of the chunk, the chunk) cut after [k] of its
    bytes: [Receive] returns [io.EOF] for [k = 0], and otherwise the error
    of the read that came short: of the first length, of the descriptor,
    of the second length, or of the chunk. *)
Theorem Receive_truncated_frame (meta : ChunkMetadata) (metaBytes c : list byte)
    (k : nat) :
  Unmarshal_ChunkMetadata metaBytes = Some meta →
  len metaBytes < 2 ^ 32 →
  len c < 2 ^ 64 →
  len metaBytes <= maxAlloc →
  len c <= maxAlloc →
  (k < 12 + length metaBytes + length c)%nat →
  Receive Unmarshal_ChunkMetadata zstd_DecodeAll maxAlloc
    (take k (be_bytes 4 (w32 (len metaBytes)) ++ metaBytes
             ++ be_bytes 8 (w64 (len c)) ++ c))
  = Returns
      (if decide (k = 0)%nat then ReceiveEOF
       else if decide (k < 4)%nat then ReceiveError ErrReadMetaLength
       else if decide (k < 4 + length metaBytes)%nat then ReceiveError ErrReadMeta
       else if decide (k < 12 + length metaBytes)%nat
            then ReceiveError ErrReadDataLength
       else ReceiveError ErrReadData, []).
Proof.
  intros HU Hm32 Hc64 Hma Hca Hk.
  assert (0 <= len metaBytes ∧ 0 <= len c) as [? ?] by (unfold len; lia).
  unfold w32, w64. rewrite !Z.mod_small by lia.
  set (L4 := be_bytes 4 (len metaBytes)). set (L8 := be_bytes 8 (len c)).
  assert (length L4 = 4%nat) as HL4 by apply length_be_bytes.
  assert (length L8 = 8%nat) as HL8 by apply length_be_bytes.
  assert (be_to_Z L4 = len metaBytes) as HZ4
    by (apply be_to_Z_be_bytes_small; simpl; lia).
  assert (be_to_Z L8 = len c) as HZ8
    by (apply be_to_Z_be_bytes_small; simpl; lia).
  unfold Receive.
  destruct (decide (k < 4)%nat) as [Hk4|Hk4].
  { (* inside the first length *)
    rewrite take_app_le by lia.
    rewrite ReadFull_short by (rewrite length_take; lia).
    rewrite length_take, HL4.
    destruct (decide (k = 0)%nat) as [->|Hk0].
    - by rewrite decide_True by done.
    - by rewrite decide_False by lia. }
  rewrite decide_False by lia.
  rewrite take_app_ge, HL4 by lia.
  rewrite ReadFull_app by done. rewrite HZ4.
  destruct (decide (len metaBytes > maxAlloc)); [lia |].
  destruct (decide (k < 4 + length metaBytes)%nat) as [Hkm|Hkm].
  { (* inside the descriptor *)
    rewrite take_app_le by lia.
    rewrite ReadFull_short by (rewrite length_take; unfold len; lia).
    by rewrite decide_True by (by case_decide). }
  rewrite take_app_ge by lia.
  rewrite ReadFull_app by (unfold len; lia).
  rewrite decide_False by (intros ?; done). rewrite HU.
  destruct (decide (k < 12 + length metaBytes)%nat) as [Hk8|Hk8].
  { (* inside the second length *)
    rewrite take_app_le by lia.
    rewrite ReadFull_short by (rewrite length_take; lia).
    by rewrite decide_True by (by case_decide). }
  rewrite take_app_ge, HL8 by lia.
  rewrite ReadFull_app by done.
  rewrite decide_False by (intros ?; done). rewrite HZ8.
  destruct (decide (len c > maxAlloc)); [lia |].
  rewrite ReadFull_short by (rewrite length_take; unfold len; lia).
  by rewrite decide_True by (by case_decide).
Qed.

End FramingFacts.

Lemma Send_Receive_round_trip_witness :
  let meta := chunk_descriptor (list_byte_of_string "abcdef") 3 7 0 in
  let Marshal (c : ChunkMetadata) := Some (list_byte_of_string (cm_ID c)) in
  let Unmarshal (bs : list byte) :=
    if decide (bs = list_byte_of_string "0") then Some meta else None in
  ∃ frame,
    Send Marshal ConnOk (id (list_byte_of_string "abc")) meta = (None, frame)
    ∧ Receive Unmarshal Some (2 ^ 48) (frame ++ [x00; x00])
      = Returns (ReceiveFrame (list_byte_of_string "abc") meta, [x00; x00]).
Proof.
  intros meta Marshal Unmarshal.
  destruct (Send_Receive_round_trip Marshal Unmarshal id Some (2 ^ 48)
              (list_byte_of_string "abc") meta (list_byte_of_string "0")
              (list_byte_of_string "abc") [x00; x00])
    as (frame & HS & _ & HR & _).
  - reflexivity.
  - reflexivity.
  - by intros data.
  - reflexivity.
  - vm_compute; reflexivity.
  - vm_compute; reflexivity.
  - vm_compute; discriminate.
  - vm_compute; discriminate.
  - exists frame. split; [exact HS | exact HR].
Defined.

Lemma Receive_truncated_frame_witness :
  let meta := chunk_descriptor (list_byte_of_string "abcdef") 3 7 0 in
  let Unmarshal (bs : list byte) :=
    if decide (bs = list_byte_of_string "0") then Some meta else None in
  Receive Unmarshal Some (2 ^ 48)
    (take 14 (be_bytes 4 (w32 (len (list_byte_of_string "0")))
              ++ list_byte_of_string "0"
              ++ be_bytes 8 (w64 (len (list_byte_of_string "abc")))
              ++ list_byte_of_string "abc"))
  = Returns (ReceiveError ErrReadData, []).
Proof.
  intros meta Unmarshal.
  rewrite (Receive_truncated_frame Unmarshal Some (2 ^ 48) meta
             (list_byte_of_string "0") (list_byte_of_string "abc") 14).
  - reflexivity.
  - reflexivity.
  - vm_compute; reflexivity.
  - vm_compute; reflexivity.
  - vm_compute; discriminate.
  - vm_compute; discriminate.
  - simpl; lia.
Defined.
